(** * youtube-reader: provider resolution, fallback, subtitle parsing and
      transcript extraction, embedded from the TypeScript sources.

    JavaScript strings are sequences of UTF-16 code units; they are modelled
    as [list N].  Asynchronous functions that talk to the host (subprocesses,
    the network) are modelled by explicit state passing over the host. *)

From Stdlib Require Import NArith String Ascii DecimalString.
From stdpp Require Import base list gmap.

Local Open Scope N_scope.

(** Comparisons of code units stay folded when statements are simplified. *)
Arguments N.eqb : simpl never.
Arguments N.leb : simpl never.

(** ** JavaScript strings *)

Abbreviation jsstring := (list N).

Module Js.

(** A literal of the source, made of ASCII characters only. *)
Fixpoint str (s : string) : jsstring :=
  match s with
  | EmptyString => []
  | String a s' => N_of_ascii a :: str s'
  end.
Arguments str : simpl never.

(** [Boolean(s)] for a string: the empty string is the only falsy one. *)
Definition truthy (s : jsstring) : bool :=
  match s with [] => false | _ :: _ => true end.

(** [s || null] *)
Definition orNull (s : jsstring) : option jsstring :=
  if truthy s then Some s else None.

(** WhiteSpace and LineTerminator code units: what [String.prototype.trim]
    strips and what [\s] matches. *)
Definition isWhiteSpace (c : N) : bool :=
  (c =? 9) || (c =? 10) || (c =? 11) || (c =? 12) || (c =? 13) || (c =? 32)
  || (c =? 160) || (c =? 5760) || ((8192 <=? c) && (c <=? 8202))
  || (c =? 8232) || (c =? 8233) || (c =? 8239) || (c =? 8287)
  || (c =? 12288) || (c =? 65279).

Fixpoint trimStart (s : jsstring) : jsstring :=
  match s with
  | [] => []
  | c :: s' => if isWhiteSpace c then trimStart s' else s
  end.

Definition trimEnd (s : jsstring) : jsstring :=
  reverse (trimStart (reverse s)).

Definition trim (s : jsstring) : jsstring := trimEnd (trimStart s).

Fixpoint startsWith (p s : jsstring) : bool :=
  match p, s with
  | [], _ => true
  | _ :: _, [] => false
  | a :: p', b :: s' => (a =? b) && startsWith p' s'
  end.

(** [s.includes(sub)] *)
Fixpoint includes (sub s : jsstring) : bool :=
  startsWith sub s ||
  match s with
  | [] => false
  | _ :: s' => includes sub s'
  end.

(** [parts.join(sep)] *)
Fixpoint join (sep : jsstring) (parts : list jsstring) : jsstring :=
  match parts with
  | [] => []
  | [p] => p
  | p :: ps => p ++ sep ++ join sep ps
  end.

(** [String(n)] for an array length. *)
Definition ofNat (n : nat) : jsstring :=
  str (NilZero.string_of_uint (Nat.to_uint n)).

(** The line feed of the source's ["\n"]. *)
Definition nl : jsstring := [10].

(** [a || b] on strings that may be [undefined]. *)
Definition orElse (a : option jsstring) (b : jsstring) : jsstring :=
  match a with
  | Some s => if truthy s then s else b
  | None => b
  end.

(** A string that starts and ends with a character that is not white
    space: it is not empty, and trimming leaves it as it is. *)
Definition headSolid (s : jsstring) : bool :=
  match s with
  | [] => false
  | c :: _ => negb (isWhiteSpace c)
  end.

Definition tight (s : jsstring) : Prop :=
  headSolid s = true ∧ headSolid (reverse s) = true.

End Js.

(** ** Tool detection (tools.ts) *)

Module Tools.
Import Js.

Inductive WhisperBackend :=
| WhisperCpp (path : jsstring)      (* { type: "whisper-cpp", path } *)
| Whisper (path : jsstring)         (* { type: "whisper", path } *)
| MlxWhisper (path : jsstring)      (* { type: "mlx-whisper", path } *)
| OpenaiApi.                        (* { type: "openai-api" } *)

(** What the host answers to the probes of this module: the standard output
    of [which <cmd>] and of [<path> --help 2>&1] ([None] when the subprocess
    fails, which rejects the promise), and the process environment. *)
Record ProcessEnv := {
  OPENAI_API_KEY : option jsstring;
  YOUTUBE_TRANSCRIPT_API_TOKEN : option jsstring;
  YOUTUBE_TRANSCRIPT_API_URL : option jsstring
}.

Record Host := {
  which : jsstring → option jsstring;
  helpOutput : jsstring → option jsstring;
  env : ProcessEnv
}.

Definition commandExists (h : Host) (cmd : jsstring) : option jsstring :=
  match which h cmd with
  | Some stdout => orNull (trim stdout)
  | None => None
  end.

Definition hasYtdlp (h : Host) : bool :=
  match commandExists h (str "yt-dlp") with
  | Some _ => true
  | None => false
  end.

Definition envSet (v : option jsstring) : bool :=
  match v with
  | Some s => truthy s
  | None => false
  end.

Definition detectWhisper (h : Host) : option WhisperBackend :=
  match commandExists h (str "whisper-cpp") with
  | Some whisperCppPath => Some (WhisperCpp whisperCppPath)
  | None =>
    match commandExists h (str "whisper") with
    | Some mainPath =>
      match helpOutput h mainPath with
      | Some stdout =>
        if includes (str "whisper.cpp") stdout
        then Some (WhisperCpp mainPath)
        else Some (Whisper mainPath)
      | None => Some (Whisper mainPath)
      end
    | None =>
      match commandExists h (str "mlx_whisper") with
      | Some mlxWhisperPath => Some (MlxWhisper mlxWhisperPath)
      | None =>
        if envSet (OPENAI_API_KEY (env h)) then Some OpenaiApi else None
      end
    end
  end.

(** *** The detection priority, in the words of the specification *)

(** The probe that tells the two projects named [whisper] apart: the help
    output mentions whisper.cpp.  A probe that fails tells nothing. *)
Definition saysWhisperCpp (h : Host) (path : jsstring) : bool :=
  match helpOutput h path with
  | Some stdout => includes (str "whisper.cpp") stdout
  | None => false
  end.

(** The compiled whisper.cpp binary: under its own name, or under the
    shared name when the probe recognises it. *)
Definition compiledBinary (h : Host) : option WhisperBackend :=
  match commandExists h (str "whisper-cpp") with
  | Some path => Some (WhisperCpp path)
  | None =>
    match commandExists h (str "whisper") with
    | Some path => if saysWhisperCpp h path then Some (WhisperCpp path) else None
    | None => None
    end
  end.

(** The Python-style CLI: the shared name, when the probe does not
    recognise whisper.cpp. *)
Definition pythonCli (h : Host) : option WhisperBackend :=
  match commandExists h (str "whisper") with
  | Some path => if saysWhisperCpp h path then None else Some (Whisper path)
  | None => None
  end.

Definition mlxCli (h : Host) : option WhisperBackend :=
  MlxWhisper <$> commandExists h (str "mlx_whisper").

(** The cloud API needs a credential. *)
Definition cloudApi (h : Host) : option WhisperBackend :=
  if envSet (OPENAI_API_KEY (env h)) then Some OpenaiApi else None.

Fixpoint firstAvailable (candidates : list (option WhisperBackend))
  : option WhisperBackend :=
  match candidates with
  | [] => None
  | Some b :: _ => Some b
  | None :: rest => firstAvailable rest
  end.

End Tools.

(** ** Provider resolution and the fallback executor (providers/index.ts) *)

Module Providers.
Import Js Tools.

Inductive TranscriptSource := SourceApi | SourceYtdlp | SourceWhisper.

Record TranscriptResult := {
  text : jsstring;
  title : option jsstring;
  language : option jsstring;
  source : TranscriptSource
}.

(** A thrown value: an [Error] with its message, or any other value with
    what [String(value)] gives for it. *)
Inductive Thrown :=
| ErrorObj (message : jsstring)
| NonError (asString : jsstring).

(** The message of [error instanceof Error ? error : new Error(String(error))]. *)
Definition errorMessage (t : Thrown) : jsstring :=
  match t with
  | ErrorObj message => message
  | NonError asString => asString
  end.

(** A settled promise. *)
Inductive Settled (A : Type) :=
| Fulfilled (a : A)
| Rejected (t : Thrown).
Arguments Fulfilled {A} a.
Arguments Rejected {A} t.

(** *** api.ts: the two configuration helpers *)

Definition DEFAULT_API_URL : jsstring :=
  str "https://www.youtube-transcript.io/api/transcripts".

Definition resolveApiUrl (e : ProcessEnv) (cliValue : option jsstring) : jsstring :=
  orElse (trim <$> cliValue)
    (orElse (trim <$> YOUTUBE_TRANSCRIPT_API_URL e) DEFAULT_API_URL).

Definition resolveApiToken (e : ProcessEnv) (cliValue : option jsstring) : jsstring :=
  orElse (trim <$> cliValue)
    (orElse (trim <$> YOUTUBE_TRANSCRIPT_API_TOKEN e) []).

(** *** resolveProviders *)

Inductive ProviderChoice := ChooseApi | ChooseYtdlp | ChooseWhisper | ChooseAuto.

Record ProviderOptions := {
  opt_token : option jsstring;
  opt_apiUrl : option jsstring;
  opt_provider : option ProviderChoice;
  opt_whisperModel : option jsstring;
  opt_lang : option jsstring;
  opt_noFallback : option bool
}.

(** The three provider classes, as the objects their constructors build. *)
Inductive ProviderObject :=
| ApiProvider (token apiUrl : jsstring)
| YtdlpProvider (preferredLang : option jsstring)
| WhisperProvider (backend : WhisperBackend) (model : jsstring) (lang : option jsstring).

(** [new WhisperProvider(backend, model, lang)]: the model defaults to "base". *)
Definition newWhisperProvider (backend : WhisperBackend) (model lang : option jsstring)
  : ProviderObject :=
  WhisperProvider backend (orElse model (str "base")) lang.

Definition providerName (p : ProviderObject) : jsstring :=
  match p with
  | ApiProvider _ _ => str "api"
  | YtdlpProvider _ => str "ytdlp"
  | WhisperProvider _ _ _ => str "whisper"
  end.

Record ResolvedProviders := {
  providers : list ProviderObject;
  warnings : list jsstring
}.

Definition msgApiNeedsToken : jsstring :=
  str "API provider requires a token. Set YOUTUBE_TRANSCRIPT_API_TOKEN or use --token.".

Definition msgYtdlpMissing : jsstring :=
  str "yt-dlp provider requested but yt-dlp is not installed." ++ nl ++
  str "Install it with: brew install yt-dlp".

Definition msgWhisperNeedsYtdlp : jsstring :=
  str "Whisper provider requires yt-dlp for audio download." ++ nl ++
  str "Install it with: brew install yt-dlp".

Definition msgWhisperNoBackend : jsstring :=
  str "Whisper provider requested but no whisper backend is available." ++ nl ++
  str "Install one of:" ++ nl ++
  str "  - whisper.cpp: brew install whisper-cpp" ++ nl ++
  str "  - OpenAI whisper: pip install openai-whisper" ++ nl ++
  str "  - MLX whisper: pip install mlx-whisper" ++ nl ++
  str "  - Or set OPENAI_API_KEY for API transcription".

Definition msgNoProvider : jsstring :=
  str "No transcript provider available." ++ nl ++ nl ++
  str "To fix this, either:" ++ nl ++
  str "  - Set YOUTUBE_TRANSCRIPT_API_TOKEN for API access" ++ nl ++
  str "  - Install yt-dlp: brew install yt-dlp" ++ nl ++
  str "  - Install whisper: pip install openai-whisper".

Definition warnNoToken : jsstring :=
  str "No API token set. Using yt-dlp for subtitles.".
Definition warnNoYtdlp : jsstring :=
  str "yt-dlp not found. No fallback if API fails.".
Definition warnNoWhisper : jsstring :=
  str "No whisper backend found. Cannot transcribe videos without subtitles.".

Definition isSome {A} (o : option A) : bool :=
  match o with Some _ => true | None => false end.

Definition resolveProviders (h : Host) (options : ProviderOptions)
  : Settled ResolvedProviders :=
  let token := resolveApiToken (env h) (opt_token options) in
  let apiUrl := resolveApiUrl (env h) (opt_apiUrl options) in
  let ytdlpAvailable := hasYtdlp h in
  let whisperBackend := detectWhisper h in
  let forced (choice : ProviderChoice) : Settled ResolvedProviders :=
    match choice with
    | ChooseApi =>
      if negb (truthy token) then Rejected (ErrorObj msgApiNeedsToken)
      else Fulfilled {| providers := [ApiProvider token apiUrl]; warnings := [] |}
    | ChooseYtdlp =>
      if negb ytdlpAvailable then Rejected (ErrorObj msgYtdlpMissing)
      else Fulfilled {| providers := [YtdlpProvider (opt_lang options)]; warnings := [] |}
    | ChooseWhisper =>
      if negb ytdlpAvailable then Rejected (ErrorObj msgWhisperNeedsYtdlp)
      else match whisperBackend with
           | None => Rejected (ErrorObj msgWhisperNoBackend)
           | Some backend =>
             Fulfilled {| providers :=
                            [newWhisperProvider backend (opt_whisperModel options)
                               (opt_lang options)];
                          warnings := [] |}
           end
    | ChooseAuto => Fulfilled {| providers := []; warnings := [] |}
    end in
  let auto : Settled ResolvedProviders :=
    let providers1 := if truthy token then [ApiProvider token apiUrl] else [] in
    let providers2 :=
      if ytdlpAvailable then
        (providers1 ++ [YtdlpProvider (opt_lang options)]) ++
        match whisperBackend with
        | Some backend =>
          [newWhisperProvider backend (opt_whisperModel options) (opt_lang options)]
        | None => []
        end
      else providers1 in
    if (length providers2 =? 0)%nat then Rejected (ErrorObj msgNoProvider)
    else
      let warnings1 := if negb (truthy token) then [warnNoToken] else [] in
      let warnings2 :=
        if negb ytdlpAvailable && truthy token then warnings1 ++ [warnNoYtdlp]
        else warnings1 in
      let warnings3 :=
        if ytdlpAvailable && negb (isSome whisperBackend)
        then warnings2 ++ [warnNoWhisper] else warnings2 in
      Fulfilled {| providers := providers2; warnings := warnings3 |} in
  match opt_provider options with
  | Some ChooseAuto | None => auto
  | Some choice => forced choice
  end.

(** The prerequisites of a forced provider, in the words of the
    specification: a token for the API; the yt-dlp tool for yt-dlp; yt-dlp
    and a detectable whisper backend for whisper. *)
Definition prerequisitesMet (h : Host) (options : ProviderOptions) (choice : ProviderChoice)
  : bool :=
  match choice with
  | ChooseApi => truthy (resolveApiToken (env h) (opt_token options))
  | ChooseYtdlp => hasYtdlp h
  | ChooseWhisper => hasYtdlp h && isSome (detectWhisper h)
  | ChooseAuto => true
  end.

Definition choiceName (choice : ProviderChoice) : jsstring :=
  match choice with
  | ChooseApi => str "api"
  | ChooseYtdlp => str "ytdlp"
  | ChooseWhisper => str "whisper"
  | ChooseAuto => str "auto"
  end.

(** *** fetchTranscript *)

(** The provider interface.  [available] and [fetch] are asynchronous and
    act on the host (subprocesses, network, scratch files): they take the
    state of the world and give back a settled promise and the new state. *)
Record TranscriptProvider (World : Type) := {
  name : jsstring;
  available : World → Settled bool * World;
  fetch : jsstring → World → Settled (option TranscriptResult) * World
}.
Arguments name {World} _.
Arguments available {World} _ _.
Arguments fetch {World} _ _ _.

(** The calls made on the providers, in order. *)
Inductive Call :=
| CallAvailable (provider : jsstring)
| CallFetch (provider videoId : jsstring).

(** One entry of the local [errors] array. *)
Record Attempt := {
  attempt_provider : jsstring;
  attempt_error : jsstring        (* the message of the recorded Error *)
}.

(** What one run of [fetchTranscript] has done so far. *)
Record Exec (World : Type) := {
  world : World;
  errors : list Attempt;
  stderr : list jsstring;
  calls : list Call
}.
Arguments world {World} _.
Arguments errors {World} _.
Arguments stderr {World} _.
Arguments calls {World} _.

Section FetchTranscript.
Context {World : Type}.

Definition start (w : World) : Exec World :=
  {| world := w; errors := []; stderr := []; calls := [] |}.

Definition called (c : Call) (w : World) (st : Exec World) : Exec World :=
  {| world := w; errors := errors st; stderr := stderr st; calls := calls st ++ [c] |}.

Definition pushError (a : Attempt) (st : Exec World) : Exec World :=
  {| world := world st; errors := errors st ++ [a]; stderr := stderr st;
     calls := calls st |}.

Definition writeStderr (line : jsstring) (st : Exec World) : Exec World :=
  {| world := world st; errors := errors st; stderr := stderr st ++ [line];
     calls := calls st |}.

Definition msgNoTranscript (providerName videoId : jsstring) : jsstring :=
  str "[" ++ providerName ++ str "] No transcript available for video " ++ videoId.

(** The [for ... of] loop with its try/catch; [None] when the loop ends
    without returning or throwing. *)
Fixpoint tryProviders (videoId : jsstring) (providers : list (TranscriptProvider World))
    (noFallback : bool) (st : Exec World)
  : option (Settled TranscriptResult) * Exec World :=
  match providers with
  | [] => (None, st)
  | provider :: rest =>
    let catch (error : Thrown) (st : Exec World) :=
      let st := pushError {| attempt_provider := name provider;
                             attempt_error := errorMessage error |} st in
      if noFallback then (Some (Rejected error), st)
      else
        tryProviders videoId rest noFallback
          (writeStderr (str "[" ++ name provider ++ str "] " ++ errorMessage error ++ nl) st)
    in
    let (isAvailable, w1) := available provider (world st) in
    let st := called (CallAvailable (name provider)) w1 st in
    match isAvailable with
    | Rejected error => catch error st
    | Fulfilled false => tryProviders videoId rest noFallback st
    | Fulfilled true =>
      let (result, w2) := fetch provider videoId (world st) in
      let st := called (CallFetch (name provider) videoId) w2 st in
      match result with
      | Rejected error => catch error st
      | Fulfilled (Some result) => (Some (Fulfilled result), st)
      | Fulfilled None =>
        if noFallback then catch (ErrorObj (msgNoTranscript (name provider) videoId)) st
        else tryProviders videoId rest noFallback st
      end
    end
  end.

Definition errorDetails (errors : list Attempt) : jsstring :=
  join nl (map (λ e, str "  - " ++ attempt_provider e ++ str ": " ++ attempt_error e) errors).

Definition msgAllFailed (videoId : jsstring) (nproviders : nat) (errors : list Attempt)
  : jsstring :=
  (str "Failed to get transcript for video " ++ videoId ++ str "." ++ nl) ++
  (str "Tried " ++ ofNat nproviders ++ str " provider(s):" ++ nl ++ errorDetails errors).

Definition fetchTranscript (videoId : jsstring) (providers : list (TranscriptProvider World))
    (noFallback : bool) (w : World) : Settled TranscriptResult * Exec World :=
  match tryProviders videoId providers noFallback (start w) with
  | (Some outcome, st) => (outcome, st)
  | (None, st) =>
    (Rejected (ErrorObj (msgAllFailed videoId (length providers) (errors st))), st)
  end.

(** *** Vocabulary of the statements about [fetchTranscript] *)

(** What a provider does when the loop reaches it in the world [w]: the
    body of the [try] block up to its outcome. *)
Inductive AttemptOutcome :=
| Skipped                           (* available() gave false *)
| Absent                            (* fetch() gave null *)
| Raised (t : Thrown)               (* available() or fetch() threw *)
| Produced (r : TranscriptResult).  (* fetch() gave a result *)

Definition attempt (provider : TranscriptProvider World) (videoId : jsstring) (w : World)
  : AttemptOutcome * World :=
  let (isAvailable, w1) := available provider w in
  match isAvailable with
  | Rejected error => (Raised error, w1)
  | Fulfilled false => (Skipped, w1)
  | Fulfilled true =>
    let (result, w2) := fetch provider videoId w1 in
    match result with
    | Rejected error => (Raised error, w2)
    | Fulfilled None => (Absent, w2)
    | Fulfilled (Some r) => (Produced r, w2)
    end
  end.

(** The outcomes of the providers of a chain, each reached in the world the
    one before it left. *)
Fixpoint outcomes (videoId : jsstring) (providers : list (TranscriptProvider World))
    (w : World) : list (jsstring * AttemptOutcome) :=
  match providers with
  | [] => []
  | provider :: rest =>
    let (o, w') := attempt provider videoId w in
    (name provider, o) :: outcomes videoId rest w'
  end.

Definition producedNothing (o : jsstring * AttemptOutcome) : Prop :=
  match o.2 with
  | Produced _ => False
  | _ => True
  end.

(** The line of the aggregate message for one outcome, if it has one. *)
Definition failureLine (o : jsstring * AttemptOutcome) : option jsstring :=
  match o.2 with
  | Raised t => Some (str "  - " ++ o.1 ++ str ": " ++ errorMessage t)
  | _ => None
  end.

(** The entry of [errors] for one outcome, if it has one. *)
Definition entryOf (o : jsstring * AttemptOutcome) : option Attempt :=
  match o.2 with
  | Raised t => Some {| attempt_provider := o.1; attempt_error := errorMessage t |}
  | _ => None
  end.

(** A fetch that gave no result: [null], or a rejection. *)
Definition noResult (f : Settled (option TranscriptResult)) : Prop :=
  match f with
  | Fulfilled (Some _) => False
  | _ => True
  end.

(** The entry such a fetch leaves in [errors] when fallback is allowed. *)
Definition logged (providerName : jsstring) (f : Settled (option TranscriptResult))
  : list Attempt :=
  match f with
  | Rejected t => [{| attempt_provider := providerName; attempt_error := errorMessage t |}]
  | Fulfilled _ => []
  end.

(** The line such a fetch writes to the standard error stream. *)
Definition advised (providerName : jsstring) (f : Settled (option TranscriptResult))
  : list jsstring :=
  match f with
  | Rejected t => [str "[" ++ providerName ++ str "] " ++ errorMessage t ++ nl]
  | Fulfilled _ => []
  end.

(** The error that ends the run when such a fetch happens with fallback
    disabled. *)
Definition terminal (providerName videoId : jsstring)
    (f : Settled (option TranscriptResult)) : Thrown :=
  match f with
  | Rejected t => t
  | Fulfilled _ => ErrorObj (msgNoTranscript providerName videoId)
  end.

(** Every provider of [providers] answers that it is not available; the
    world after the last of these checks. *)
Fixpoint allUnavailable (providers : list (TranscriptProvider World)) (w : World)
  : option World :=
  match providers with
  | [] => Some w
  | provider :: rest =>
    match available provider w with
    | (Fulfilled false, w') => allUnavailable rest w'
    | _ => None
    end
  end.

End FetchTranscript.

End Providers.

(** ** Regular expressions, as far as the sources use them *)

Module Regex.
Import Js.

(** Quantifiers are applied to character classes only, as in every regular
    expression of the sources; none of them matches the empty string. *)
Inductive regex :=
| Eps
| Chr (c : N)                  (* one literal character *)
| Cls (p : N → bool)           (* one character of a class *)
| Lit (s : jsstring)           (* a literal sequence *)
| Seq (r1 r2 : regex)
| Opt (r : regex)              (* r? *)
| Star (p : N → bool)          (* [class]* *)
| Plus (p : N → bool)          (* [class]+ *)
| LazyStar (p : N → bool)      (* [class]*? *)
| Group (r : regex)            (* ( r ) *)
| Eos.                         (* $ without the m flag *)

Definition seqs (rs : list regex) : regex := foldr Seq Eps rs.

Definition times (n : nat) (r : regex) : regex := Nat.iter n (Seq r) Eps.

Definition ch (a : ascii) : N := N_of_ascii a.

Definition isDigit (c : N) : bool := (48 <=? c) && (c <=? 57).
Definition anyChar (c : N) : bool := true.
Definition notChar (x : N) (c : N) : bool := negb (c =? x).
(** [.] without the s flag: anything but a line terminator. *)
Definition dot (c : N) : bool :=
  negb ((c =? 10) || (c =? 13) || (c =? 8232) || (c =? 8233)).

Section Matcher.
Context {A : Type}.

(** Greedy: as many characters of the class as the rest of the pattern
    allows, the longest first. *)
Fixpoint starGreedy (p : N → bool) (s : jsstring) (k : jsstring → option A) : option A :=
  match s with
  | [] => k []
  | c :: s' =>
    if p c then
      match starGreedy p s' k with
      | Some a => Some a
      | None => k s
      end
    else k s
  end.

(** Lazy: as few characters as the rest of the pattern allows. *)
Fixpoint starLazy (p : N → bool) (s : jsstring) (k : jsstring → option A) : option A :=
  match k s with
  | Some a => Some a
  | None =>
    match s with
    | [] => None
    | c :: s' => if p c then starLazy p s' k else None
    end
  end.

(** Backtracking match of [r] at the head of [s]; the continuation gets the
    rest of the input and the captures so far. *)
Fixpoint matchAt (r : regex) (s : jsstring) (caps : list jsstring)
    (k : jsstring → list jsstring → option A) : option A :=
  match r with
  | Eps => k s caps
  | Chr c =>
    match s with
    | x :: s' => if x =? c then k s' caps else None
    | [] => None
    end
  | Cls p =>
    match s with
    | x :: s' => if p x then k s' caps else None
    | [] => None
    end
  | Lit l => if startsWith l s then k (drop (length l) s) caps else None
  | Seq r1 r2 => matchAt r1 s caps (λ s' caps', matchAt r2 s' caps' k)
  | Opt r1 =>
    match matchAt r1 s caps k with
    | Some a => Some a
    | None => k s caps
    end
  | Star p => starGreedy p s (λ s', k s' caps)
  | Plus p =>
    match s with
    | x :: s' => if p x then starGreedy p s' (λ s'', k s'' caps) else None
    | [] => None
    end
  | LazyStar p => starLazy p s (λ s', k s' caps)
  | Group r1 =>
    matchAt r1 s caps (λ s' caps', k s' (caps' ++ [take (length s - length s') s]))
  | Eos =>
    match s with
    | [] => k s caps
    | _ :: _ => None
    end
  end.

End Matcher.

(** The match at the head of [s]: the input left after it, and the captures. *)
Definition exec (r : regex) (s : jsstring) : option (jsstring * list jsstring) :=
  matchAt r s [] (λ rest caps, Some (rest, caps)).

(** [/^r/.test(s)] *)
Definition testStart (r : regex) (s : jsstring) : bool :=
  match exec r s with Some _ => true | None => false end.

(** [/r/.test(s)] *)
Fixpoint test (r : regex) (s : jsstring) : bool :=
  testStart r s ||
  match s with
  | [] => false
  | _ :: s' => test r s'
  end.

(** The scanners below walk the input once; after a match of [n] characters
    at the current position, [skip] counts the [n - 1] characters still to
    pass over before the next match is tried. *)
Definition matched (s rest : jsstring) : nat := length s - length rest.

(** [s.replace(/r/g, rep)] *)
Fixpoint replaceFrom (r : regex) (rep : jsstring) (skip : nat) (s : jsstring) : jsstring :=
  match s with
  | [] =>
    match exec r [] with
    | Some _ => rep
    | None => []
    end
  | c :: s' =>
    match skip with
    | S n => replaceFrom r rep n s'
    | O =>
      match exec r s with
      | Some (rest, _) =>
        match matched s rest with
        | O => rep ++ c :: replaceFrom r rep 0 s'
        | S n => rep ++ replaceFrom r rep n s'
        end
      | None => c :: replaceFrom r rep 0 s'
      end
    end
  end.

Definition replaceAll (r : regex) (rep : jsstring) (s : jsstring) : jsstring :=
  replaceFrom r rep 0 s.

(** [s.split(/r/)] and [s.split(sep)] for a separator that is not empty:
    [cur] holds, reversed, the piece being read. *)
Fixpoint splitFrom (r : regex) (skip : nat) (cur : jsstring) (s : jsstring)
  : list jsstring :=
  match s with
  | [] => [reverse cur]
  | c :: s' =>
    match skip with
    | S n => splitFrom r n cur s'
    | O =>
      match exec r s with
      | Some (rest, _) =>
        match matched s rest with
        | O => splitFrom r 0 (c :: cur) s'
        | S n => reverse cur :: splitFrom r n [] s'
        end
      | None => splitFrom r 0 (c :: cur) s'
      end
    end
  end.

Definition split (r : regex) (s : jsstring) : list jsstring := splitFrom r 0 [] s.

(** [s.matchAll(/r/g)]: the captures of each match, in order. *)
Fixpoint matchAllFrom (r : regex) (skip : nat) (s : jsstring) : list (list jsstring) :=
  match s with
  | [] => []
  | c :: s' =>
    match skip with
    | S n => matchAllFrom r n s'
    | O =>
      match exec r s with
      | Some (rest, caps) => caps :: matchAllFrom r (pred (matched s rest)) s'
      | None => matchAllFrom r 0 s'
      end
    end
  end.

Definition matchAll (r : regex) (s : jsstring) : list (list jsstring) :=
  matchAllFrom r 0 s.

End Regex.

(** ** Subtitle parsing (providers/ytdlp.ts) *)

Module Subtitles.
Import Js Regex.

(** U+266A, the eighth note. *)
Definition note : N := 9834.

Definition reCueTag : regex :=              (* /<\/?c[^>]*>/g *)
  seqs [Chr (ch "<"); Opt (Chr (ch "/")); Chr (ch "c"); Star (notChar (ch ">"));
        Chr (ch ">")].
Definition reTimeTag : regex :=             (* /<\d{2}:\d{2}:\d{2}\.\d{3}>/g *)
  seqs [Chr (ch "<"); times 2 (Cls isDigit); Chr (ch ":"); times 2 (Cls isDigit);
        Chr (ch ":"); times 2 (Cls isDigit); Chr (ch "."); times 3 (Cls isDigit);
        Chr (ch ">")].
Definition reAnyTag : regex :=              (* /<[^>]+>/g *)
  seqs [Chr (ch "<"); Plus (notChar (ch ">")); Chr (ch ">")].
Definition reSpaces : regex := Plus isWhiteSpace.             (* /\s+/g *)
Definition reBracketed : regex :=           (* /^\[.*\]$/ *)
  seqs [Chr (ch "["); Star dot; Chr (ch "]"); Eos].
Definition reNoted : regex :=               (* /^♪.*♪$/ *)
  seqs [Chr note; Star dot; Chr note; Eos].

Definition cleanSubtitleLine (line : jsstring) : jsstring :=
  let cleaned := line in
  (* Remove VTT positioning/styling tags *)
  let cleaned := replaceAll reCueTag [] cleaned in
  let cleaned := replaceAll reTimeTag [] cleaned in
  let cleaned := replaceAll reAnyTag [] cleaned in
  (* Remove HTML entities *)
  let cleaned := replaceAll (Lit (str "&nbsp;")) (str " ") cleaned in
  let cleaned := replaceAll (Lit (str "&amp;")) (str "&") cleaned in
  let cleaned := replaceAll (Lit (str "&lt;")) (str "<") cleaned in
  let cleaned := replaceAll (Lit (str "&gt;")) (str ">") cleaned in
  let cleaned := replaceAll (Lit (str "&quot;")) [34] cleaned in
  let cleaned := replaceAll (Lit (str "&#39;")) (str "'") cleaned in
  (* Normalize whitespace *)
  let cleaned := trim (replaceAll reSpaces (str " ") cleaned) in
  (* Skip lines that are just music notation or speaker labels *)
  if testStart reBracketed cleaned || testStart reNoted cleaned then []
  else
    (* Remove music notation markers *)
    trim (replaceAll (Chr note) [] cleaned).

(** The two accumulators of the parsers: the [lines] array and the
    [seenLines] set. *)
Record Acc := {
  lines : list jsstring;
  seenLines : gset jsstring
}.

Definition emptyAcc : Acc := {| lines := []; seenLines := ∅ |}.

(** The tail of each loop body: skip an empty line, keep a new one. *)
Definition keep (cleaned : jsstring) (acc : Acc) : Acc :=
  if negb (truthy cleaned) then acc
  else if decide (cleaned ∈ seenLines acc) then acc
  else {| lines := lines acc ++ [cleaned];
          seenLines := {[cleaned]} ∪ seenLines acc |}.

(** The accumulator is consistent when the set holds the lines kept so
    far. *)
Definition consistent (acc : Acc) : Prop :=
  ∀ x, x ∈ seenLines acc ↔ x ∈ lines acc.

Definition reBlankLines : regex := seqs [Chr 10; Plus (λ c, c =? 10)].   (* /\n\n+/ *)
Definition reDigitsOnly : regex := seqs [Plus isDigit; Eos].             (* /^\d+$/ *)
Definition reClock : regex :=                                            (* /^\d{2}:\d{2}/ *)
  seqs [times 2 (Cls isDigit); Chr (ch ":"); times 2 (Cls isDigit)].
Definition reArrow : regex := Lit (str "-->").                           (* /-->/ *)

(** Header, timestamp and metadata lines of a VTT file. *)
Definition vttSkipped (line : jsstring) : bool :=
  startsWith (str "WEBVTT") line ||
  startsWith (str "Kind:") line ||
  startsWith (str "Language:") line ||
  startsWith (str "NOTE") line ||
  testStart reDigitsOnly (trim line) ||
  testStart reClock line ||
  test reArrow line.

(** Sequence numbers and timestamps of an SRT file. *)
Definition srtSkipped (line : jsstring) : bool :=
  testStart reDigitsOnly (trim line) || test reArrow line.

(** The nested loops shared by [parseVtt] and [parseSrt]. *)
Definition parseCues (skipped : jsstring → bool) (content : jsstring) : Acc :=
  let blocks := split reBlankLines content in
  foldl (λ acc block,
           let blockLines := split (Lit nl) block in
           foldl (λ acc line,
                    if skipped line then acc
                    else keep (cleanSubtitleLine line) acc)
                 acc blockLines)
        emptyAcc blocks.

Definition parseVttLines (content : jsstring) : list jsstring :=
  lines (parseCues vttSkipped content).

Definition parseVtt (content : jsstring) : jsstring :=
  join (str " ") (parseVttLines content).

Definition parseSrtLines (content : jsstring) : list jsstring :=
  lines (parseCues srtSkipped content).

Definition parseSrt (content : jsstring) : jsstring :=
  join (str " ") (parseSrtLines content).

Definition isP (c : N) : bool := (c =? ch "p") || (c =? ch "P").

Definition reParagraph : regex :=           (* /<p[^>]*>([\s\S]*?)<\/p>/gi *)
  seqs [Chr (ch "<"); Cls isP; Star (notChar (ch ">")); Chr (ch ">");
        Group (LazyStar anyChar);
        Chr (ch "<"); Chr (ch "/"); Cls isP; Chr (ch ">")].

Definition parseTtmlLines (content : jsstring) : list jsstring :=
  let matches := matchAll reParagraph content in
  lines
    (foldl (λ acc m,
              let text := default [] (m !! 0%nat) in
              (* Remove XML tags *)
              let text := replaceAll reAnyTag (str " ") text in
              keep (cleanSubtitleLine text) acc)
           emptyAcc matches).

Definition parseTtml (content : jsstring) : jsstring :=
  join (str " ") (parseTtmlLines content).

(** Which parser [YtdlpProvider.fetch] picks for a subtitle file. *)
Inductive Format := Vtt | Srt | Ttml.

Definition parse (format : Format) (content : jsstring) : jsstring :=
  match format with
  | Vtt => parseVtt content
  | Srt => parseSrt content
  | Ttml => parseTtml content
  end.

(** The cleaned lines each parser considers, in document order, before
    the empty ones are dropped and repeats removed. *)
Definition candidates (skipped : jsstring → bool) (content : jsstring) : list jsstring :=
  map cleanSubtitleLine
    (filter (λ line, skipped line = false)
       (concat (map (split (Lit nl)) (split reBlankLines content)))).

Definition ttmlCandidates (content : jsstring) : list jsstring :=
  map (λ m, cleanSubtitleLine (replaceAll reAnyTag (str " ") (default [] (m !! 0%nat))))
    (matchAll reParagraph content).

(** Removal of repeats that keeps each line where it is first seen. *)
Fixpoint firstSeen (l : list jsstring) : list jsstring :=
  match l with
  | [] => []
  | x :: l' => x :: filter (λ y, y ≠ x) (firstSeen l')
  end.

(** The lines of the output, before they are joined, and the cleaned lines
    of the document they come from, for each format. *)
Definition parseLines (format : Format) (content : jsstring) : list jsstring :=
  match format with
  | Vtt => parseVttLines content
  | Srt => parseSrtLines content
  | Ttml => parseTtmlLines content
  end.

Definition documentLines (format : Format) (content : jsstring) : list jsstring :=
  match format with
  | Vtt => candidates vttSkipped content
  | Srt => candidates srtSkipped content
  | Ttml => ttmlCandidates content
  end.

Definition nonEmpty (s : jsstring) : Prop := truthy s = true.

End Subtitles.

(** ** Transcript extraction (normalize.ts) *)

Module Normalize.
Import Js.

(** The payload is [unknown]: what [response.json()] or [response.text()]
    gives.  An object keeps its own properties in the order of insertion;
    a property that is absent reads as [undefined]. *)
#[local] Unset Elimination Schemes.
Inductive json :=
| JNull
| JBool (b : bool)
| JNumber (n : Z)
| JString (s : jsstring)
| JArray (items : list json)
| JObject (fields : list (jsstring * json)).
#[local] Set Elimination Schemes.

(** Induction over a payload, with the hypothesis for every item of an
    array and every property value of an object. *)
Fixpoint json_ind (P : json → Prop)
    (HNull : P JNull) (HBool : ∀ b, P (JBool b)) (HNumber : ∀ n, P (JNumber n))
    (HString : ∀ s, P (JString s))
    (HArray : ∀ items, Forall P items → P (JArray items))
    (HObject : ∀ fields, Forall (λ kv, P kv.2) fields → P (JObject fields))
    (value : json) : P value :=
  match value with
  | JNull => HNull
  | JBool b => HBool b
  | JNumber n => HNumber n
  | JString s => HString s
  | JArray items =>
    HArray items
      ((fix all (l : list json) : Forall P l :=
          match l with
          | [] => Forall_nil_2 P
          | x :: l' =>
            Forall_cons_2 P x l'
              (json_ind P HNull HBool HNumber HString HArray HObject x) (all l')
          end) items)
  | JObject fields =>
    HObject fields
      ((fix all (l : list (jsstring * json)) : Forall (λ kv, P kv.2) l :=
          match l with
          | [] => Forall_nil_2 _
          | kv :: l' =>
            Forall_cons_2 (λ kv, P kv.2) kv l'
              (json_ind P HNull HBool HNumber HString HArray HObject kv.2) (all l')
          end) fields)
  end.

Record TranscriptItem := {
  id : option jsstring;
  title : option jsstring;
  text : jsstring
}.

Definition eqs (a b : jsstring) : bool := bool_decide (a = b).

(** [obj[key]]; [None] is [undefined]. *)
Fixpoint get (fields : list (jsstring * json)) (key : jsstring) : option json :=
  match fields with
  | [] => None
  | (k, v) :: fields' => if eqs k key then Some v else get fields' key
  end.

(** [value == null] *)
Definition nullish (value : option json) : bool :=
  match value with
  | None | Some JNull => true
  | Some _ => false
  end.

(** [a ?? b] *)
Definition coalesce (a b : option json) : option json :=
  if nullish a then b else a.

(** [typeof item === "string"] and the string itself. *)
Definition asString (value : json) : option jsstring :=
  match value with
  | JString s => Some s
  | _ => None
  end.

Definition isString (value : json) : bool :=
  match value with
  | JString _ => true
  | _ => false
  end.

(** [typeof item === "object" && item !== null && "text" in item]: an array
    is an object too, and has no property of that name. *)
Definition hasText (item : json) : bool :=
  match item with
  | JObject fields => match get fields (str "text") with Some _ => true | None => false end
  | _ => false
  end.

(** [(item as Record<string, unknown>).text] for an item that [hasText]. *)
Definition textOf (item : json) : option json :=
  match item with
  | JObject fields => get fields (str "text")
  | _ => None
  end.

(** [strings.map(s => s.trim()).filter(Boolean).join(" ")] *)
Definition joinTrimmed (strings : list jsstring) : jsstring :=
  join (str " ") (filter (λ s, truthy s = true) (map trim strings)).

(** [Boolean(x)] for [x : string | null]. *)
Definition truthyOpt (x : option jsstring) : bool :=
  match x with
  | Some s => truthy s
  | None => false
  end.

(** The first key of [keys] whose value in the object is not nullish: the
    operand that [obj.k1 ?? obj.k2 ?? ...] evaluates to, when there is one. *)
Definition firstPresent (fields : list (jsstring * json)) (keys : list jsstring)
  : option jsstring :=
  find (λ key, negb (nullish (get fields key))) keys.

(** The first truthy result of a [for] loop that returns on one. *)
Fixpoint firstTruthy {K} (f : K → option jsstring) (keys : list K) : option jsstring :=
  match keys with
  | [] => None
  | key :: keys' => if truthyOpt (f key) then f key else firstTruthy f keys'
  end.

Definition directKeys : list jsstring :=
  [str "text"; str "transcript"; str "caption"; str "content"].
Definition fallbackKeys : list jsstring :=
  [str "segments"; str "captions"; str "items"; str "data"; str "results";
   str "transcripts"].

(** [x || null] and [x || undefined] for [x : string | null]; on a list,
    [omap orUndefined] is [filter(Boolean)]. *)
Definition orUndefined (x : option jsstring) : option jsstring :=
  match x with
  | Some s => orNull s
  | None => None
  end.

(** [f(obj[key])] for an [f] that gives [null] on [undefined]. *)
Fixpoint applyAt (f : json → option jsstring) (fields : list (jsstring * json))
    (key : jsstring) : option jsstring :=
  match fields with
  | [] => None
  | (k, v) :: fields' => if eqs k key then f v else applyAt f fields' key
  end.

(** The recursion follows the value: over the items of an array, and over
    the properties of an object. *)
Fixpoint extractTextFromUnknown (value : json) : option jsstring :=
  match value with
  | JNull => None
  | JString s => orNull (trim s)
  | JArray items =>
    if (length items =? 0)%nat then None
    else if forallb isString items then
      orNull (joinTrimmed (omap asString items))
    else if forallb hasText items then
      orNull (joinTrimmed (omap asString (omap textOf items)))
    else
      let fromEntries :=
        omap (λ item, orUndefined (extractTextFromUnknown item)) items in
      if (0 <? length fromEntries)%nat then Some (join (str " ") fromEntries) else None
  | JObject obj =>
    let direct :=
      match firstPresent obj directKeys with
      | Some key => applyAt extractTextFromUnknown obj key
      | None => None
      end in
    if truthyOpt direct then direct
    else firstTruthy (applyAt extractTextFromUnknown obj) fallbackKeys
  | JBool _ | JNumber _ => None
  end.

(** [extractTextFromUnknown] of a value that may be [undefined]. *)
Definition extractTextFromValue (value : option json) : option jsstring :=
  match value with
  | Some v => extractTextFromUnknown v
  | None => None
  end.

Fixpoint firstString (fields : list (jsstring * json)) (keys : list jsstring)
  : option jsstring :=
  match keys with
  | [] => None
  | key :: keys' =>
    match get fields key with
    | Some (JString value) =>
      if truthy (trim value) then Some (trim value) else firstString fields keys'
    | _ => firstString fields keys'
    end
  end.

(** [text ? [{ ..., text }] : []] *)
Definition itemIf (id title : option jsstring) (text : option jsstring)
  : list TranscriptItem :=
  match text with
  | Some t => if truthy t then [{| id := id; title := title; text := t |}] else []
  | None => []
  end.

Definition itemFromEntry (entry : json) : list TranscriptItem :=
  match entry with
  | JNull => []
  | JString s => itemIf None None (orNull (trim s))
  | JArray _ => itemIf None None (extractTextFromUnknown entry)
  | JObject obj =>
    let title := firstString obj [str "title"; str "video_title"; str "name"] in
    let id := firstString obj [str "id"; str "video_id"; str "videoId"] in
    let text :=
      extractTextFromValue
        (coalesce (get obj (str "transcript"))
        (coalesce (get obj (str "text"))
        (coalesce (get obj (str "segments"))
        (coalesce (get obj (str "captions"))
        (coalesce (get obj (str "items"))
                  (get obj (str "data"))))))) in
    itemIf (orUndefined id) (orUndefined title) text
  | JBool _ | JNumber _ => []
  end.

(** [value.flatMap((entry) => itemFromEntry(entry))] *)
Definition flatMapEntries (value : list json) : list TranscriptItem :=
  concat (map itemFromEntry value).

Definition collectionKeys : list jsstring :=
  [str "transcripts"; str "results"; str "data"; str "items"].

(** The loop over [collectionKeys]: the items of the first key that holds an
    array with at least one item to give. *)
Fixpoint fromCollections (obj : list (jsstring * json)) (keys : list jsstring)
  : option (list TranscriptItem) :=
  match keys with
  | [] => None
  | key :: keys' =>
    match get obj key with
    | Some (JArray value) =>
      let items := flatMapEntries value in
      if (0 <? length items)%nat then Some items else fromCollections obj keys'
    | _ => fromCollections obj keys'
    end
  end.

(** The payload may be [undefined] as well: [None]. *)
Definition extractTranscriptItems (payload : option json) : list TranscriptItem :=
  match payload with
  | None | Some JNull => []
  | Some (JString s) => itemIf None None (orNull (trim s))
  | Some (JArray items) =>
    let fromEntries := flatMapEntries items in
    if (0 <? length fromEntries)%nat then fromEntries
    else itemIf None None (extractTextFromUnknown (JArray items))
  | Some (JObject obj) =>
    match fromCollections obj collectionKeys with
    | Some items => items
    | None => itemIf None None (extractTextFromUnknown (JObject obj))
    end
  | Some (JBool _) | Some (JNumber _) => []
  end.

(** A record whose text, id and title (when it has them) start and end
    with a character that is not white space. *)
Definition wellFormed (item : TranscriptItem) : Prop :=
  tight (text item) ∧
  (∀ s, id item = Some s → tight s) ∧
  (∀ s, title item = Some s → tight s).

End Normalize.

(** ** The rest of tools.ts *)

Module ToolsExt.
Import Js Tools.

Definition getYtdlpPath (h : Host) : option jsstring :=
  commandExists h (str "yt-dlp").

Definition hasWhisper (h : Host) : bool :=
  match detectWhisper h with
  | Some _ => true
  | None => false
  end.

(** The [path] of a backend that has one. *)
Definition backendPath (b : WhisperBackend) : option jsstring :=
  match b with
  | WhisperCpp path | Whisper path | MlxWhisper path => Some path
  | OpenaiApi => None
  end.

(** An environment variable or option that is unset, or blank once
    trimmed. *)
Definition blank (v : option jsstring) : Prop :=
  match v with
  | Some s => trim s = []
  | None => True
  end.

End ToolsExt.

(** ** The API client (api.ts) and the API provider (providers/api.ts) *)

Module Api.
Import Js Providers Normalize.

(** The request [fetchTranscripts] sends: a POST of [{ ids }] as JSON. *)
Record Request := {
  req_url : jsstring;
  req_authorization : jsstring;
  req_ids : list jsstring
}.

(** What the code reads of a response: [ok], [status], [statusText], the
    content-type header, and what [json()] and [text()] settle to. *)
Record Response := {
  resp_ok : bool;
  resp_status : nat;
  resp_statusText : jsstring;
  resp_contentType : option jsstring;
  resp_json : Settled json;
  resp_text : Settled jsstring
}.

(** The platform under the client: the global [fetch], acting on the
    world, and [JSON.stringify]. *)
Record Platform (World : Type) := {
  httpFetch : Request → World → Settled Response * World;
  stringify : json → jsstring
}.
Arguments httpFetch {World} _ _ _.
Arguments stringify {World} _ _.

Definition msgMissingToken : jsstring :=
  str "Missing API token. Set YOUTUBE_TRANSCRIPT_API_TOKEN or use --token.".

Definition msgRequestFailed (response : Response) (detail : jsstring) : jsstring :=
  str "API request failed (" ++ ofNat (resp_status response) ++ str " " ++
  resp_statusText response ++ str "): " ++ detail.

Section Client.
Context {World : Type} (net : Platform World).

Definition requestFor (ids : list jsstring) (token apiUrl : jsstring) : Request :=
  {| req_url := apiUrl;
     req_authorization := str "Basic " ++ token;
     req_ids := ids |}.

Definition fetchTranscripts (ids : list jsstring) (token apiUrl : jsstring) (w : World)
  : Settled json * World :=
  if negb (truthy token) then (Rejected (ErrorObj msgMissingToken), w)
  else
    let (fetched, w1) := httpFetch net (requestFor ids token apiUrl) w in
    match fetched with
    | Rejected error => (Rejected error, w1)
    | Fulfilled response =>
      let contentType := orElse (resp_contentType response) [] in
      let isJson := includes (str "application/json") contentType in
      let finish (payload : json) (detail : jsstring) : Settled json * World :=
        if negb (resp_ok response)
        then (Rejected (ErrorObj (msgRequestFailed response detail)), w1)
        else (Fulfilled payload, w1) in
      if isJson then
        match resp_json response with
        | Rejected error => (Rejected error, w1)
        | Fulfilled payload => finish payload (stringify net payload)
        end
      else
        match resp_text response with
        | Rejected error => (Rejected error, w1)
        | Fulfilled payload => finish (JString payload) payload
        end
    end.

(** [ApiProvider.available] *)
Definition apiAvailable (token : jsstring) : bool := truthy token.

(** [ApiProvider.fetch] *)
Definition apiFetch (token apiUrl : jsstring) (videoId : jsstring) (w : World)
  : Settled (option TranscriptResult) * World :=
  let (fetched, w1) := fetchTranscripts [videoId] token apiUrl w in
  match fetched with
  | Rejected error => (Rejected error, w1)
  | Fulfilled response =>
    let items := extractTranscriptItems (Some response) in
    match items with
    | [] => (Fulfilled None, w1)
    | item :: _ =>
      if negb (truthy (Normalize.text item)) then (Fulfilled None, w1)
      else
        (Fulfilled (Some {| Providers.text := Normalize.text item;
                            Providers.title := Normalize.title item;
                            language := None;
                            source := SourceApi |}), w1)
    end
  end.

(** An [ApiProvider] object, as the executor sees it. *)
Definition apiProvider (token apiUrl : jsstring) : TranscriptProvider World :=
  {| name := str "api";
     available := λ w, (Fulfilled (apiAvailable token), w);
     fetch := apiFetch token apiUrl |}.

End Client.

End Api.

(** ** The availability checks of the provider classes *)

Module ProviderClasses.
Import Js Tools Providers.


End ProviderClasses.

(** ** Sample hosts, providers and documents *)

Module Samples.
Import Js Tools Providers Normalize.

Definition noEnv : ProcessEnv :=
  {| OPENAI_API_KEY := None; YOUTUBE_TRANSCRIPT_API_TOKEN := None;
     YOUTUBE_TRANSCRIPT_API_URL := None |}.

(** A host with nothing installed and nothing configured. *)
Definition bareHost : Host :=
  {| which := λ _, None; helpOutput := λ _, None; env := noEnv |}.

(** A host with yt-dlp and a [whisper] whose help output cannot be read. *)
Definition pythonHost : Host :=
  {| which := λ cmd,
       if bool_decide (cmd = str "yt-dlp") then Some (str "/usr/bin/yt-dlp" ++ nl)
       else if bool_decide (cmd = str "whisper") then Some (str "/usr/bin/whisper" ++ nl)
       else None;
     helpOutput := λ _, None;
     env := noEnv |}.

(** A host with an API token only. *)
Definition tokenHost : Host :=
  {| which := λ _, None; helpOutput := λ _, None;
     env := {| OPENAI_API_KEY := None;
               YOUTUBE_TRANSCRIPT_API_TOKEN := Some (str "secret");
               YOUTUBE_TRANSCRIPT_API_URL := None |} |}.

Definition optionsFor (choice : option ProviderChoice) : ProviderOptions :=
  {| opt_token := None; opt_apiUrl := None; opt_provider := choice;
     opt_whisperModel := None; opt_lang := None; opt_noFallback := None |}.

Definition videoId : jsstring := str "dQw4w9WgXcQ".

Definition helloResult : TranscriptResult :=
  {| Providers.text := str "hello"; Providers.title := None; language := None;
     source := SourceWhisper |}.

(** Providers over a world that counts the calls made on it. *)
Definition absentProvider (name : jsstring) : TranscriptProvider nat :=
  {| name := name;
     available := λ w, (Fulfilled true, S w);
     fetch := λ _ w, (Fulfilled None, S w) |}.

Definition failingProvider (name : jsstring) : TranscriptProvider nat :=
  {| name := name;
     available := λ w, (Fulfilled true, S w);
     fetch := λ _ w, (Rejected (ErrorObj (str "HTTP 500")), S w) |}.

Definition missingProvider (name : jsstring) : TranscriptProvider nat :=
  {| name := name;
     available := λ w, (Fulfilled false, S w);
     fetch := λ _ w, (Fulfilled (Some helloResult), S w) |}.

Definition workingProvider (name : jsstring) : TranscriptProvider nat :=
  {| name := name;
     available := λ w, (Fulfilled true, S w);
     fetch := λ _ w, (Fulfilled (Some helloResult), S w) |}.

(** An auto-generated caption file: the same rolling line in five
    consecutive cues. *)
Definition rollingCue (timing : string) : jsstring :=
  str timing ++ nl ++ str "never gonna <c>give</c> you up" ++ nl ++ nl.

Definition rollingVtt : jsstring :=
  str "WEBVTT" ++ nl ++ str "Kind: captions" ++ nl ++ str "Language: en" ++ nl ++ nl ++
  rollingCue "00:00:01.000 --> 00:00:02.000" ++
  rollingCue "00:00:02.000 --> 00:00:03.000" ++
  rollingCue "00:00:03.000 --> 00:00:04.000" ++
  rollingCue "00:00:04.000 --> 00:00:05.000" ++
  rollingCue "00:00:05.000 --> 00:00:06.000".

(** [{"data": [{"text": "hello"}, {"text": "world"}]}] *)
Definition helloWorld : json :=
  JObject [(str "data",
            JArray [JObject [(str "text", JString (str "hello"))];
                    JObject [(str "text", JString (str "world"))]])].

Definition textOnly (t : jsstring) : TranscriptItem :=
  {| Normalize.id := None; Normalize.title := None; Normalize.text := t |}.

End Samples.

(** ** More vocabulary for the fallback executor *)

Module ExecutorExt.
Import Js Providers.

(** The calls one provider receives when the loop reaches it: the
    availability check, then the fetch if the loop gets that far. *)
Definition callsOn (videoId : jsstring) (providerName : jsstring) (fetched : bool)
  : list Call :=
  CallAvailable providerName ::
  (if fetched then [CallFetch providerName videoId] else []).


Definition isFetch (c : Call) : bool :=
  match c with
  | CallFetch _ _ => true
  | CallAvailable _ => false
  end.

End ExecutorExt.

(** ** Video ids (lib/youtube.ts) *)

Module Youtube.
Import Js Regex.

(** [[a-zA-Z0-9_-]] *)
Definition isIdChar (c : N) : bool :=
  ((ch "a" <=? c) && (c <=? ch "z")) || ((ch "A" <=? c) && (c <=? ch "Z")) ||
  ((ch "0" <=? c) && (c <=? ch "9")) || (c =? ch "_") || (c =? ch "-").

Definition reVideoId : regex :=             (* /^[a-zA-Z0-9_-]{11}$/ *)
  seqs [times 11 (Cls isIdChar); Eos].

Definition validId (s : jsstring) : bool := testStart reVideoId s.

(** What the code reads of a parsed [URL]. *)
Record Url := {
  hostname : jsstring;
  pathname : jsstring;
  searchParams : jsstring → option jsstring      (* searchParams.get(name) *)
}.

(** [s.endsWith(suffix)] *)
Definition endsWith (suffix s : jsstring) : bool :=
  startsWith (reverse suffix) (reverse s).

(** [s.replace(/^www\./, "")] *)
Definition stripWww (s : jsstring) : jsstring :=
  match exec (Lit (str "www.")) s with
  | Some (rest, _) => rest
  | None => s
  end.

(** [path.split("/").filter(Boolean)] *)
Definition segments (path : jsstring) : list jsstring :=
  filter (λ part, truthy part = true) (split (Lit (str "/")) path).

(** [parts.findIndex(test)]; [None] is [-1]. *)
Fixpoint findIndex {A} (test : A → bool) (parts : list A) : option nat :=
  match parts with
  | [] => None
  | part :: rest => if test part then Some 0%nat else S <$> findIndex test rest
  end.

Definition isMarker (part : jsstring) : bool :=
  bool_decide (part ∈ [str "embed"; str "shorts"; str "live"]).

(** [x && valid(x) ? x : null] for [x : string | undefined | null] *)
Definition ifValid (x : option jsstring) : option jsstring :=
  match x with
  | Some s => if truthy s && validId s then Some s else None
  | None => None
  end.

Section ExtractVideoId.
(** [new URL(input)]: [None] when the constructor throws. *)
Context (parseUrl : jsstring → option Url).

Definition extractVideoId (input : jsstring) : option jsstring :=
  let trimmed := trim input in
  if negb (truthy trimmed) then None
  else if validId trimmed then Some trimmed
  else
    match parseUrl trimmed with
    | None => None
    | Some url =>
      let host := stripWww (hostname url) in
      let path := pathname url in
      if bool_decide (host = str "youtu.be") then
        ifValid (head (segments path))
      else
        let fromPath :=
          let parts := segments path in
          match findIndex isMarker parts with
          | Some index => ifValid (parts !! S index)
          | None => None
          end in
        if endsWith (str "youtube.com") host then
          match ifValid (searchParams url (str "v")) with
          | Some vParam => Some vParam
          | None => fromPath
          end
        else None
    end.

End ExtractVideoId.

End Youtube.

(** ** The article formatter (lib/article.ts) *)

Module Article.
Import Js Regex.

(** [s.replace(/r/g, f)] where the replacement is made of the captures, as
    with ["$1"]. *)
Fixpoint replaceWithFrom (r : regex) (rep : list jsstring → jsstring) (skip : nat)
    (s : jsstring) : jsstring :=
  match s with
  | [] =>
    match exec r [] with
    | Some (_, caps) => rep caps
    | None => []
    end
  | c :: s' =>
    match skip with
    | S n => replaceWithFrom r rep n s'
    | O =>
      match exec r s with
      | Some (rest, caps) =>
        match matched s rest with
        | O => rep caps ++ c :: replaceWithFrom r rep 0 s'
        | S n => rep caps ++ replaceWithFrom r rep n s'
        end
      | None => c :: replaceWithFrom r rep 0 s'
      end
    end
  end.

(** The replacement ["$1"]. *)
Definition group1 (caps : list jsstring) : jsstring := default [] (caps !! 0%nat).

(** [s.split(/(?<=[class])r/)]: a match of [r] separates only where the
    character before it is of the class; [prev] is that character. *)
Fixpoint splitBehindFrom (behind : N → bool) (r : regex) (prev : option N) (skip : nat)
    (cur : jsstring) (s : jsstring) : list jsstring :=
  match s with
  | [] => [reverse cur]
  | c :: s' =>
    match skip with
    | S n => splitBehindFrom behind r (Some c) n cur s'
    | O =>
      let lookbehind :=
        match prev with
        | Some b => behind b
        | None => false
        end in
      match (if lookbehind then exec r s else None) with
      | Some (rest, _) =>
        match matched s rest with
        | O => splitBehindFrom behind r (Some c) 0 (c :: cur) s'
        | S n => reverse cur :: splitBehindFrom behind r (Some c) n [] s'
        end
      | None => splitBehindFrom behind r (Some c) 0 (c :: cur) s'
      end
    end
  end.

Definition reSpaces : regex := Plus isWhiteSpace.                 (* /\s+/ *)

Definition isPunct (c : N) : bool :=                              (* [,.!?;:] *)
  (c =? ch ",") || (c =? ch ".") || (c =? ch "!") || (c =? ch "?") ||
  (c =? ch ";") || (c =? ch ":").

Definition reSpacePunct : regex :=                                (* /\s+([,.!?;:])/g *)
  seqs [Plus isWhiteSpace; Group (Cls isPunct)].

Definition isEnd (c : N) : bool :=                                (* [.!?] *)
  (c =? ch ".") || (c =? ch "!") || (c =? ch "?").

Definition normalizeText (input : jsstring) : jsstring :=
  trim (replaceWithFrom reSpacePunct group1 0
          (replaceAll reSpaces (str " ") input)).

Definition splitSentences (text : jsstring) : list jsstring :=
  let parts := map trim (splitBehindFrom isEnd reSpaces None 0 [] text) in
  filter (λ s, truthy s = true) parts.

(** [targetWords] is a number, only ever compared with a count:
    [count >= targetWords] holds from some count on ([AtLeast k], with [k]
    the number rounded up, [0] for a negative one), or for no count
    ([Never]: NaN and Infinity). *)
Inductive Target :=
| AtLeast (k : nat)
| Never.

Definition reached (count : nat) (targetWords : Target) : bool :=
  match targetWords with
  | AtLeast k => (k <=? count)%nat
  | Never => false
  end.

(** The state of the loop of [wrapByWords]. *)
Record Wrap := {
  wrapped : list jsstring;      (* paragraphs *)
  pending : list jsstring       (* current *)
}.

Definition wrapByWords (words : list jsstring) (targetWords : Target) : list jsstring :=
  let final :=
    foldl (λ st word,
             let current := pending st ++ [word] in
             if reached (length current) targetWords
             then {| wrapped := wrapped st ++ [join (str " ") current]; pending := [] |}
             else {| wrapped := wrapped st; pending := current |})
          {| wrapped := []; pending := [] |} words in
  if (0 <? length (pending final))%nat
  then wrapped final ++ [join (str " ") (pending final)]
  else wrapped final.

(** [sentence.split(/\s+/).filter(Boolean)] *)
Definition wordsOf (sentence : jsstring) : list jsstring :=
  filter (λ s, truthy s = true) (split reSpaces sentence).

(** The state of the loop of [toParagraphs]. *)
Record Flow := {
  paragraphs : list jsstring;
  current : list jsstring;
  wordCount : nat
}.

Definition addSentence (targetWords : Target) (st : Flow) (sentence : jsstring) : Flow :=
  let words := wordsOf sentence in
  if (length words =? 0)%nat then st
  else
    let st :=
      if reached (wordCount st) targetWords && (0 <? length (current st))%nat
      then {| paragraphs := paragraphs st ++ [join (str " ") (current st)];
              current := []; wordCount := 0 |}
      else st in
    {| paragraphs := paragraphs st;
       current := current st ++ [sentence];
       wordCount := wordCount st + length words |}.

Definition toParagraphs (text : jsstring) (targetWords : Target) : list jsstring :=
  if negb (truthy text) then []
  else
    let sentences := splitSentences text in
    if (length sentences =? 0)%nat
    then wrapByWords (split reSpaces text) targetWords
    else
      let final :=
        foldl (addSentence targetWords)
              {| paragraphs := []; current := []; wordCount := 0 |} sentences in
      if (0 <? length (current final))%nat
      then paragraphs final ++ [join (str " ") (current final)]
      else paragraphs final.

Record ArticleOptions := {
  opt_title : option jsstring;
  opt_sourceUrl : option jsstring;
  opt_paragraphWords : option Target
}.

Definition buildArticle (text : jsstring) (options : ArticleOptions) : jsstring :=
  let cleaned := normalizeText text in
  let title := orElse (trim <$> opt_title options) (str "Transcript") in
  let paragraphs :=
    toParagraphs cleaned (default (AtLeast 90) (opt_paragraphWords options)) in
  let lines := [str "# " ++ title] in
  let lines :=
    match opt_sourceUrl options with
    | Some sourceUrl =>
      if truthy sourceUrl then lines ++ [[]; str "Source: " ++ sourceUrl] else lines
    | None => lines
    end in
  let lines := lines ++ [[]] ++ paragraphs in
  trim (join nl lines) ++ nl.

End Article.

(** ** Vocabulary for the statements about the article formatter *)

Module ArticleExt.
Import Js Regex Article.

(** A paragraph of [wrapByWords] that was closed by the loop has exactly
    the target number of words (one word when the target is below one);
    the words still pending are fewer. *)
Definition fullWrap (targetWords : Target) (group : list jsstring) : Prop :=
  match targetWords with
  | AtLeast k => length group = Nat.max 1 k
  | Never => False
  end.

Definition roomLeft (targetWords : Target) (group : list jsstring) : Prop :=
  match targetWords with
  | AtLeast k => (length group < Nat.max 1 k)%nat
  | Never => True
  end.

(** The body of the loop of [wrapByWords]. *)
Definition wrapStep (targetWords : Target) (st : Wrap) (word : jsstring) : Wrap :=
  let current := pending st ++ [word] in
  if reached (length current) targetWords
  then {| wrapped := wrapped st ++ [join (str " ") current]; pending := [] |}
  else {| wrapped := wrapped st; pending := current |}.

(** The last, open paragraph, if it holds anything. *)
Definition lastGroup (group : list jsstring) : list (list jsstring) :=
  match group with
  | [] => []
  | _ :: _ => [group]
  end.

(** The number of words of a group of sentences. *)
Definition countWords (group : list jsstring) : nat :=
  sum_list (map (λ sentence, length (wordsOf sentence)) group).

(** A group of sentences reaches the target only with its last sentence. *)
Definition minimal (targetWords : Target) (group : list jsstring) : Prop :=
  removelast group = [] ∨ reached (countWords (removelast group)) targetWords = false.

(** A paragraph of [toParagraphs] that was closed by the loop. *)
Definition closedGroup (targetWords : Target) (group : list jsstring) : Prop :=
  group ≠ [] ∧ reached (countWords group) targetWords = true ∧ minimal targetWords group.

(** Every character and the one after it are in the relation [ok]. *)
Fixpoint adjacent (ok : N → N → bool) (s : jsstring) : bool :=
  match s with
  | [] => true
  | a :: rest =>
    match rest with
    | [] => true
    | b :: _ => ok a b
    end && adjacent ok rest
  end.

(** No white space is followed by white space. *)
Definition singleSpaced (s : jsstring) : bool :=
  adjacent (λ a b, negb (isWhiteSpace a && isWhiteSpace b)) s.

(** No white space is followed by white space or by a punctuation mark. *)
Definition tidy (s : jsstring) : bool :=
  adjacent (λ a b, negb (isWhiteSpace a && (isWhiteSpace b || isPunct b))) s.

(** A character that is not white space. *)
Definition solid (c : N) : Prop := isWhiteSpace c = false.

(** The first line of the article: [`# ${title}`], the title being
    [options.title?.trim() || "Transcript"]. *)
Definition heading (options : ArticleOptions) : jsstring :=
  str "# " ++ orElse (trim <$> opt_title options) (str "Transcript").

End ArticleExt.

(** ** More vocabulary for the subtitle parsers *)

Module SubtitlesExt.
Import Js Regex Subtitles.

(** The only white space in the string is the plain space: no tab, no line
    terminator, no no-break space. *)
Definition plainSpaced (s : jsstring) : Prop :=
  ∀ c, c ∈ s → isWhiteSpace c = true → c = 32.

End SubtitlesExt.

(** ** More samples *)

Module MoreSamples.
Import Js Tools Providers Normalize Api Article Samples.

(** A server that answers every request with the same response; the world
    counts the requests made. *)
Definition serverWith (response : Response) : Platform nat :=
  {| httpFetch := λ _ w, (Fulfilled response, S w);
     stringify := λ _, str "{}" |}.

Definition okJson (payload : json) : Response :=
  {| resp_ok := true; resp_status := 200; resp_statusText := str "OK";
     resp_contentType := Some (str "application/json; charset=utf-8");
     resp_json := Fulfilled payload;
     resp_text := Rejected (ErrorObj (str "body already read")) |}.

(** A host with yt-dlp, whisper.cpp under its own name, and a token. *)
Definition fullHost : Host :=
  {| which := λ cmd,
       if bool_decide (cmd = str "yt-dlp") then Some (str "/usr/bin/yt-dlp" ++ nl)
       else if bool_decide (cmd = str "whisper-cpp")
            then Some (str "/opt/homebrew/bin/whisper-cpp" ++ nl)
       else None;
     helpOutput := λ _, None;
     env := {| OPENAI_API_KEY := None;
               YOUTUBE_TRANSCRIPT_API_TOKEN := Some (str " secret ");
               YOUTUBE_TRANSCRIPT_API_URL := None |} |}.

(** A short transcript of three sentences. *)
Definition threeSentences : jsstring := str "One two three. Four five! Six?".

Definition noOptions : ArticleOptions :=
  {| opt_title := None; opt_sourceUrl := None; opt_paragraphWords := None |}.

End MoreSamples.

(** ** Caption files written block by block *)

Module Captions.
Import Js Regex Subtitles.

(** A block of a caption file: its lines, one line feed between them, and
    the blank line that ends the block. *)
Definition block (ls : list jsstring) : jsstring := join nl ls ++ nl ++ nl.








End Captions.

(** ** resolveProviders as the command line calls it *)

Module RunTime.
Import Js Tools Providers.

(** [ProviderOptions] as index.ts fills it: [provider] is the value of
    [--provider], handed over unchecked, so that at run time it is any
    string, whatever its declared type. *)
Record ProviderOptions := {
  opt_token : option jsstring;
  opt_apiUrl : option jsstring;
  opt_provider : option jsstring;
  opt_whisperModel : option jsstring;
  opt_lang : option jsstring;
  opt_noFallback : option bool
}.

Definition resolveProviders (h : Host) (options : ProviderOptions)
  : Settled ResolvedProviders :=
  let token := resolveApiToken (env h) (opt_token options) in
  let apiUrl := resolveApiUrl (env h) (opt_apiUrl options) in
  let ytdlpAvailable := hasYtdlp h in
  let whisperBackend := detectWhisper h in
  (* switch (options.provider): no case for another name, and no default *)
  let forced (name : jsstring) : Settled ResolvedProviders :=
    if bool_decide (name = str "api") then
      if negb (truthy token) then Rejected (ErrorObj msgApiNeedsToken)
      else Fulfilled {| providers := [ApiProvider token apiUrl]; warnings := [] |}
    else if bool_decide (name = str "ytdlp") then
      if negb ytdlpAvailable then Rejected (ErrorObj msgYtdlpMissing)
      else Fulfilled {| providers := [YtdlpProvider (opt_lang options)]; warnings := [] |}
    else if bool_decide (name = str "whisper") then
      if negb ytdlpAvailable then Rejected (ErrorObj msgWhisperNeedsYtdlp)
      else match whisperBackend with
           | None => Rejected (ErrorObj msgWhisperNoBackend)
           | Some backend =>
             Fulfilled {| providers :=
                            [newWhisperProvider backend (opt_whisperModel options)
                               (opt_lang options)];
                          warnings := [] |}
           end
    else Fulfilled {| providers := []; warnings := [] |} in
  let auto : Settled ResolvedProviders :=
    let providers1 := if truthy token then [ApiProvider token apiUrl] else [] in
    let providers2 :=
      if ytdlpAvailable then
        (providers1 ++ [YtdlpProvider (opt_lang options)]) ++
        match whisperBackend with
        | Some backend =>
          [newWhisperProvider backend (opt_whisperModel options) (opt_lang options)]
        | None => []
        end
      else providers1 in
    if (length providers2 =? 0)%nat then Rejected (ErrorObj msgNoProvider)
    else
      let warnings1 := if negb (truthy token) then [warnNoToken] else [] in
      let warnings2 :=
        if negb ytdlpAvailable && truthy token then warnings1 ++ [warnNoYtdlp]
        else warnings1 in
      let warnings3 :=
        if ytdlpAvailable && negb (isSome whisperBackend)
        then warnings2 ++ [warnNoWhisper] else warnings2 in
      Fulfilled {| providers := providers2; warnings := warnings3 |} in
  match opt_provider options with
  | Some name =>
    if truthy name && negb (bool_decide (name = str "auto")) then forced name
    else auto
  | None => auto
  end.

(** Options whose provider name is of the declared type. *)
Definition typed (options : Providers.ProviderOptions) : ProviderOptions :=
  {| opt_token := Providers.opt_token options;
     opt_apiUrl := Providers.opt_apiUrl options;
     opt_provider := choiceName <$> Providers.opt_provider options;
     opt_whisperModel := Providers.opt_whisperModel options;
     opt_lang := Providers.opt_lang options;
     opt_noFallback := Providers.opt_noFallback options |}.


End RunTime.

(** * Properties *)

(** A decidable statement about constants, settled by evaluation. *)
Ltac by_evaluation :=
  match goal with
  | |- ¬ _ => apply (bool_decide_eq_false_1 _); vm_compute; reflexivity
  | |- _ => apply (bool_decide_unpack _); vm_compute; exact I
  end.

(** ** Trimming *)

Module JsFacts.
Import Js.

Lemma trimStart_head (s : jsstring) :
  trimStart s = [] ∨ headSolid (trimStart s) = true.
Proof.
  induction s as [|c s IH]; simpl; [left; reflexivity|].
  destruct (isWhiteSpace c) eqn:Hc; [exact IH|].
  right. simpl. rewrite Hc. reflexivity.
Qed.

Lemma trimStart_solid (s : jsstring) : headSolid s = true → trimStart s = s.
Proof.
  destruct s as [|c s]; simpl; [discriminate|].
  intros Hc. apply negb_true_iff in Hc. rewrite Hc. reflexivity.
Qed.

Lemma trimStart_suffix (s : jsstring) : ∃ pre, s = pre ++ trimStart s.
Proof.
  induction s as [|c s [pre IH]]; simpl; [exists []; reflexivity|].
  destruct (isWhiteSpace c).
  - exists (c :: pre). simpl. f_equal. exact IH.
  - exists []. reflexivity.
Qed.

Lemma headSolid_app (a b : jsstring) : a ≠ [] → headSolid (a ++ b) = headSolid a.
Proof. destruct a; [congruence|reflexivity]. Qed.

Lemma headSolid_nonempty (s : jsstring) : headSolid s = true → s ≠ [].
Proof. destruct s; [discriminate|congruence]. Qed.

Lemma tight_nonempty (s : jsstring) : tight s → s ≠ [].
Proof. intros [Hs _]. apply headSolid_nonempty, Hs. Qed.

Lemma tight_trim (s : jsstring) : tight s → trim s = s.
Proof.
  intros [Hhead Hlast]. unfold trim, trimEnd.
  rewrite (trimStart_solid s Hhead), (trimStart_solid _ Hlast).
  apply reverse_involutive.
Qed.

Lemma trim_tight (s : jsstring) : truthy (trim s) = true → tight (trim s).
Proof.
  unfold trim, trimEnd.
  destruct (trimStart_suffix (reverse (trimStart s))) as [pre Hpre].
  destruct (trimStart_head (reverse (trimStart s))) as [Hu|Hu].
  { rewrite Hu. discriminate. }
  intros _. split; [|rewrite reverse_involutive; exact Hu].
  assert (Hne : reverse (trimStart (reverse (trimStart s))) ≠ []).
  { intros Hnil. apply (f_equal reverse) in Hnil.
    rewrite reverse_involutive in Hnil. rewrite Hnil in Hu. discriminate. }
  apply (f_equal reverse) in Hpre.
  rewrite reverse_involutive, reverse_app in Hpre.
  destruct (trimStart_head s) as [Ht|Ht].
  - rewrite Ht in Hne. contradiction Hne. reflexivity.
  - rewrite Hpre in Ht at 1. rewrite headSolid_app in Ht by exact Hne. exact Ht.
Qed.

Lemma tight_app (a sep b : jsstring) : tight a → tight b → tight (a ++ sep ++ b).
Proof.
  intros [Ha _] [_ Hb]. split.
  - rewrite headSolid_app by (apply headSolid_nonempty, Ha). exact Ha.
  - rewrite !reverse_app, <- app_assoc.
    rewrite headSolid_app by (apply headSolid_nonempty, Hb). exact Hb.
Qed.

Lemma tight_join (sep : jsstring) (parts : list jsstring) :
  parts ≠ [] → Forall tight parts → tight (join sep parts).
Proof.
  induction parts as [|a parts IH]; intros Hne Hall; [congruence|].
  apply Forall_cons in Hall as [Ha Hall].
  destruct parts as [|b parts]; [exact Ha|].
  change (join sep (a :: b :: parts)) with (a ++ sep ++ join sep (b :: parts)).
  apply tight_app; [exact Ha|]. apply IH; [discriminate|exact Hall].
Qed.

Lemma orNull_some (s t : jsstring) : orNull s = Some t → t = s ∧ truthy s = true.
Proof.
  unfold orNull. destruct (truthy s); [|discriminate].
  intros [= <-]. split; reflexivity.
Qed.

End JsFacts.

(** ** Tool detection *)

Module ToolsFacts.
Import Js Tools Samples.

(** C6.  [detectWhisper] gives the first available backend in the order
    compiled whisper.cpp binary, Python-style CLI, mlx-whisper CLI, OpenAI
    cloud API (which needs [OPENAI_API_KEY]).  When only the shared name
    [whisper] is on the path, the help output decides: it is whisper.cpp
    when the output mentions it, the Python-style CLI when it does not, and
    the Python-style CLI as well when the probe fails. *)
Theorem detectWhisper_priority (h : Host) :
  detectWhisper h = firstAvailable [compiledBinary h; pythonCli h; mlxCli h; cloudApi h] ∧
  (∀ path,
     commandExists h (str "whisper-cpp") = None →
     commandExists h (str "whisper") = Some path →
     (helpOutput h path = None → detectWhisper h = Some (Whisper path)) ∧
     (∀ stdout, helpOutput h path = Some stdout →
        detectWhisper h =
          Some (if includes (str "whisper.cpp") stdout
                then WhisperCpp path else Whisper path))).
Proof.
  split.
  - unfold detectWhisper, compiledBinary, pythonCli, mlxCli, cloudApi, saysWhisperCpp.
    destruct (commandExists h (str "whisper-cpp")) as [cpp|]; [reflexivity|].
    destruct (commandExists h (str "whisper")) as [main|].
    + destruct (helpOutput h main) as [out|]; [|reflexivity].
      destruct (includes (str "whisper.cpp") out); reflexivity.
    + destruct (commandExists h (str "mlx_whisper")) as [mlx|]; [reflexivity|].
      simpl. destruct (envSet (OPENAI_API_KEY (env h))); reflexivity.
  - intros path Hcpp Hmain. unfold detectWhisper. rewrite Hcpp, Hmain. split.
    + intros ->. reflexivity.
    + intros stdout ->. destruct (includes (str "whisper.cpp") stdout); reflexivity.
Qed.

Lemma detectWhisper_priority_witness :
  detectWhisper pythonHost = Some (Whisper (str "/usr/bin/whisper")).
Proof.
  apply (proj2 (detectWhisper_priority pythonHost) (str "/usr/bin/whisper"));
    reflexivity.
Defined.

End ToolsFacts.

(** ** Provider resolution *)

Module ResolverFacts.
Import Js Tools Providers Samples.

(** C4.  When a provider is forced ([api], [ytdlp] or [whisper]) and its
    prerequisites are unmet, [resolveProviders] throws one of its
    configuration errors; it only probes the host and builds provider
    objects, so nothing has been fetched by then and no other provider is
    put in its place.  When the prerequisites are met, the chain is exactly
    the forced provider, with no warning. *)
Theorem resolveProviders_forced (h : Host) (options : ProviderOptions)
    (choice : ProviderChoice) :
  opt_provider options = Some choice →
  choice ≠ ChooseAuto →
  if prerequisitesMet h options choice
  then ∃ p, resolveProviders h options =
              Fulfilled {| providers := [p]; warnings := [] |} ∧
            providerName p = choiceName choice
  else ∃ msg, resolveProviders h options = Rejected (ErrorObj msg) ∧
              msg ∈ [msgApiNeedsToken; msgYtdlpMissing; msgWhisperNeedsYtdlp;
                     msgWhisperNoBackend].
Proof.
  intros Hopt Hauto. unfold resolveProviders, prerequisitesMet. rewrite Hopt.
  destruct choice; [| | |congruence].
  - destruct (truthy (resolveApiToken (env h) (opt_token options))); simpl.
    + eexists; split; reflexivity.
    + eexists; split; [reflexivity|by_evaluation].
  - destruct (hasYtdlp h); simpl.
    + eexists; split; reflexivity.
    + eexists; split; [reflexivity|by_evaluation].
  - destruct (hasYtdlp h); simpl.
    + destruct (detectWhisper h) as [backend|]; simpl.
      * eexists; split; reflexivity.
      * eexists; split; [reflexivity|by_evaluation].
    + eexists; split; [reflexivity|by_evaluation].
Qed.

Lemma resolveProviders_forced_witness :
  ∃ msg, resolveProviders bareHost (optionsFor (Some ChooseApi)) =
           Rejected (ErrorObj msg) ∧
         msg ∈ [msgApiNeedsToken; msgYtdlpMissing; msgWhisperNeedsYtdlp;
                msgWhisperNoBackend].
Proof.
  apply (resolveProviders_forced bareHost (optionsFor (Some ChooseApi)) ChooseApi);
    [reflexivity|discriminate].
Defined.

(** C5.  In auto mode the chain holds the API provider iff a token is
    configured, the yt-dlp provider iff the tool is detectable, and the
    whisper provider iff yt-dlp is detectable and a backend is too, in this
    order.  With no token and no yt-dlp it throws the error that lists what
    to configure or install; otherwise what is missing is reported in the
    returned warnings. *)
Theorem resolveProviders_auto (h : Host) (options : ProviderOptions) :
  opt_provider options = None ∨ opt_provider options = Some ChooseAuto →
  let token := truthy (resolveApiToken (env h) (opt_token options)) in
  let ytdlp := hasYtdlp h in
  let backend := isSome (detectWhisper h) in
  (token || ytdlp = false →
     resolveProviders h options = Rejected (ErrorObj msgNoProvider) ∧
     includes (str "Set YOUTUBE_TRANSCRIPT_API_TOKEN") msgNoProvider = true ∧
     includes (str "Install yt-dlp") msgNoProvider = true ∧
     includes (str "Install whisper") msgNoProvider = true) ∧
  (token || ytdlp = true →
     ∃ r, resolveProviders h options = Fulfilled r ∧
       map providerName (providers r) =
         (if token then [str "api"] else []) ++
         (if ytdlp then [str "ytdlp"] else []) ++
         (if ytdlp && backend then [str "whisper"] else []) ∧
       (str "api" ∈ map providerName (providers r) ↔ token = true) ∧
       (str "ytdlp" ∈ map providerName (providers r) ↔ ytdlp = true) ∧
       (str "whisper" ∈ map providerName (providers r) ↔
          ytdlp = true ∧ backend = true) ∧
       (warnNoToken ∈ warnings r ↔ token = false) ∧
       (warnNoYtdlp ∈ warnings r ↔ ytdlp = false ∧ token = true) ∧
       (warnNoWhisper ∈ warnings r ↔ ytdlp = true ∧ backend = false)).
Proof.
  intros Hopt token ytdlp backend.
  assert (Hres : resolveProviders h options =
    let providers1 :=
      if token then [ApiProvider (resolveApiToken (env h) (opt_token options))
                       (resolveApiUrl (env h) (opt_apiUrl options))] else [] in
    let providers2 :=
      if ytdlp then
        (providers1 ++ [YtdlpProvider (opt_lang options)]) ++
        match detectWhisper h with
        | Some b => [newWhisperProvider b (opt_whisperModel options) (opt_lang options)]
        | None => []
        end
      else providers1 in
    if (length providers2 =? 0)%nat then Rejected (ErrorObj msgNoProvider)
    else
      let warnings1 := if negb token then [warnNoToken] else [] in
      let warnings2 :=
        if negb ytdlp && token then warnings1 ++ [warnNoYtdlp] else warnings1 in
      let warnings3 :=
        if ytdlp && negb backend then warnings2 ++ [warnNoWhisper] else warnings2 in
      Fulfilled {| providers := providers2; warnings := warnings3 |}).
  { unfold resolveProviders. destruct Hopt as [-> | ->]; reflexivity. }
  rewrite Hres. clear Hres. subst backend.
  destruct token, ytdlp, (detectWhisper h) as [b|]; simpl; split; intros Hcase;
    try discriminate Hcase;
    try (split; [reflexivity|repeat split; vm_compute; reflexivity]);
    (eexists; split; [reflexivity|]; simpl;
     repeat split; intros; try reflexivity; try discriminate; try by_evaluation;
     try (exfalso;
          match goal with
          | H : _ ∈ _ |- _ =>
            revert H; apply (bool_decide_eq_false_1 _); vm_compute; reflexivity
          | H : _ ∧ _ |- _ => destruct H; discriminate
          end)).
Qed.

Lemma resolveProviders_auto_witness :
  ∃ r, resolveProviders tokenHost (optionsFor None) = Fulfilled r ∧
       map providerName (providers r) = [str "api"] ∧
       warnings r = [warnNoYtdlp].
Proof.
  destruct (proj2 (resolveProviders_auto tokenHost (optionsFor None) (or_introl eq_refl))
              eq_refl) as (r & Hr & Hnames & _).
  exists r. split; [exact Hr|]. split; [exact Hnames|].
  vm_compute in Hr. injection Hr as <-. reflexivity.
Defined.

End ResolverFacts.

(** ** The fallback executor *)

Module ExecutorFacts.
Import Js Providers Samples.

Section Loop.
Context {World : Type}.
Implicit Types (provider p : TranscriptProvider World) (st : Exec World) (w : World).

(** One turn of the loop, for each way a provider can answer. *)
Lemma tryProviders_unavailable videoId p rest noFallback st w1 :
  available p (world st) = (Fulfilled false, w1) →
  tryProviders videoId (p :: rest) noFallback st =
  tryProviders videoId rest noFallback (called (CallAvailable (name p)) w1 st).
Proof. intros H. simpl. rewrite H. reflexivity. Qed.

Lemma tryProviders_produced videoId p rest noFallback st w1 r w2 :
  available p (world st) = (Fulfilled true, w1) →
  fetch p videoId w1 = (Fulfilled (Some r), w2) →
  tryProviders videoId (p :: rest) noFallback st =
  (Some (Fulfilled r),
   called (CallFetch (name p) videoId) w2 (called (CallAvailable (name p)) w1 st)).
Proof. intros Ha Hf. simpl. rewrite Ha. simpl. rewrite Hf. reflexivity. Qed.

Lemma tryProviders_fallback videoId p rest st w1 f w2 :
  available p (world st) = (Fulfilled true, w1) →
  fetch p videoId w1 = (f, w2) →
  noResult f →
  tryProviders videoId (p :: rest) false st =
  tryProviders videoId rest false
    {| world := w2;
       errors := errors st ++ logged (name p) f;
       stderr := stderr st ++ advised (name p) f;
       calls := calls st ++ [CallAvailable (name p); CallFetch (name p) videoId] |}.
Proof.
  intros Ha Hf Hno. simpl. rewrite Ha. simpl. rewrite Hf.
  destruct f as [[r|]|t]; [contradiction| |]; simpl;
    unfold called, pushError, writeStderr; simpl;
    rewrite <- ?app_assoc, ?app_nil_r; reflexivity.
Qed.

Lemma tryProviders_terminal videoId p rest st w1 f w2 :
  available p (world st) = (Fulfilled true, w1) →
  fetch p videoId w1 = (f, w2) →
  noResult f →
  tryProviders videoId (p :: rest) true st =
  (Some (Rejected (terminal (name p) videoId f)),
   {| world := w2;
      errors := errors st ++
        [{| attempt_provider := name p;
            attempt_error := errorMessage (terminal (name p) videoId f) |}];
      stderr := stderr st;
      calls := calls st ++ [CallAvailable (name p); CallFetch (name p) videoId] |}).
Proof.
  intros Ha Hf Hno. simpl. rewrite Ha. simpl. rewrite Hf.
  destruct f as [[r|]|t]; [contradiction| |]; simpl;
    unfold called, pushError; simpl; rewrite <- ?app_assoc; reflexivity.
Qed.

(** A run of unavailable providers only adds their availability checks. *)
Lemma tryProviders_skip videoId pre rest noFallback st w0 :
  allUnavailable pre (world st) = Some w0 →
  tryProviders videoId (pre ++ rest) noFallback st =
  tryProviders videoId rest noFallback
    {| world := w0; errors := errors st; stderr := stderr st;
       calls := calls st ++ map (λ q, CallAvailable (name q)) pre |}.
Proof.
  revert st. induction pre as [|q pre IH]; intros st Hall; simpl in Hall.
  - injection Hall as <-. simpl. rewrite app_nil_r. destruct st; reflexivity.
  - destruct (available q (world st)) as [[[|]|t] w1] eqn:Hq; try discriminate.
    change ((q :: pre) ++ rest) with (q :: (pre ++ rest)).
    rewrite (tryProviders_unavailable _ _ _ _ _ _ Hq).
    rewrite IH by exact Hall. simpl. rewrite <- app_assoc. reflexivity.
Qed.

Lemma tryProviders_exhausted videoId providers noFallback st st' :
  tryProviders videoId providers noFallback st = (None, st') →
  errors st' = errors st ++ omap entryOf (outcomes videoId providers (world st)) ∧
  Forall producedNothing (outcomes videoId providers (world st)).
Proof.
  revert st. induction providers as [|p rest IH]; intros st Hrun; simpl in Hrun.
  - injection Hrun as <-. simpl. rewrite app_nil_r. split; [reflexivity|constructor].
  - simpl. unfold attempt.
    destruct (available p (world st)) as [[[|]|t] w1] eqn:Ha; simpl in Hrun.
    + destruct (fetch p videoId w1) as [[[r|]|t] w2] eqn:Hf; simpl in Hrun.
      * discriminate.
      * destruct noFallback; [discriminate|].
        apply IH in Hrun as [He Hall]. simpl in He, Hall.
        split; [exact He|constructor; [exact I|exact Hall]].
      * destruct noFallback; [discriminate|].
        apply IH in Hrun as [He Hall]. simpl in He, Hall.
        rewrite He, <- app_assoc. split; [reflexivity|constructor; [exact I|exact Hall]].
    + apply IH in Hrun as [He Hall]. simpl in He, Hall.
      split; [exact He|constructor; [exact I|exact Hall]].
    + destruct noFallback; [discriminate|].
      apply IH in Hrun as [He Hall]. simpl in He, Hall.
      rewrite He, <- app_assoc. split; [reflexivity|constructor; [exact I|exact Hall]].
Qed.

Lemma tryProviders_nothing videoId providers st :
  Forall producedNothing (outcomes videoId providers (world st)) →
  ∃ st', tryProviders videoId providers false st = (None, st').
Proof.
  revert st. induction providers as [|p rest IH]; intros st Hall; simpl.
  - eexists; reflexivity.
  - simpl in Hall. unfold attempt in Hall.
    destruct (available p (world st)) as [[[|]|t] w1] eqn:Ha; simpl in *.
    + destruct (fetch p videoId w1) as [[[r|]|t] w2] eqn:Hf; simpl in *;
        inversion Hall as [|? ? Hhd Htl]; subst.
      * contradiction.
      * apply IH. exact Htl.
      * apply IH. exact Htl.
    + inversion Hall as [|? ? Hhd Htl]; subst. apply IH. exact Htl.
    + inversion Hall as [|? ? Hhd Htl]; subst. apply IH. exact Htl.
Qed.

Lemma errorDetails_outcomes (os : list (jsstring * AttemptOutcome)) :
  errorDetails (omap entryOf os) = join nl (omap failureLine os).
Proof.
  unfold errorDetails. f_equal.
  induction os as [|[n o] os IH]; [reflexivity|].
  destruct o; cbn; rewrite ?IH; reflexivity.
Qed.

End Loop.

(** C1 (as amended).  In a chain that starts with three providers, with
    fallback allowed, where the first two are attempted and give no result
    (null or a thrown error) and the third gives a result: [fetchTranscript]
    returns that result; the attempt log holds one entry for each of the
    first two that threw and none for one that returned null, so it has two
    entries exactly when both threw; and the calls made are the six on these
    three providers, none on a later one. *)
Theorem fetchTranscript_third_provider {World : Type}
    (videoId : jsstring) (p1 p2 p3 : TranscriptProvider World)
    (rest : list (TranscriptProvider World))
    (w wa1 w1 wa2 w2 wa3 w3 : World) (f1 f2 : Settled (option TranscriptResult))
    (r : TranscriptResult) :
  available p1 w = (Fulfilled true, wa1) → fetch p1 videoId wa1 = (f1, w1) → noResult f1 →
  available p2 w1 = (Fulfilled true, wa2) → fetch p2 videoId wa2 = (f2, w2) → noResult f2 →
  available p3 w2 = (Fulfilled true, wa3) → fetch p3 videoId wa3 = (Fulfilled (Some r), w3) →
  fetchTranscript videoId (p1 :: p2 :: p3 :: rest) false w =
    (Fulfilled r,
     {| world := w3;
        errors := logged (name p1) f1 ++ logged (name p2) f2;
        stderr := advised (name p1) f1 ++ advised (name p2) f2;
        calls := [CallAvailable (name p1); CallFetch (name p1) videoId;
                  CallAvailable (name p2); CallFetch (name p2) videoId;
                  CallAvailable (name p3); CallFetch (name p3) videoId] |}) ∧
  (length (logged (name p1) f1 ++ logged (name p2) f2) = 2%nat ↔
     (∃ t1, f1 = Rejected t1) ∧ (∃ t2, f2 = Rejected t2)).
Proof.
  intros Ha1 Hf1 Hn1 Ha2 Hf2 Hn2 Ha3 Hf3. split.
  - unfold fetchTranscript.
    rewrite (tryProviders_fallback videoId p1 _ (start w) wa1 f1 w1 Ha1 Hf1 Hn1).
    erewrite (tryProviders_fallback videoId p2 _ _ wa2 f2 w2); [|exact Ha2|exact Hf2|exact Hn2].
    erewrite (tryProviders_produced videoId p3); [|exact Ha3|exact Hf3].
    reflexivity.
  - destruct f1 as [[r1|]|t1]; [contradiction| |];
      (destruct f2 as [[r2|]|t2]; [contradiction| |]); simpl; split;
      try discriminate; try (intros [[? ?] [? ?]]; discriminate).
    + intros _. split; eexists; reflexivity.
    + reflexivity.
Qed.

Lemma fetchTranscript_third_provider_witness :
  (fetchTranscript videoId
     [failingProvider (str "api"); absentProvider (str "ytdlp");
      workingProvider (str "whisper"); failingProvider (str "spare")] false 0%nat).1
  = Fulfilled helloResult.
Proof.
  exact (f_equal fst (proj1
    (fetchTranscript_third_provider videoId
       (failingProvider (str "api")) (absentProvider (str "ytdlp"))
       (workingProvider (str "whisper")) [failingProvider (str "spare")]
       0%nat 1%nat 2%nat 3%nat 4%nat 5%nat 6%nat _ _ helloResult
       eq_refl eq_refl I eq_refl eq_refl I eq_refl eq_refl))).
Defined.

(** C1 as stated fails: two providers that return null leave no entry in
    the attempt log. *)
Lemma fetchTranscript_log_counterexample :
  let run := fetchTranscript videoId
               [absentProvider (str "api"); absentProvider (str "ytdlp");
                workingProvider (str "whisper")] false 0%nat in
  fetch (absentProvider (str "api")) videoId 1%nat = (Fulfilled None, 2%nat) ∧
  fetch (absentProvider (str "ytdlp")) videoId 3%nat = (Fulfilled None, 4%nat) ∧
  fetch (workingProvider (str "whisper")) videoId 5%nat =
    (Fulfilled (Some helloResult), 6%nat) ∧
  run.1 = Fulfilled helloResult ∧
  world run.2 = 6%nat ∧
  calls run.2 = [CallAvailable (str "api"); CallFetch (str "api") videoId;
                 CallAvailable (str "ytdlp"); CallFetch (str "ytdlp") videoId;
                 CallAvailable (str "whisper"); CallFetch (str "whisper") videoId] ∧
  length (errors run.2) = 0%nat ∧
  length (errors run.2) ≠ 2%nat.
Proof. vm_compute. repeat split; discriminate. Qed.

(** C2.  With fallback disabled, the first provider whose availability
    check passes and whose fetch gives no result ends the run: a null result
    throws the "No transcript available" error, a thrown error is thrown
    again as it is, and the only calls made are the availability checks of
    the providers before it and its own check and fetch. *)
Theorem fetchTranscript_noFallback {World : Type}
    (videoId : jsstring) (pre : list (TranscriptProvider World))
    (p : TranscriptProvider World) (post : list (TranscriptProvider World))
    (w w0 wa w' : World) (f : Settled (option TranscriptResult)) :
  allUnavailable pre w = Some w0 →
  available p w0 = (Fulfilled true, wa) →
  fetch p videoId wa = (f, w') →
  noResult f →
  ∃ st,
    fetchTranscript videoId (pre ++ p :: post) true w =
      (Rejected match f with
                | Rejected t => t
                | Fulfilled _ => ErrorObj (msgNoTranscript (name p) videoId)
                end, st) ∧
    world st = w' ∧
    calls st = map (λ q, CallAvailable (name q)) pre ++
               [CallAvailable (name p); CallFetch (name p) videoId].
Proof.
  intros Hpre Ha Hf Hno. unfold fetchTranscript.
  rewrite (tryProviders_skip videoId pre (p :: post) true (start w) w0 Hpre).
  erewrite (tryProviders_terminal videoId p post); [|exact Ha|exact Hf|exact Hno].
  replace (match f with
           | Rejected t => t
           | Fulfilled _ => ErrorObj (msgNoTranscript (name p) videoId)
           end) with (terminal (name p) videoId f)
    by (destruct f as [[r|]|t]; reflexivity).
  eexists. split; [reflexivity|]. split; reflexivity.
Qed.

Lemma fetchTranscript_noFallback_witness :
  ∃ st,
    fetchTranscript videoId
      ([missingProvider (str "api")] ++
       absentProvider (str "ytdlp") :: [workingProvider (str "whisper")]) true 0%nat =
      (Rejected (ErrorObj (msgNoTranscript (str "ytdlp") videoId)), st) ∧
    world st = 3%nat ∧
    calls st = [CallAvailable (str "api"); CallAvailable (str "ytdlp");
                CallFetch (str "ytdlp") videoId].
Proof.
  exact (fetchTranscript_noFallback videoId [missingProvider (str "api")]
           (absentProvider (str "ytdlp")) [workingProvider (str "whisper")]
           0%nat 1%nat 2%nat 3%nat (Fulfilled None) eq_refl eq_refl eq_refl I).
Defined.

(** C3 (as amended).  Whenever [fetchTranscript] runs off the end of the
    chain, it throws the aggregate error: a header with the video and the
    length of the chain, then one line for each provider that threw, with
    its error, in the order of the chain.  A provider that was unavailable
    or returned null has no line.  With fallback allowed the chain is run to
    its end exactly when no provider produces a result. *)
Theorem fetchTranscript_exhausted {World : Type}
    (videoId : jsstring) (providers : list (TranscriptProvider World))
    (noFallback : bool) (w : World) :
  (∀ st, tryProviders videoId providers noFallback (start w) = (None, st) →
     fetchTranscript videoId providers noFallback w =
       (Rejected (ErrorObj
          ((str "Failed to get transcript for video " ++ videoId ++ str "." ++ nl) ++
           (str "Tried " ++ ofNat (length providers) ++ str " provider(s):" ++ nl ++
            join nl (omap failureLine (outcomes videoId providers w))))), st)) ∧
  (Forall producedNothing (outcomes videoId providers w) ↔
     ∃ st, tryProviders videoId providers false (start w) = (None, st)).
Proof.
  split.
  - intros st Hrun. unfold fetchTranscript. rewrite Hrun.
    apply tryProviders_exhausted in Hrun as [He _]. simpl in He.
    unfold msgAllFailed. rewrite He, errorDetails_outcomes. reflexivity.
  - split.
    + intros Hall. apply (tryProviders_nothing videoId providers (start w) Hall).
    + intros [st Hrun]. apply tryProviders_exhausted in Hrun as [_ Hall]. exact Hall.
Qed.

Lemma fetchTranscript_exhausted_witness :
  (fetchTranscript videoId
     [missingProvider (str "api"); failingProvider (str "ytdlp");
      absentProvider (str "whisper")] false 0%nat).1 =
  Rejected (ErrorObj
    (str "Failed to get transcript for video dQw4w9WgXcQ." ++ nl ++
     str "Tried 3 provider(s):" ++ nl ++ str "  - ytdlp: HTTP 500")).
Proof.
  exact (f_equal fst (proj1
    (fetchTranscript_exhausted videoId
       [missingProvider (str "api"); failingProvider (str "ytdlp");
        absentProvider (str "whisper")] false 0%nat) _ eq_refl)).
Defined.

(** C3 as stated fails: an unavailable provider and one that returned null
    leave no line in the aggregate message. *)
Lemma fetchTranscript_skipped_counterexample :
  let run := fetchTranscript videoId
               [missingProvider (str "api"); absentProvider (str "ytdlp")] false 0%nat in
  calls run.2 = [CallAvailable (str "api"); CallAvailable (str "ytdlp");
                 CallFetch (str "ytdlp") videoId] ∧
  run.1 = Rejected (ErrorObj
            (str "Failed to get transcript for video dQw4w9WgXcQ." ++ nl ++
             str "Tried 2 provider(s):" ++ nl)) ∧
  (∀ msg, run.1 = Rejected (ErrorObj msg) →
     includes (str "skipped") msg = false ∧ includes (str "ytdlp") msg = false).
Proof.
  vm_compute. split; [reflexivity|]. split; [reflexivity|].
  intros msg Hmsg. injection Hmsg as <-. split; reflexivity.
Qed.

End ExecutorFacts.

(** ** Subtitle parsing *)

Module SubtitleFacts.
Import Js Regex Subtitles Captions Samples.

(** *** Removal of repeats *)

Lemma firstSeen_elem (l : list jsstring) (x : jsstring) : x ∈ firstSeen l ↔ x ∈ l.
Proof.
  induction l as [|y l IH]; simpl; [reflexivity|].
  rewrite !elem_of_cons, list_elem_of_filter, IH.
  destruct (decide (x = y)) as [->|Hne]; tauto.
Qed.




Lemma keep_consistent (c : jsstring) (acc : Acc) :
  consistent acc → consistent (keep c acc).
Proof.
  intros Hacc. unfold keep.
  destruct (truthy c); simpl; [|exact Hacc].
  destruct (decide (c ∈ seenLines acc)); [exact Hacc|].
  intros x. simpl. rewrite elem_of_union, elem_of_singleton, elem_of_app,
    list_elem_of_singleton, (Hacc x). tauto.
Qed.

Lemma keep_all (cs : list jsstring) (acc : Acc) :
  consistent acc →
  lines (foldl (λ acc c, keep c acc) acc cs) =
  lines acc ++ filter (λ y, y ∉ lines acc) (firstSeen (filter nonEmpty cs)).
Proof.
  revert acc. induction cs as [|c cs IH]; intros acc Hacc; simpl.
  - rewrite filter_nil, app_nil_r. reflexivity.
  - rewrite (IH _ (keep_consistent c acc Hacc)). unfold keep.
    destruct c as [|n c]; simpl.
    + rewrite filter_cons_False by discriminate. reflexivity.
    + rewrite filter_cons.
      destruct (decide (n :: c ∈ seenLines acc)) as [Hin|Hin].
      * apply Hacc in Hin. rewrite decide_False by tauto.
        f_equal. rewrite list_filter_filter. apply list_filter_iff.
        intros y. split; [|tauto]. intros Hy. split; [exact Hy|]. congruence.
      * rewrite (Hacc (n :: c)) in Hin. rewrite decide_True by exact Hin.
        simpl. rewrite <- app_assoc. f_equal. simpl. f_equal.
        rewrite list_filter_filter. apply list_filter_iff.
        intros y. rewrite elem_of_app, list_elem_of_singleton. tauto.
Qed.

Lemma filter_unseen (l : list jsstring) : filter (λ y, y ∉ []) l = l.
Proof.
  induction l as [|x l IH]; [reflexivity|].
  rewrite filter_cons_True by apply not_elem_of_nil. f_equal. exact IH.
Qed.

Lemma keep_from_empty (cs : list jsstring) :
  lines (foldl (λ acc c, keep c acc) emptyAcc cs) = firstSeen (filter nonEmpty cs).
Proof.
  rewrite keep_all.
  - simpl. apply filter_unseen.
  - intros x. simpl. rewrite elem_of_empty. split; [tauto|]. apply not_elem_of_nil.
Qed.

(** The nested loops visit the candidate lines in document order. *)
Lemma parseCues_candidates (skipped : jsstring → bool) (content : jsstring) :
  parseCues skipped content =
  foldl (λ acc c, keep c acc) emptyAcc (candidates skipped content).
Proof.
  unfold parseCues, candidates.
  generalize (split reBlankLines content) as blocks.
  generalize emptyAcc as acc.
  intros acc blocks. revert acc.
  induction blocks as [|block blocks IH]; intros acc; [reflexivity|].
  simpl. rewrite IH, filter_app, map_app, foldl_app. f_equal.
  generalize (split (Lit nl) block) as blockLines. clear.
  intros blockLines. revert acc.
  induction blockLines as [|line blockLines IH]; intros acc; [reflexivity|].
  cbn [foldl]. destruct (skipped line) eqn:Hskip.
  - rewrite filter_cons_False by (rewrite Hskip; discriminate). apply IH.
  - rewrite filter_cons_True by exact Hskip. cbn [map foldl]. apply IH.
Qed.

Lemma parseTtmlLines_candidates (content : jsstring) :
  parseTtmlLines content =
  lines (foldl (λ acc c, keep c acc) emptyAcc (ttmlCandidates content)).
Proof.
  unfold parseTtmlLines, ttmlCandidates.
  generalize (matchAll reParagraph content) as matches.
  generalize emptyAcc as acc.
  intros acc matches. f_equal. revert acc.
  induction matches as [|m matches IH]; intros acc; [reflexivity|].
  simpl. apply IH.
Qed.

Lemma parseLines_firstSeen (format : Format) (content : jsstring) :
  parseLines format content =
  firstSeen (filter nonEmpty (documentLines format content)).
Proof.
  destruct format; simpl.
  - unfold parseVttLines. rewrite parseCues_candidates. apply keep_from_empty.
  - unfold parseSrtLines. rewrite parseCues_candidates. apply keep_from_empty.
  - rewrite parseTtmlLines_candidates. apply keep_from_empty.
Qed.

(** *** Text that is already clean *)

Lemma firstSeen_id (l : list jsstring) : NoDup l → firstSeen l = l.
Proof.
  induction 1 as [|x l Hx Hnd IH]; simpl; [reflexivity|].
  rewrite IH. f_equal. clear IH Hnd.
  induction l as [|y l IH]; [reflexivity|].
  apply not_elem_of_cons in Hx as [Hxy Hx].
  rewrite filter_cons_True by congruence. f_equal. apply IH, Hx.
Qed.

Lemma exec_nl (c : N) (s : jsstring) :
  exec (Lit nl) (c :: s) = if c =? 10 then Some (s, []) else None.
Proof.
  unfold exec. cbn. rewrite N.eqb_sym. destruct (c =? 10); reflexivity.
Qed.

Lemma exec_blank (c : N) (s : jsstring) :
  startsWith [10; 10] (c :: s) = false → exec reBlankLines (c :: s) = None.
Proof.
  unfold exec, reBlankLines. cbn. rewrite (N.eqb_sym 10 c).
  destruct (c =? 10); [|reflexivity].
  destruct s as [|x s]; [reflexivity|].
  cbn. rewrite (N.eqb_sym 10 x). destruct (x =? 10); [discriminate|reflexivity].
Qed.

Lemma matched_one (c : N) (s : jsstring) : matched (c :: s) s = 1%nat.
Proof. unfold matched. simpl. lia. Qed.

(** A text without a line feed is one line. *)
Lemma split_nl_one (s cur : jsstring) :
  10 ∉ s → splitFrom (Lit nl) 0 cur s = [reverse cur ++ s].
Proof.
  revert cur. induction s as [|c s IH]; intros cur Hs.
  - simpl. rewrite app_nil_r. reflexivity.
  - apply not_elem_of_cons in Hs as [Hc Hs].
    cbn [splitFrom]. rewrite exec_nl.
    destruct (N.eqb_spec c 10) as [->|_]; [congruence|].
    rewrite (IH _ Hs), reverse_cons, <- app_assoc. reflexivity.
Qed.

(** A text without two line feeds in a row is one block. *)
Lemma split_blank_one (s cur : jsstring) :
  includes [10; 10] s = false → splitFrom reBlankLines 0 cur s = [reverse cur ++ s].
Proof.
  revert cur. induction s as [|c s IH]; intros cur Hs.
  - simpl. rewrite app_nil_r. reflexivity.
  - cbn [includes] in Hs. apply orb_false_iff in Hs as [Hhd Htl].
    cbn [splitFrom]. rewrite (exec_blank c s Hhd).
    rewrite (IH _ Htl), reverse_cons, <- app_assoc. reflexivity.
Qed.

(** A text whose lines are not empty has no two line feeds in a row. *)
Lemma lines_no_blank (s cur : jsstring) :
  Forall (λ l, l ≠ []) (splitFrom (Lit nl) 0 cur s) → includes [10; 10] s = false.
Proof.
  revert cur. induction s as [|c s IH]; intros cur Hs; [reflexivity|].
  cbn [splitFrom] in Hs. rewrite exec_nl in Hs. cbn [includes].
  destruct (N.eqb_spec c 10) as [->|Hc].
  - rewrite matched_one in Hs. apply Forall_cons in Hs as [_ Hs].
    rewrite (IH _ Hs), orb_false_r.
    destruct s as [|x s]; [reflexivity|].
    cbn. destruct (N.eqb_spec 10 x) as [<-|_]; [|reflexivity].
    cbn [splitFrom] in Hs. rewrite exec_nl in Hs. simpl in Hs.
    rewrite matched_one in Hs. apply Forall_cons in Hs as [Hnil _].
    contradiction Hnil. reflexivity.
  - rewrite (IH _ Hs), orb_false_r.
    cbn. destruct (N.eqb_spec 10 c) as [<-|_]; [congruence|reflexivity].
Qed.

Lemma candidates_clean (skipped : jsstring → bool) (text : jsstring) :
  Forall (λ l, l ≠ [] ∧ cleanSubtitleLine l = l) (split (Lit nl) text) →
  Forall (λ l, skipped l = false) (split (Lit nl) text) →
  candidates skipped text = split (Lit nl) text.
Proof.
  intros Hclean Hkept. unfold candidates.
  assert (Hone : split reBlankLines text = [text]).
  { apply (split_blank_one text []), (lines_no_blank text []).
    eapply Forall_impl; [exact Hclean|]. intros l [Hl _]. exact Hl. }
  rewrite Hone. simpl. rewrite app_nil_r.
  induction (split (Lit nl) text) as [|l ls IH]; [reflexivity|].
  apply Forall_cons in Hclean as [[_ Hl] Hclean].
  apply Forall_cons in Hkept as [Hk Hkept].
  rewrite filter_cons_True by exact Hk. cbn [map]. rewrite Hl. f_equal.
  apply IH; assumption.
Qed.

Lemma filter_nonEmpty_id (ls : list jsstring) :
  Forall (λ l, l ≠ []) ls → filter nonEmpty ls = ls.
Proof.
  induction 1 as [|l ls Hl _ IH]; [reflexivity|].
  rewrite filter_cons_True by (destruct l; [congruence|reflexivity]).
  f_equal. exact IH.
Qed.

Lemma parseCues_clean (skipped : jsstring → bool) (text : jsstring) :
  Forall (λ l, l ≠ [] ∧ cleanSubtitleLine l = l) (split (Lit nl) text) →
  NoDup (split (Lit nl) text) →
  Forall (λ l, skipped l = false) (split (Lit nl) text) →
  lines (parseCues skipped text) = split (Lit nl) text.
Proof.
  intros Hclean Hnd Hkept.
  rewrite parseCues_candidates, keep_from_empty, (candidates_clean _ _ Hclean Hkept).
  rewrite filter_nonEmpty_id; [apply firstSeen_id, Hnd|].
  eapply Forall_impl; [exact Hclean|]. intros l [Hl _]. exact Hl.
Qed.

(** C8 (as amended).  For a text whose lines are not empty, are left as
    they are by the cleaning step, are not header, number or timestamp
    lines, and are all distinct, [parseVtt] and [parseSrt] return the lines
    joined by single spaces: the text with each line feed replaced by a
    space.  A text of one such line is returned unchanged. *)
Theorem parse_clean_text (text : jsstring) :
  Forall (λ l, l ≠ [] ∧ cleanSubtitleLine l = l) (split (Lit nl) text) →
  NoDup (split (Lit nl) text) →
  (Forall (λ l, vttSkipped l = false) (split (Lit nl) text) →
     parseVtt text = join (str " ") (split (Lit nl) text)) ∧
  (Forall (λ l, srtSkipped l = false) (split (Lit nl) text) →
     parseSrt text = join (str " ") (split (Lit nl) text)) ∧
  (10 ∉ text → split (Lit nl) text = [text] ∧ join (str " ") [text] = text).
Proof.
  intros Hclean Hnd. split; [|split].
  - intros Hkept. unfold parseVtt, parseVttLines.
    rewrite (parseCues_clean _ _ Hclean Hnd Hkept). reflexivity.
  - intros Hkept. unfold parseSrt, parseSrtLines.
    rewrite (parseCues_clean _ _ Hclean Hnd Hkept). reflexivity.
  - intros Hone. split; [apply (split_nl_one text [] Hone)|reflexivity].
Qed.

Lemma parse_clean_text_witness :
  parseVtt (str "so we meet again" ++ nl ++ str "at last") =
  join (str " ") (split (Lit nl) (str "so we meet again" ++ nl ++ str "at last")).
Proof.
  apply (parse_clean_text (str "so we meet again" ++ nl ++ str "at last")).
  - by_evaluation.
  - by_evaluation.
  - by_evaluation.
Defined.

(** C8 as stated fails: a clean text of two lines comes back on one line. *)
Lemma parse_clean_text_counterexample :
  let text := str "so we meet again" ++ nl ++ str "at last" in
  split (Lit nl) text = [str "so we meet again"; str "at last"] ∧
  cleanSubtitleLine (str "so we meet again") = str "so we meet again" ∧
  cleanSubtitleLine (str "at last") = str "at last" ∧
  vttSkipped (str "so we meet again") = false ∧
  vttSkipped (str "at last") = false ∧
  parseVtt text = str "so we meet again at last" ∧
  parseSrt text = str "so we meet again at last" ∧
  parseVtt text ≠ text.
Proof. vm_compute. repeat split; discriminate. Qed.

(** *** Files written block by block *)















(** *** A rolling line *)








End SubtitleFacts.

(** ** Transcript extraction *)

Module NormalizeFacts.
Import Js Normalize Samples JsFacts.

(** *** The equations of the source *)

Lemma applyAt_get (f : json → option jsstring) (fields : list (jsstring * json))
    (key : jsstring) :
  applyAt f fields key =
  match get fields key with
  | Some v => f v
  | None => None
  end.
Proof.
  induction fields as [|[k v] fields IH]; simpl; [reflexivity|].
  destruct (eqs k key); [reflexivity|exact IH].
Qed.

(** [extractTextFromUnknown] on an object, as the source has it: the text
    of [obj.text ?? obj.transcript ?? obj.caption ?? obj.content] when it is
    truthy, and else the first truthy text under the fallback keys. *)
Lemma extractTextFromUnknown_object (obj : list (jsstring * json)) :
  extractTextFromUnknown (JObject obj) =
  let direct :=
    extractTextFromValue
      (coalesce (get obj (str "text"))
      (coalesce (get obj (str "transcript"))
      (coalesce (get obj (str "caption"))
                (get obj (str "content"))))) in
  if truthyOpt direct then direct
  else firstTruthy (λ key, extractTextFromValue (get obj key)) fallbackKeys.
Proof.
  cbn [extractTextFromUnknown].
  assert (Hdirect :
    match firstPresent obj directKeys with
    | Some key => applyAt extractTextFromUnknown obj key
    | None => None
    end =
    extractTextFromValue
      (coalesce (get obj (str "text"))
      (coalesce (get obj (str "transcript"))
      (coalesce (get obj (str "caption"))
                (get obj (str "content")))))).
  { unfold firstPresent, directKeys, coalesce. cbn [find].
    repeat match goal with
    | |- context [get obj (str ?k)] =>
      let E := fresh "E" in
      destruct (get obj (str k)) as [[]|] eqn:E;
      cbn [nullish negb extractTextFromValue];
      try (rewrite applyAt_get, E; reflexivity)
    end;
    reflexivity. }
  rewrite Hdirect. cbn zeta.
  destruct (truthyOpt _); [reflexivity|].
  unfold fallbackKeys. cbn [firstTruthy]. rewrite !applyAt_get. reflexivity.
Qed.

(** *** Every text is trimmed and not empty *)

Lemma orNull_trim_tight (s t : jsstring) : orNull (trim s) = Some t → tight t.
Proof. intros H. apply orNull_some in H as [-> H]. apply trim_tight, H. Qed.

Lemma joinTrimmed_tight (strings : list jsstring) (t : jsstring) :
  orNull (joinTrimmed strings) = Some t → tight t.
Proof.
  intros H. apply orNull_some in H as [-> H]. unfold joinTrimmed in *.
  apply tight_join.
  - intros Hnil. rewrite Hnil in H. discriminate.
  - apply Forall_forall. intros x Hx.
    apply list_elem_of_filter in Hx as [Hx Hin].
    apply list_elem_of_fmap in Hin as (y & -> & _).
    apply trim_tight, Hx.
Qed.

Lemma orUndefined_some (x : option jsstring) (s : jsstring) :
  orUndefined x = Some s → x = Some s.
Proof.
  destruct x as [t|]; simpl; [|discriminate].
  intros H. apply orNull_some in H as [-> _]. reflexivity.
Qed.

Lemma applyAt_elem (f : json → option jsstring) (fields : list (jsstring * json))
    (key s : jsstring) :
  applyAt f fields key = Some s → ∃ kv, kv ∈ fields ∧ f kv.2 = Some s.
Proof.
  induction fields as [|[k v] fields IH]; simpl; [discriminate|].
  destruct (eqs k key).
  - intros H. exists (k, v). split; [apply list_elem_of_here|exact H].
  - intros H. destruct (IH H) as (kv & Hin & Hkv).
    exists kv. split; [apply list_elem_of_further, Hin|exact Hkv].
Qed.

Lemma firstTruthy_some {K} (f : K → option jsstring) (keys : list K) (s : jsstring) :
  firstTruthy f keys = Some s → ∃ key, f key = Some s.
Proof.
  induction keys as [|key keys IH]; simpl; [discriminate|].
  destruct (truthyOpt (f key)); [|exact IH].
  intros H. exists key. exact H.
Qed.

Lemma extractTextFromUnknown_tight (value : json) (s : jsstring) :
  extractTextFromUnknown value = Some s → tight s.
Proof.
  revert s. induction value as [|b|n|raw|items IH|fields IH] using json_ind;
    intros s; cbn [extractTextFromUnknown]; try discriminate.
  - apply orNull_trim_tight.
  - destruct (length items =? 0)%nat; [discriminate|].
    destruct (forallb isString items); [apply joinTrimmed_tight|].
    destruct (forallb hasText items); [apply joinTrimmed_tight|].
    cbn zeta.
    destruct (0 <? length (omap _ items))%nat eqn:Hlen; [|discriminate].
    intros [= <-]. apply tight_join.
    + intros Hnil. rewrite Hnil in Hlen. discriminate.
    + apply Forall_forall. intros x Hx.
      apply list_elem_of_omap in Hx as (item & Hitem & Hx).
      apply orUndefined_some in Hx.
      rewrite Forall_forall in IH. exact (IH item Hitem x Hx).
  - rewrite Forall_forall in IH. cbn zeta.
    assert (Hat : ∀ key t, applyAt extractTextFromUnknown fields key = Some t → tight t).
    { intros key t Ht. apply applyAt_elem in Ht as (kv & Hin & Ht).
      exact (IH kv Hin t Ht). }
    destruct (truthyOpt _).
    + destruct (firstPresent fields directKeys) as [key|]; [apply Hat|discriminate].
    + intros Hs. apply firstTruthy_some in Hs as [key Hs]. exact (Hat key s Hs).
Qed.

Lemma firstString_tight (fields : list (jsstring * json)) (keys : list jsstring)
    (s : jsstring) :
  firstString fields keys = Some s → tight s.
Proof.
  induction keys as [|key keys IH]; simpl; [discriminate|].
  destruct (get fields key) as [[| | |value| |]|]; try exact IH.
  destruct (truthy (trim value)) eqn:Hv; [|exact IH].
  intros [= <-]. apply trim_tight, Hv.
Qed.

Lemma itemIf_wellFormed (i t x : option jsstring) :
  (∀ s, i = Some s → tight s) → (∀ s, t = Some s → tight s) →
  (∀ s, x = Some s → tight s) →
  Forall wellFormed (itemIf i t x).
Proof.
  intros Hi Ht Hx. unfold itemIf. destruct x as [s|]; [|constructor].
  destruct (truthy s); constructor; [|constructor].
  split; [apply Hx; reflexivity|]. split; assumption.
Qed.

Lemma itemFromEntry_wellFormed (entry : json) : Forall wellFormed (itemFromEntry entry).
Proof.
  destruct entry as [| | |s|items|obj]; cbn [itemFromEntry]; try constructor.
  - apply itemIf_wellFormed; try discriminate. intros t. apply orNull_trim_tight.
  - apply itemIf_wellFormed; try discriminate.
    intros t. apply extractTextFromUnknown_tight.
  - cbn zeta. apply itemIf_wellFormed.
    + intros s Hs. apply orUndefined_some in Hs. exact (firstString_tight _ _ _ Hs).
    + intros s Hs. apply orUndefined_some in Hs. exact (firstString_tight _ _ _ Hs).
    + intros s. destruct (coalesce _ _) as [v|]; simpl; [|discriminate].
      apply extractTextFromUnknown_tight.
Qed.

Lemma flatMapEntries_wellFormed (value : list json) :
  Forall wellFormed (flatMapEntries value).
Proof.
  unfold flatMapEntries. induction value as [|entry value IH]; simpl; [constructor|].
  apply Forall_app. split; [apply itemFromEntry_wellFormed|exact IH].
Qed.

Lemma fromCollections_wellFormed (obj : list (jsstring * json)) (keys : list jsstring)
    (items : list TranscriptItem) :
  fromCollections obj keys = Some items → Forall wellFormed items.
Proof.
  induction keys as [|key keys IH]; simpl; [discriminate|].
  destruct (get obj key) as [[| | | |value|]|]; try exact IH.
  destruct (0 <? length (flatMapEntries value))%nat; [|exact IH].
  intros [= <-]. apply flatMapEntries_wellFormed.
Qed.

Lemma extractTranscriptItems_wellFormed (payload : option json) :
  Forall wellFormed (extractTranscriptItems payload).
Proof.
  destruct payload as [[| | |s|items|obj]|]; cbn [extractTranscriptItems];
    try constructor.
  - apply itemIf_wellFormed; try discriminate. intros t. apply orNull_trim_tight.
  - cbn zeta. destruct (0 <? length (flatMapEntries items))%nat.
    + apply flatMapEntries_wellFormed.
    + apply itemIf_wellFormed; try discriminate.
      intros t. apply extractTextFromUnknown_tight.
  - destruct (fromCollections obj collectionKeys) as [found|] eqn:Hfound.
    + exact (fromCollections_wellFormed _ _ _ Hfound).
    + apply itemIf_wellFormed; try discriminate.
      intros t. apply extractTextFromUnknown_tight.
Qed.

(** C10.  Whatever the payload, every record that [extractTranscriptItems]
    returns has a text that is not empty and that trimming leaves as it is,
    and so are its id and its title when it has them. *)
Theorem extractTranscriptItems_trimmed (payload : option json) (item : TranscriptItem) :
  item ∈ extractTranscriptItems payload →
  (text item ≠ [] ∧ trim (text item) = text item) ∧
  (∀ s, id item = Some s → s ≠ [] ∧ trim s = s) ∧
  (∀ s, title item = Some s → s ≠ [] ∧ trim s = s).
Proof.
  intros Hin.
  pose proof (extractTranscriptItems_wellFormed payload) as Hall.
  rewrite Forall_forall in Hall. destruct (Hall item Hin) as (Htext & Hid & Htitle).
  split; [split; [apply tight_nonempty|apply tight_trim]; exact Htext|].
  split; intros s Hs; (split; [apply tight_nonempty|apply tight_trim]); auto.
Qed.

Lemma extractTranscriptItems_trimmed_witness :
  (text (textOnly (str "hello")) ≠ [] ∧
   trim (text (textOnly (str "hello"))) = text (textOnly (str "hello"))) ∧
  (∀ s, id (textOnly (str "hello")) = Some s → s ≠ [] ∧ trim s = s) ∧
  (∀ s, title (textOnly (str "hello")) = Some s → s ≠ [] ∧ trim s = s).
Proof.
  apply (extractTranscriptItems_trimmed (Some helloWorld)).
  change (extractTranscriptItems (Some helloWorld))
    with [textOnly (str "hello"); textOnly (str "world")].
  apply list_elem_of_here.
Defined.

(** *** The examples of the specification *)

Lemma fromCollections_absent (obj : list (jsstring * json)) (keys : list jsstring) :
  (∀ key, key ∈ keys → get obj key = None) → fromCollections obj keys = None.
Proof.
  induction keys as [|key keys IH]; intros Habsent; simpl; [reflexivity|].
  rewrite (Habsent key) by apply list_elem_of_here.
  apply IH. intros k Hk. apply Habsent, list_elem_of_further, Hk.
Qed.

Lemma firstTruthy_absent (obj : list (jsstring * json)) (keys : list jsstring) :
  (∀ key, key ∈ keys → get obj key = None) →
  firstTruthy (λ key, extractTextFromValue (get obj key)) keys = None.
Proof.
  induction keys as [|key keys IH]; intros Habsent; simpl; [reflexivity|].
  rewrite (Habsent key) by apply list_elem_of_here. simpl.
  apply IH. intros k Hk. apply Habsent, list_elem_of_further, Hk.
Qed.

(** C9 (as amended).  For [{"data": [{"text": "hello"}, {"text": "world"}]}]
    the extractor returns two records, with the texts "hello" and "world",
    one for each entry of the collection; for the string "plain string" it
    returns one record with that text; for [null], [undefined] and [{}] it
    returns no record.  It is total, and returns no record either for a
    boolean, a number, or an object with none of the property names it
    looks for. *)
Theorem extractTranscriptItems_examples :
  extractTranscriptItems (Some helloWorld) =
    [textOnly (str "hello"); textOnly (str "world")] ∧
  extractTranscriptItems (Some (JString (str "plain string"))) =
    [textOnly (str "plain string")] ∧
  extractTranscriptItems (Some JNull) = [] ∧
  extractTranscriptItems None = [] ∧
  extractTranscriptItems (Some (JObject [])) = [] ∧
  (∀ b, extractTranscriptItems (Some (JBool b)) = []) ∧
  (∀ n, extractTranscriptItems (Some (JNumber n)) = []) ∧
  (∀ obj,
     (∀ key, key ∈ collectionKeys ++ directKeys ++ fallbackKeys → get obj key = None) →
     extractTranscriptItems (Some (JObject obj)) = []).
Proof.
  do 5 (split; [vm_compute; reflexivity|]).
  split; [intros b; reflexivity|]. split; [intros n; reflexivity|].
  intros obj Habsent. cbn [extractTranscriptItems].
  rewrite fromCollections_absent
    by (intros key Hkey; apply Habsent, elem_of_app; left; exact Hkey).
  rewrite extractTextFromUnknown_object. cbn zeta.
  rewrite !(Habsent (str _)) by by_evaluation.
  cbn [coalesce nullish extractTextFromValue truthyOpt].
  rewrite firstTruthy_absent; [reflexivity|].
  intros key Hkey. apply Habsent. rewrite !elem_of_app. right. right. exact Hkey.
Qed.

Lemma extractTranscriptItems_examples_witness :
  extractTranscriptItems (Some (JObject [(str "status", JString (str "ok"))])) = [].
Proof.
  apply extractTranscriptItems_examples.
  apply Forall_forall. cbv [collectionKeys directKeys fallbackKeys app].
  repeat (constructor; [reflexivity|]). constructor.
Defined.

(** C9 as stated fails: the payload with the two [text] entries under
    [data] gives two records, not one with the joined text. *)
Lemma extractTranscriptItems_counterexample :
  length (extractTranscriptItems (Some helloWorld)) = 2%nat ∧
  map text (extractTranscriptItems (Some helloWorld)) = [str "hello"; str "world"] ∧
  extractTranscriptItems (Some helloWorld) ≠ [textOnly (str "hello world")].
Proof. vm_compute. repeat split; discriminate. Qed.

End NormalizeFacts.

(** ** More on the fallback executor *)

Module ExecutorExtFacts.
Import Js Providers ExecutorExt Samples.

Section Runs.
Context {World : Type}.
Implicit Types (p : TranscriptProvider World) (st : Exec World) (w : World).

Lemma tryProviders_calls (videoId : jsstring) (providers : list (TranscriptProvider World))
    (noFallback : bool) st :
  ∃ fetched : list bool,
    (length fetched ≤ length providers)%nat ∧
    calls (tryProviders videoId providers noFallback st).2 =
    calls st ++
    concat (zip_with (λ p b, callsOn videoId (name p) b) providers fetched).
Proof.
  revert st. induction providers as [|p rest IH]; intros st.
  - exists []. split; [reflexivity|]. simpl. rewrite app_nil_r. reflexivity.
  - cbn [tryProviders].
    destruct (available p (world st)) as [[[|]|t] w1] eqn:Ha; cbn.
    + destruct (fetch p videoId w1) as [[[r|]|t] w2] eqn:Hf; cbn.
      * exists [true]. split; [simpl; lia|].
        destruct rest; simpl; rewrite <- app_assoc; reflexivity.
      * destruct noFallback; cbn.
        -- exists [true]. split; [simpl; lia|].
           destruct rest; simpl; rewrite <- app_assoc; reflexivity.
        -- destruct (IH (called (CallFetch (name p) videoId) w2
                           (called (CallAvailable (name p)) w1 st)))
             as (fetched & Hlen & Hcalls).
           exists (true :: fetched). split; [simpl; lia|].
           rewrite Hcalls. simpl. rewrite <- !app_assoc. reflexivity.
      * destruct noFallback; cbn.
        -- exists [true]. split; [simpl; lia|].
           destruct rest; simpl; rewrite <- app_assoc; reflexivity.
        -- match goal with
           | |- context [tryProviders videoId rest false ?s] =>
             destruct (IH s) as (fetched & Hlen & Hcalls)
           end.
           exists (true :: fetched). split; [simpl; lia|].
           rewrite Hcalls. simpl. rewrite <- !app_assoc. reflexivity.
    + destruct (IH (called (CallAvailable (name p)) w1 st))
        as (fetched & Hlen & Hcalls).
      exists (false :: fetched). split; [simpl; lia|].
      rewrite Hcalls. simpl. rewrite <- !app_assoc. reflexivity.
    + destruct noFallback; cbn.
      * exists [false]. split; [simpl; lia|].
        destruct rest; simpl; reflexivity.
      * match goal with
        | |- context [tryProviders videoId rest false ?s] =>
          destruct (IH s) as (fetched & Hlen & Hcalls)
        end.
        exists (false :: fetched). split; [simpl; lia|].
        rewrite Hcalls. simpl. rewrite <- !app_assoc. reflexivity.
Qed.

End Runs.

(** X1.  Whatever the providers do, [fetchTranscript] consults them in the
    order of the chain, each at most once: the calls it makes are, for a
    prefix of the chain, the availability check of a provider followed, at
    most, by its fetch. *)
Theorem fetchTranscript_call_order {World : Type}
    (videoId : jsstring) (providers : list (TranscriptProvider World))
    (noFallback : bool) (w : World) :
  ∃ fetched : list bool,
    (length fetched ≤ length providers)%nat ∧
    calls (fetchTranscript videoId providers noFallback w).2 =
    concat (zip_with (λ p b, callsOn videoId (name p) b) providers fetched).
Proof.
  destruct (tryProviders_calls videoId providers noFallback (start w))
    as (fetched & Hlen & Hcalls).
  exists fetched. split; [exact Hlen|].
  unfold fetchTranscript.
  destruct (tryProviders videoId providers noFallback (start w)) as [[outcome|] st];
    exact Hcalls.
Qed.


Section Results.
Context {World : Type}.
Implicit Types (p : TranscriptProvider World) (st : Exec World) (w : World).

Lemma tryProviders_source (videoId : jsstring) (providers : list (TranscriptProvider World))
    (noFallback : bool) st st' (r : TranscriptResult) :
  tryProviders videoId providers noFallback st = (Some (Fulfilled r), st') →
  ∃ p w0 w1,
    p ∈ providers ∧
    available p w0 = (Fulfilled true, w1) ∧
    fetch p videoId w1 = (Fulfilled (Some r), world st') ∧
    last (calls st') = Some (CallFetch (name p) videoId).
Proof.
  revert st. induction providers as [|p rest IH]; intros st; [discriminate|].
  cbn [tryProviders].
  assert (Hrest : ∀ s, tryProviders videoId rest noFallback s = (Some (Fulfilled r), st') →
    ∃ q w0 w1, q ∈ p :: rest ∧ available q w0 = (Fulfilled true, w1) ∧
      fetch q videoId w1 = (Fulfilled (Some r), world st') ∧
      last (calls st') = Some (CallFetch (name q) videoId)).
  { intros s Hs. destruct (IH s Hs) as (q & w0 & w1 & Hq & Hrun).
    exists q, w0, w1. split; [apply list_elem_of_further, Hq|exact Hrun]. }
  destruct (available p (world st)) as [[[|]|t] w1] eqn:Ha; cbn.
  - destruct (fetch p videoId w1) as [[[r'|]|t] w2] eqn:Hf; cbn.
    + intros [= <- <-]. exists p, (world st), w1.
      split; [apply list_elem_of_here|]. split; [exact Ha|]. split; [exact Hf|].
      cbn. apply last_snoc.
    + destruct noFallback; cbn; [discriminate|apply Hrest].
    + destruct noFallback; cbn; [discriminate|apply Hrest].
  - apply Hrest.
  - destruct noFallback; cbn; [discriminate|apply Hrest].
Qed.


Lemma tryProviders_strict_success (videoId : jsstring)
    (providers : list (TranscriptProvider World)) st st' (r : TranscriptResult) :
  tryProviders videoId providers true st = (Some (Fulfilled r), st') →
  tryProviders videoId providers false st = (Some (Fulfilled r), st').
Proof.
  revert st. induction providers as [|p rest IH]; intros st; [discriminate|].
  cbn [tryProviders].
  destruct (available p (world st)) as [[[|]|t] w1] eqn:Ha; cbn.
  - destruct (fetch p videoId w1) as [[[r'|]|t] w2] eqn:Hf; cbn;
      [intros H; exact H|discriminate|discriminate].
  - apply IH.
  - discriminate.
Qed.

End Results.

(** X2.  A result that [fetchTranscript] returns is the result of a fetch
    on a provider of the chain whose availability check had passed; it is
    returned as it is, that fetch is the last call made, and the world is
    left as that fetch left it. *)
Theorem fetchTranscript_result_source {World : Type}
    (videoId : jsstring) (providers : list (TranscriptProvider World))
    (noFallback : bool) (w : World) (r : TranscriptResult) (st : Exec World) :
  fetchTranscript videoId providers noFallback w = (Fulfilled r, st) →
  ∃ p w0 w1,
    p ∈ providers ∧
    available p w0 = (Fulfilled true, w1) ∧
    fetch p videoId w1 = (Fulfilled (Some r), world st) ∧
    last (calls st) = Some (CallFetch (name p) videoId).
Proof.
  unfold fetchTranscript.
  destruct (tryProviders videoId providers noFallback (start w)) as [[outcome|] st0] eqn:Hrun;
    [|discriminate].
  intros [= -> ->]. exact (tryProviders_source _ _ _ _ _ _ Hrun).
Qed.

Lemma fetchTranscript_result_source_witness :
  ∃ p w0 w1,
    p ∈ [missingProvider (str "api"); workingProvider (str "ytdlp")] ∧
    available p w0 = (Fulfilled true, w1) ∧
    fetch p videoId w1 = (Fulfilled (Some helloResult), 3%nat) ∧
    Some (CallFetch (str "ytdlp") videoId) = Some (CallFetch (name p) videoId).
Proof.
  exact (fetchTranscript_result_source videoId
           [missingProvider (str "api"); workingProvider (str "ytdlp")] true 0%nat
           helloResult _ eq_refl).
Defined.


(** X4.  A run that succeeds with fallback disabled succeeds in the same
    way with fallback allowed: the same result, calls, log and world. *)
Theorem fetchTranscript_strict_success {World : Type}
    (videoId : jsstring) (providers : list (TranscriptProvider World))
    (w : World) (r : TranscriptResult) (st : Exec World) :
  fetchTranscript videoId providers true w = (Fulfilled r, st) →
  fetchTranscript videoId providers false w = (Fulfilled r, st).
Proof.
  unfold fetchTranscript.
  destruct (tryProviders videoId providers true (start w)) as [[outcome|] st0] eqn:Hrun;
    [|discriminate].
  intros [= -> ->].
  rewrite (tryProviders_strict_success _ _ _ _ _ Hrun). reflexivity.
Qed.

Lemma fetchTranscript_strict_success_witness :
  (fetchTranscript videoId
     [missingProvider (str "api"); workingProvider (str "ytdlp")] false 0%nat).1 =
  Fulfilled helloResult.
Proof.
  exact (f_equal fst
    (fetchTranscript_strict_success videoId
       [missingProvider (str "api"); workingProvider (str "ytdlp")] 0%nat
       helloResult _ eq_refl)).
Defined.

(** X5.  When every provider of the chain reports that it is unavailable,
    the run fails with the aggregate error without a line, whether fallback
    is allowed or not, and no fetch is made. *)
Theorem fetchTranscript_all_unavailable {World : Type}
    (videoId : jsstring) (providers : list (TranscriptProvider World))
    (noFallback : bool) (w w' : World) :
  allUnavailable providers w = Some w' →
  fetchTranscript videoId providers noFallback w =
    (Rejected (ErrorObj (msgAllFailed videoId (length providers) [])),
     {| world := w'; errors := []; stderr := [];
        calls := map (λ p, CallAvailable (name p)) providers |}) ∧
  msgAllFailed videoId (length providers) [] =
    (str "Failed to get transcript for video " ++ videoId ++ str "." ++ nl) ++
    (str "Tried " ++ ofNat (length providers) ++ str " provider(s):" ++ nl).
Proof.
  intros Hall. split.
  - unfold fetchTranscript.
    pose proof (ExecutorFacts.tryProviders_skip videoId providers [] noFallback
                  (start w) w' Hall) as Hskip.
    rewrite app_nil_r in Hskip. rewrite Hskip. reflexivity.
  - unfold msgAllFailed, errorDetails. cbn [map join]. rewrite app_nil_r. reflexivity.
Qed.

Lemma fetchTranscript_all_unavailable_witness :
  (fetchTranscript videoId
     [missingProvider (str "api"); missingProvider (str "ytdlp")] true 0%nat).1 =
  Rejected (ErrorObj (msgAllFailed videoId 2 [])).
Proof.
  exact (f_equal fst (proj1
    (fetchTranscript_all_unavailable videoId
       [missingProvider (str "api"); missingProvider (str "ytdlp")] true
       0%nat 2%nat eq_refl))).
Defined.

End ExecutorExtFacts.

(** ** More on tool detection *)

Module ToolsExtFacts.
Import Js Tools ToolsExt Samples MoreSamples JsFacts.

Lemma commandExists_tight (h : Host) (cmd path : jsstring) :
  commandExists h cmd = Some path → tight path.
Proof.
  unfold commandExists. destruct (which h cmd) as [stdout|]; [|discriminate].
  intros H. apply orNull_some in H as [-> H]. apply trim_tight, H.
Qed.

(** X6.  A backend that [detectWhisper] reports can be invoked: a local
    backend carries a path that is not empty and has no white space around
    it, and the cloud backend is reported only when [OPENAI_API_KEY] is
    set to a string that is not empty. *)
Theorem detectWhisper_usable (h : Host) (b : WhisperBackend) :
  detectWhisper h = Some b →
  match backendPath b with
  | Some path => path ≠ [] ∧ trim path = path
  | None => ∃ key, OPENAI_API_KEY (env h) = Some key ∧ key ≠ []
  end.
Proof.
  unfold detectWhisper.
  destruct (commandExists h (str "whisper-cpp")) as [cpp|] eqn:Hcpp.
  { intros [= <-]. apply commandExists_tight in Hcpp.
    split; [apply tight_nonempty|apply tight_trim]; exact Hcpp. }
  destruct (commandExists h (str "whisper")) as [main|] eqn:Hmain.
  { apply commandExists_tight in Hmain.
    assert (Hok : main ≠ [] ∧ trim main = main)
      by (split; [apply tight_nonempty|apply tight_trim]; exact Hmain).
    destruct (helpOutput h main) as [out|];
      [destruct (includes (str "whisper.cpp") out)|]; intros [= <-]; exact Hok. }
  destruct (commandExists h (str "mlx_whisper")) as [mlx|] eqn:Hmlx.
  { intros [= <-]. apply commandExists_tight in Hmlx.
    split; [apply tight_nonempty|apply tight_trim]; exact Hmlx. }
  destruct (OPENAI_API_KEY (env h)) as [[|c key]|]; simpl; try discriminate.
  intros [= <-]. exists (c :: key). split; [reflexivity|discriminate].
Qed.

Lemma detectWhisper_usable_witness :
  str "/usr/bin/whisper" ≠ [] ∧ trim (str "/usr/bin/whisper") = str "/usr/bin/whisper".
Proof.
  exact (detectWhisper_usable pythonHost (Whisper (str "/usr/bin/whisper")) eq_refl).
Defined.

(** X7.  [hasWhisper] answers false exactly when none of the commands
    [whisper-cpp], [whisper] and [mlx_whisper] is found and
    [OPENAI_API_KEY] is unset or empty; whether yt-dlp is installed plays no
    part in it. *)
Theorem hasWhisper_false (h : Host) :
  hasWhisper h = false ↔
  commandExists h (str "whisper-cpp") = None ∧
  commandExists h (str "whisper") = None ∧
  commandExists h (str "mlx_whisper") = None ∧
  envSet (OPENAI_API_KEY (env h)) = false.
Proof.
  unfold hasWhisper, detectWhisper.
  destruct (commandExists h (str "whisper-cpp")) as [cpp|].
  { split; [discriminate|]. intros [H _]. discriminate. }
  destruct (commandExists h (str "whisper")) as [main|].
  { split.
    - destruct (helpOutput h main) as [out|];
        [destruct (includes (str "whisper.cpp") out)|]; discriminate.
    - intros (_ & H & _). discriminate. }
  destruct (commandExists h (str "mlx_whisper")) as [mlx|].
  { split; [discriminate|]. intros (_ & _ & H & _). discriminate. }
  destruct (envSet (OPENAI_API_KEY (env h))).
  - split; [discriminate|]. intros (_ & _ & _ & H). discriminate.
  - split; [intros _; repeat split|reflexivity].
Qed.

End ToolsExtFacts.

(** ** The API client and the API provider *)

Module ApiFacts.
Import Js Tools ToolsExt Providers Normalize Api Samples MoreSamples JsFacts.

Lemma truthy_nonempty (s : jsstring) : truthy s = true ↔ s ≠ [].
Proof. destruct s; simpl; split; congruence. Qed.

Lemma orElse_trim (v : option jsstring) (d : jsstring) :
  (blank v ∧ orElse (trim <$> v) d = d) ∨
  (∃ s, v = Some s ∧ trim s ≠ [] ∧ orElse (trim <$> v) d = trim s).
Proof.
  destruct v as [s|]; simpl; [|left; split; [exact I|reflexivity]].
  destruct (trim s) as [|c t] eqn:Hs; simpl.
  - left. split; reflexivity.
  - right. exists s. rewrite Hs. repeat split; discriminate.
Qed.

Lemma trim_trim (s : jsstring) : trim (trim s) = trim s.
Proof.
  destruct (truthy (trim s)) eqn:Hs.
  - apply tight_trim, trim_tight, Hs.
  - destruct (trim s); [reflexivity|discriminate].
Qed.

(** X8.  The API token is the [--token] value when that is not blank, else
    the environment variable when that is not blank, else the empty string;
    it is always trimmed, and it is empty exactly when both are unset or
    blank. *)
Theorem resolveApiToken_precedence (e : ProcessEnv) (cliValue : option jsstring) :
  trim (resolveApiToken e cliValue) = resolveApiToken e cliValue ∧
  (resolveApiToken e cliValue = [] ↔
     blank cliValue ∧ blank (YOUTUBE_TRANSCRIPT_API_TOKEN e)) ∧
  (∀ c, cliValue = Some c → trim c ≠ [] → resolveApiToken e cliValue = trim c) ∧
  (∀ v, blank cliValue → YOUTUBE_TRANSCRIPT_API_TOKEN e = Some v → trim v ≠ [] →
     resolveApiToken e cliValue = trim v).
Proof.
  unfold resolveApiToken.
  destruct (orElse_trim cliValue
              (orElse (trim <$> YOUTUBE_TRANSCRIPT_API_TOKEN e) []))
    as [[Hcli ->]|(c & -> & Hc & ->)].
  - destruct (orElse_trim (YOUTUBE_TRANSCRIPT_API_TOKEN e) [])
      as [[Henv ->]|(v & Hv & Hne & ->)].
    + split; [reflexivity|]. split; [tauto|]. split.
      * intros c -> Hc. contradiction.
      * intros v _ Hv Hne. rewrite Hv in Henv. contradiction.
    + split; [apply trim_trim|]. split; [|split].
      * split; [contradiction|]. intros [_ Henv]. rewrite Hv in Henv. contradiction.
      * intros c -> Hc. contradiction.
      * intros v' _ Hv' _. congruence.
  - split; [apply trim_trim|]. split; [|split].
    + split; [contradiction|]. intros [Hcli _]. contradiction.
    + intros c' [= <-] _. reflexivity.
    + intros v Hcli. contradiction.
Qed.

Lemma resolveApiToken_precedence_witness :
  resolveApiToken (env fullHost) (Some (str " override ")) = trim (str " override ").
Proof.
  apply (proj1 (proj2 (proj2
           (resolveApiToken_precedence (env fullHost) (Some (str " override ")))))
           (str " override ")); [reflexivity|].
  by_evaluation.
Defined.

(** X9.  The API URL is never empty and always trimmed: the [--api] value
    when that is not blank, else the environment variable when that is not
    blank, else the default endpoint. *)
Theorem resolveApiUrl_precedence (e : ProcessEnv) (cliValue : option jsstring) :
  resolveApiUrl e cliValue ≠ [] ∧
  trim (resolveApiUrl e cliValue) = resolveApiUrl e cliValue ∧
  (∀ c, cliValue = Some c → trim c ≠ [] → resolveApiUrl e cliValue = trim c) ∧
  (∀ v, blank cliValue → YOUTUBE_TRANSCRIPT_API_URL e = Some v → trim v ≠ [] →
     resolveApiUrl e cliValue = trim v) ∧
  (blank cliValue → blank (YOUTUBE_TRANSCRIPT_API_URL e) →
     resolveApiUrl e cliValue = DEFAULT_API_URL).
Proof.
  unfold resolveApiUrl.
  destruct (orElse_trim cliValue
              (orElse (trim <$> YOUTUBE_TRANSCRIPT_API_URL e) DEFAULT_API_URL))
    as [[Hcli ->]|(c & -> & Hc & ->)].
  - destruct (orElse_trim (YOUTUBE_TRANSCRIPT_API_URL e) DEFAULT_API_URL)
      as [[Henv ->]|(v & Hv & Hne & ->)].
    + split; [discriminate|]. split; [vm_compute; reflexivity|]. split; [|split].
      * intros c -> Hc. contradiction.
      * intros v _ Hv Hne. rewrite Hv in Henv. contradiction.
      * reflexivity.
    + split; [exact Hne|]. split; [apply trim_trim|]. split; [|split].
      * intros c -> Hc. contradiction.
      * intros v' _ Hv' _. congruence.
      * intros _ Henv. rewrite Hv in Henv. contradiction.
  - split; [exact Hc|]. split; [apply trim_trim|]. split; [|split].
    + intros c' [= <-] _. reflexivity.
    + intros v Hcli. contradiction.
    + intros Hcli. contradiction.
Qed.

Lemma resolveApiUrl_precedence_witness :
  resolveApiUrl (env fullHost) None = DEFAULT_API_URL.
Proof.
  apply (proj2 (proj2 (proj2 (proj2
           (resolveApiUrl_precedence (env fullHost) None))))); exact I.
Defined.


(** X10.  [fetchTranscripts] sends nothing when the token is empty: it
    throws the missing-token error and leaves the world as it was.  A
    payload it returns is the body of a response to the one request it
    sent, with [ok] set, read as JSON or, for another content type, as
    text; a response without [ok] always ends in a thrown error. *)
Theorem fetchTranscripts_outcomes {World : Type} (net : Platform World)
    (ids : list jsstring) (token apiUrl : jsstring) (w : World) :
  (token = [] →
     fetchTranscripts net ids token apiUrl w = (Rejected (ErrorObj msgMissingToken), w)) ∧
  (∀ payload w1,
     fetchTranscripts net ids token apiUrl w = (Fulfilled payload, w1) →
     token ≠ [] ∧
     ∃ response,
       httpFetch net (requestFor ids token apiUrl) w = (Fulfilled response, w1) ∧
       resp_ok response = true ∧
       (resp_json response = Fulfilled payload ∨
        ∃ t, resp_text response = Fulfilled t ∧ payload = JString t)) ∧
  (∀ response w1,
     token ≠ [] →
     httpFetch net (requestFor ids token apiUrl) w = (Fulfilled response, w1) →
     resp_ok response = false →
     ∃ error, fetchTranscripts net ids token apiUrl w = (Rejected error, w1)).
Proof.
  unfold fetchTranscripts. split; [|split].
  - intros ->. reflexivity.
  - intros payload w1. destruct token as [|c token]; cbn [truthy negb]; [discriminate|].
    destruct (httpFetch net _ w) as [[response|error] w'] eqn:Hsent; [|discriminate].
    cbn zeta.
    destruct (includes _ _).
    + destruct (resp_json response) as [body|error] eqn:Hbody; [|discriminate].
      destruct (resp_ok response) eqn:Hok; cbn [negb]; [|discriminate].
      intros [= <- <-]. split; [discriminate|].
      exists response. split; [reflexivity|]. split; [exact Hok|]. left. exact Hbody.
    + destruct (resp_text response) as [body|error] eqn:Hbody; [|discriminate].
      destruct (resp_ok response) eqn:Hok; cbn [negb]; [|discriminate].
      intros [= <- <-]. split; [discriminate|].
      exists response. split; [reflexivity|]. split; [exact Hok|].
      right. exists body. split; [exact Hbody|reflexivity].
  - intros response w1 Htoken Hsent Hok.
    destruct token as [|c token]; [congruence|]. cbn [truthy negb].
    rewrite Hsent. cbn zeta. rewrite Hok. cbn [negb].
    destruct (includes _ _).
    + destruct (resp_json response); eexists; reflexivity.
    + destruct (resp_text response); eexists; reflexivity.
Qed.

Lemma fetchTranscripts_outcomes_witness :
  fetchTranscripts (serverWith (okJson helloWorld)) [videoId] [] DEFAULT_API_URL 0%nat =
  (Rejected (ErrorObj msgMissingToken), 0%nat).
Proof.
  exact (proj1 (fetchTranscripts_outcomes (serverWith (okJson helloWorld))
                  [videoId] [] DEFAULT_API_URL 0%nat) eq_refl).
Defined.

(** X11.  What the API provider makes of a payload: no result when the
    extractor finds no record in it, and else the text and title of the
    first record, with source [api]; the text of such a result is never
    empty and has no white space around it. *)
Theorem apiFetch_first_record {World : Type} (net : Platform World)
    (token apiUrl videoId : jsstring) (w w1 : World) (payload : json) :
  fetchTranscripts net [videoId] token apiUrl w = (Fulfilled payload, w1) →
  apiFetch net token apiUrl videoId w =
    (Fulfilled
       match extractTranscriptItems (Some payload) with
       | [] => None
       | item :: _ =>
         Some {| Providers.text := Normalize.text item;
                 Providers.title := Normalize.title item;
                 language := None; source := SourceApi |}
       end, w1) ∧
  (∀ r, (apiFetch net token apiUrl videoId w).1 = Fulfilled (Some r) →
     Providers.text r ≠ [] ∧ trim (Providers.text r) = Providers.text r).
Proof.
  intros Hsent.
  pose proof (NormalizeFacts.extractTranscriptItems_wellFormed (Some payload)) as Hall.
  unfold apiFetch. rewrite Hsent. cbn zeta.
  destruct (extractTranscriptItems (Some payload)) as [|item items];
    [split; [reflexivity|discriminate]|].
  apply Forall_cons in Hall as [(Htext & _) _].
  rewrite (proj2 (truthy_nonempty _) (tight_nonempty _ Htext)). cbn [negb].
  split; [reflexivity|].
  intros r [= <-]. split; [apply tight_nonempty|apply tight_trim]; exact Htext.
Qed.

Lemma apiFetch_first_record_witness :
  (apiFetch (serverWith (okJson helloWorld)) (str "secret") DEFAULT_API_URL videoId
     0%nat).1 =
  Fulfilled (Some {| Providers.text := str "hello"; Providers.title := None;
                     language := None; source := SourceApi |}).
Proof.
  exact (f_equal fst (proj1
    (apiFetch_first_record (serverWith (okJson helloWorld)) (str "secret")
       DEFAULT_API_URL videoId 0%nat 1%nat helloWorld eq_refl))).
Defined.

End ApiFacts.

(** ** The resolved chain *)

Module ChainFacts.
Import Js Tools ToolsExt Providers ProviderClasses Samples MoreSamples JsFacts.

(** On provider names of the declared type the resolver is the one of the
    sections above. *)
Lemma resolveProviders_typed (h : Host) (options : ProviderOptions) :
  RunTime.resolveProviders h (RunTime.typed options) = resolveProviders h options.
Proof.
  unfold RunTime.resolveProviders, resolveProviders, RunTime.typed.
  cbn [RunTime.opt_provider RunTime.opt_token RunTime.opt_apiUrl
       RunTime.opt_whisperModel RunTime.opt_lang].
  destruct (opt_provider options) as [[| | |]|]; reflexivity.
Qed.






End ChainFacts.

(** ** More on transcript extraction *)

Module NormalizeExtFacts.
Import Js Normalize Samples JsFacts NormalizeFacts.

Lemma itemIf_length (i t x : option jsstring) : (length (itemIf i t x) ≤ 1)%nat.
Proof. unfold itemIf. destruct x as [s|]; [destruct (truthy s)|]; simpl; lia. Qed.

Lemma itemFromEntry_length (entry : json) : (length (itemFromEntry entry) ≤ 1)%nat.
Proof.
  destruct entry; cbn [itemFromEntry]; try apply itemIf_length; simpl; lia.
Qed.

Lemma flatMapEntries_length (value : list json) :
  (length (flatMapEntries value) ≤ length value)%nat.
Proof.
  unfold flatMapEntries. induction value as [|entry value IH]; simpl; [lia|].
  rewrite length_app. pose proof (itemFromEntry_length entry). lia.
Qed.

(** X13.  An entry of a collection gives at most one record, so an array
    payload never gives more records than it has entries (and an empty
    array gives none). *)
Theorem extractTranscriptItems_array_bound (items : list json) :
  (length (extractTranscriptItems (Some (JArray items))) ≤ length items)%nat ∧
  (∀ entry, length (itemFromEntry entry) ≤ 1)%nat.
Proof.
  split; [|apply itemFromEntry_length].
  cbn [extractTranscriptItems]. cbn zeta.
  destruct (0 <? length (flatMapEntries items))%nat; [apply flatMapEntries_length|].
  destruct items as [|item items]; [simpl; lia|].
  pose proof (itemIf_length None None (extractTextFromUnknown (JArray (item :: items)))).
  simpl length at 2. lia.
Qed.

Lemma flatMapEntries_strings (strings : list jsstring) :
  flatMapEntries (map JString strings) =
  map textOnly (filter (λ s, truthy s = true) (map trim strings)).
Proof.
  unfold flatMapEntries. induction strings as [|s strings IH]; [reflexivity|].
  cbn [map concat itemFromEntry]. rewrite IH.
  unfold itemIf, orNull. rewrite filter_cons.
  destruct (truthy (trim s)) eqn:Hs.
  - rewrite Hs. rewrite decide_True by reflexivity. reflexivity.
  - rewrite decide_False by discriminate. reflexivity.
Qed.

Lemma forallb_isString (strings : list jsstring) :
  forallb isString (map JString strings) = true.
Proof. induction strings as [|s strings IH]; [reflexivity|exact IH]. Qed.

Lemma omap_asString (strings : list jsstring) :
  omap asString (map JString strings) = strings.
Proof.
  induction strings as [|s strings IH]; [reflexivity|].
  cbn. f_equal. exact IH.
Qed.

(** X14.  An array of strings gives one record for each string that is
    not blank, in the order of the array, with the string trimmed as its
    text; blank strings give nothing. *)
Theorem extractTranscriptItems_strings (strings : list jsstring) :
  extractTranscriptItems (Some (JArray (map JString strings))) =
  map textOnly (filter (λ s, truthy s = true) (map trim strings)).
Proof.
  cbn [extractTranscriptItems]. cbn zeta. rewrite flatMapEntries_strings.
  destruct (0 <? length _)%nat eqn:Hlen; [reflexivity|].
  assert (Hnone : filter (λ s, truthy s = true) (map trim strings) = []).
  { destruct (filter _ _); [reflexivity|discriminate]. }
  rewrite Hnone. cbn [map].
  cbn [extractTextFromUnknown].
  destruct (length (map JString strings) =? 0)%nat; [reflexivity|].
  rewrite forallb_isString, omap_asString.
  unfold joinTrimmed. rewrite Hnone. reflexivity.
Qed.

(** X15.  In an object the first of [text], [transcript], [caption] and
    [content] that is neither missing nor null decides alone: when it holds
    text, that text is the result whatever else the object holds; when it
    holds none (a blank string, a number), the other three are not looked
    at, and only the fallback keys can still give a text. *)
Theorem extractTextFromUnknown_direct (obj : list (jsstring * json))
    (key : jsstring) (v : json) :
  firstPresent obj directKeys = Some key →
  get obj key = Some v →
  (∀ s, extractTextFromUnknown v = Some s →
     extractTextFromUnknown (JObject obj) = Some s) ∧
  (extractTextFromUnknown v = None →
     extractTextFromUnknown (JObject obj) =
     firstTruthy (λ k, extractTextFromValue (get obj k)) fallbackKeys).
Proof.
  intros Hkey Hv. cbn [extractTextFromUnknown]. rewrite Hkey. cbn zeta.
  rewrite applyAt_get, Hv.
  assert (Hfall : firstTruthy (applyAt extractTextFromUnknown obj) fallbackKeys =
                  firstTruthy (λ k, extractTextFromValue (get obj k)) fallbackKeys).
  { unfold fallbackKeys. cbn [firstTruthy]. rewrite !applyAt_get. reflexivity. }
  split.
  - intros s Hs. rewrite Hs. cbn [truthyOpt].
    apply extractTextFromUnknown_tight, tight_nonempty in Hs.
    destruct s; [congruence|reflexivity].
  - intros ->. cbn [truthyOpt]. exact Hfall.
Qed.

Lemma extractTextFromUnknown_direct_witness :
  extractTextFromUnknown
    (JObject [(str "text", JString (str "  "));
              (str "transcript", JString (str "hello"))]) =
  firstTruthy
    (λ k, extractTextFromValue
            (get [(str "text", JString (str "  "));
                  (str "transcript", JString (str "hello"))] k)) fallbackKeys.
Proof.
  apply (extractTextFromUnknown_direct
           [(str "text", JString (str "  ")); (str "transcript", JString (str "hello"))]
           (str "text") (JString (str "  "))); reflexivity.
Defined.

End NormalizeExtFacts.

(** ** More on subtitle parsing *)

Module SubtitlesExtFacts.
Import Js Regex Subtitles SubtitlesExt Samples JsFacts SubtitleFacts.

(** *** The scanners on the patterns of the cleaning step *)

Lemma starGreedy_all (p : N → bool) (s : jsstring) (caps : list jsstring) :
  ∃ rest, starGreedy p s (λ s', Some (s', caps)) = Some (rest, caps) ∧
          (length rest ≤ length s)%nat.
Proof.
  induction s as [|c s (rest & IH & Hlen)]; simpl.
  - exists []. split; [reflexivity|simpl; lia].
  - destruct (p c).
    + rewrite IH. exists rest. split; [reflexivity|lia].
    + exists (c :: s). split; [reflexivity|simpl; lia].
Qed.

Lemma exec_spaces (c : N) (s : jsstring) :
  if isWhiteSpace c
  then ∃ rest n, exec reSpaces (c :: s) = Some (rest, []) ∧
                 matched (c :: s) rest = S n
  else exec reSpaces (c :: s) = None.
Proof.
  unfold exec, reSpaces. cbn [matchAt].
  destruct (isWhiteSpace c); [|reflexivity].
  destruct (starGreedy_all isWhiteSpace s []) as (rest & Hrest & Hlen).
  exists rest, (length s - length rest)%nat. split.
  - exact Hrest.
  - unfold matched. simpl. lia.
Qed.

Lemma replace_spaces_plain (s : jsstring) (skip : nat) :
  plainSpaced (replaceFrom reSpaces (str " ") skip s).
Proof.
  revert skip. induction s as [|c s IH]; intros skip x Hx Hws.
  - cbn in Hx. inversion Hx.
  - cbn [replaceFrom] in Hx. destruct skip as [|n]; [|exact (IH n x Hx Hws)].
    pose proof (exec_spaces c s) as Hexec.
    destruct (isWhiteSpace c) eqn:Hc.
    + destruct Hexec as (rest & n & Hexec & Hmatched).
      rewrite Hexec, Hmatched in Hx. change (str " ") with [32] in Hx.
      apply elem_of_app in Hx as [Hx|Hx]; [|exact (IH n x Hx Hws)].
      apply list_elem_of_singleton in Hx. exact Hx.
    + rewrite Hexec in Hx. apply elem_of_cons in Hx as [->|Hx].
      * congruence.
      * exact (IH 0%nat x Hx Hws).
Qed.

Lemma replace_chr (c : N) (s : jsstring) :
  replaceAll (Chr c) [] s = filter (λ x, x ≠ c) s.
Proof.
  unfold replaceAll. induction s as [|x s IH]; [reflexivity|].
  cbn [replaceFrom]. unfold exec. cbn [matchAt].
  destruct (N.eqb_spec x c) as [->|Hne].
  - rewrite matched_one, filter_cons_False by tauto. exact IH.
  - rewrite filter_cons_True by exact Hne. f_equal. exact IH.
Qed.

Lemma trimStart_elem (s : jsstring) (c : N) : c ∈ trimStart s → c ∈ s.
Proof.
  destruct (trimStart_suffix s) as [pre Hpre]. intros Hc.
  rewrite Hpre. apply elem_of_app. right. exact Hc.
Qed.

Lemma trim_elem (s : jsstring) (c : N) : c ∈ trim s → c ∈ s.
Proof.
  unfold trim, trimEnd. intros Hc.
  apply elem_of_reverse, trimStart_elem, elem_of_reverse, trimStart_elem in Hc.
  exact Hc.
Qed.

Ltac clean_cases x :=
  unfold cleanSubtitleLine; cbv zeta;
  match goal with
  | |- context [replaceAll reSpaces (str " ") ?y] => generalize y
  end;
  intros x; destruct (_ || _).

Lemma cleanSubtitleLine_trimmed (line : jsstring) :
  trim (cleanSubtitleLine line) = cleanSubtitleLine line.
Proof. clean_cases x; [reflexivity|apply ApiFacts.trim_trim]. Qed.

Lemma cleanSubtitleLine_plain (line : jsstring) : plainSpaced (cleanSubtitleLine line).
Proof.
  clean_cases x; intros c Hc; [inversion Hc|].
  apply trim_elem in Hc. rewrite replace_chr in Hc.
  apply list_elem_of_filter in Hc as [_ Hc]. apply trim_elem in Hc.
  exact (replace_spaces_plain x 0 c Hc).
Qed.

Lemma cleanSubtitleLine_no_note (line : jsstring) : note ∉ cleanSubtitleLine line.
Proof.
  clean_cases x; [apply not_elem_of_nil|].
  intros Hin. apply trim_elem in Hin. rewrite replace_chr in Hin.
  apply list_elem_of_filter in Hin as [Hne _]. apply Hne. reflexivity.
Qed.

(** X16.  Whatever the line, what [cleanSubtitleLine] returns has no white
    space at either end, holds no eighth-note sign, and its only white
    space is the plain space: no tab, line feed or no-break space is left
    in it. *)
Theorem cleanSubtitleLine_clean (line : jsstring) :
  trim (cleanSubtitleLine line) = cleanSubtitleLine line ∧
  (note ∉ cleanSubtitleLine line) ∧
  (∀ c, c ∈ cleanSubtitleLine line → isWhiteSpace c = true → c = 32).
Proof.
  split; [apply cleanSubtitleLine_trimmed|].
  split; [apply cleanSubtitleLine_no_note|].
  intros c Hc Hws. exact (cleanSubtitleLine_plain line c Hc Hws).
Qed.

(** *** The output of the parsers *)

Lemma documentLines_cleaned (format : Format) (content line : jsstring) :
  line ∈ documentLines format content → ∃ raw, line = cleanSubtitleLine raw.
Proof.
  destruct format; cbn [documentLines]; unfold candidates, ttmlCandidates;
    intros Hin; apply list_elem_of_In, in_map_iff in Hin as (raw & <- & _);
    eexists; reflexivity.
Qed.

Lemma firstSeen_nil (l : list jsstring) : firstSeen l = [] → l = [].
Proof. destruct l; [reflexivity|discriminate]. Qed.

Lemma parseLines_elem (format : Format) (content line : jsstring) :
  line ∈ parseLines format content ↔
  line ≠ [] ∧ line ∈ documentLines format content.
Proof.
  rewrite parseLines_firstSeen, firstSeen_elem, list_elem_of_filter.
  unfold nonEmpty. rewrite ApiFacts.truthy_nonempty. reflexivity.
Qed.

Lemma parseLines_shape (format : Format) (content line : jsstring) :
  line ∈ parseLines format content →
  tight line ∧ plainSpaced line ∧ (note ∉ line).
Proof.
  intros Hin. apply parseLines_elem in Hin as [Hne Hin].
  apply documentLines_cleaned in Hin as [raw ->].
  split; [|split].
  - rewrite <- cleanSubtitleLine_trimmed. apply trim_tight.
    rewrite cleanSubtitleLine_trimmed. apply ApiFacts.truthy_nonempty, Hne.
  - apply cleanSubtitleLine_plain.
  - apply cleanSubtitleLine_no_note.
Qed.

Lemma elem_of_join (sep : jsstring) (parts : list jsstring) (c : N) :
  c ∈ join sep parts → c ∈ sep ∨ ∃ part, part ∈ parts ∧ c ∈ part.
Proof.
  induction parts as [|a parts IH]; intros Hc; [inversion Hc|].
  destruct parts as [|b parts].
  - right. exists a. split; [apply list_elem_of_here|exact Hc].
  - change (join sep (a :: b :: parts)) with (a ++ sep ++ join sep (b :: parts)) in Hc.
    apply elem_of_app in Hc as [Hc|Hc];
      [right; exists a; split; [apply list_elem_of_here|exact Hc]|].
    apply elem_of_app in Hc as [Hc|Hc]; [left; exact Hc|].
    destruct (IH Hc) as [Hsep|(part & Hpart & Hin)]; [left; exact Hsep|].
    right. exists part. split; [apply list_elem_of_further, Hpart|exact Hin].
Qed.

(** X17.  For each format the parsed text is one line of prose: it has no
    white space at either end (so the [trim()] that the yt-dlp provider
    applies to it changes nothing), its only white space is the plain
    space, with no line feed anywhere, and it holds no eighth-note sign. *)
Theorem parse_single_line (format : Format) (content : jsstring) :
  trim (parse format content) = parse format content ∧
  (∀ c, c ∈ parse format content → isWhiteSpace c = true → c = 32) ∧
  (10 ∉ parse format content) ∧
  (note ∉ parse format content).
Proof.
  assert (Hparse : parse format content = join (str " ") (parseLines format content))
    by (destruct format; reflexivity).
  rewrite Hparse.
  assert (Hchars : ∀ c, c ∈ join (str " ") (parseLines format content) →
            c = 32 ∨ ∃ line, line ∈ parseLines format content ∧ c ∈ line).
  { intros c Hc. apply elem_of_join in Hc as [Hc|Hc]; [left|right; exact Hc].
    change (str " ") with [32] in Hc. apply list_elem_of_singleton in Hc. exact Hc. }
  split; [|split; [|split]].
  - destruct (parseLines format content) as [|l ls] eqn:Hlines; [reflexivity|].
    apply tight_trim, tight_join; [discriminate|].
    apply Forall_forall. intros line Hline. rewrite <- Hlines in Hline.
    apply (parseLines_shape format content line Hline).
  - intros c Hc Hws. destruct (Hchars c Hc) as [->|(line & Hline & Hin)]; [reflexivity|].
    destruct (parseLines_shape format content line Hline) as (_ & Hplain & _).
    exact (Hplain c Hin Hws).
  - intros Hc. destruct (Hchars 10 Hc) as [Heq|(line & Hline & Hin)]; [discriminate|].
    destruct (parseLines_shape format content line Hline) as (_ & Hplain & _).
    discriminate (Hplain 10 Hin eq_refl).
  - intros Hc. destruct (Hchars note Hc) as [Heq|(line & Hline & Hin)]; [discriminate|].
    destruct (parseLines_shape format content line Hline) as (_ & _ & Hnote).
    exact (Hnote Hin).
Qed.

(** X18.  The parsed text is empty exactly when no line of the document is
    left after the skipped lines are dropped and the others cleaned: a file
    of headers, numbers, timestamps and bracketed annotations gives the
    empty string, and any other line shows in the output. *)
Theorem parse_empty (format : Format) (content : jsstring) :
  parse format content = [] ↔
  Forall (λ line, line = []) (documentLines format content).
Proof.
  assert (Hparse : parse format content = join (str " ") (parseLines format content))
    by (destruct format; reflexivity).
  rewrite Hparse, Forall_forall. split.
  - intros Hnil line Hline. destruct line as [|c line]; [reflexivity|].
    assert (Hin : c :: line ∈ parseLines format content)
      by (apply parseLines_elem; split; [discriminate|exact Hline]).
    destruct (parseLines format content) as [|l ls] eqn:Hlines; [inversion Hin|].
    exfalso. refine (tight_nonempty _ _ Hnil). apply tight_join; [discriminate|].
    apply Forall_forall. intros x Hx. rewrite <- Hlines in Hx.
    apply (parseLines_shape format content x Hx).
  - intros Hall. destruct (parseLines format content) as [|l ls] eqn:Hlines; [reflexivity|].
    assert (Hin : l ∈ parseLines format content) by (rewrite Hlines; apply list_elem_of_here).
    apply parseLines_elem in Hin as [Hne Hin]. contradiction (Hne (Hall l Hin)).
Qed.

Lemma skipped_srt_vtt (line : jsstring) : srtSkipped line = true → vttSkipped line = true.
Proof.
  unfold srtSkipped, vttSkipped. intros H.
  apply orb_true_iff in H as [H|H]; rewrite H, ?orb_true_r; reflexivity.
Qed.

(** X19.  The VTT parser skips every line the SRT parser skips, and some
    more (headers, notes, lines that start like a clock time): on the same
    content every line of the VTT output is a line of the SRT output. *)
Theorem vtt_lines_in_srt (content line : jsstring) :
  line ∈ parseLines Vtt content → line ∈ parseLines Srt content.
Proof.
  rewrite !parseLines_elem. intros [Hne Hin]. split; [exact Hne|].
  cbn [documentLines] in *. unfold candidates in *.
  apply list_elem_of_In, in_map_iff in Hin as (raw & Hraw & Hin).
  apply list_elem_of_In, in_map_iff. exists raw. split; [exact Hraw|].
  apply list_elem_of_In, list_elem_of_filter.
  apply list_elem_of_In, list_elem_of_filter in Hin as [Hkept Hin].
  split; [|exact Hin].
  destruct (srtSkipped raw) eqn:Hs; [|reflexivity].
  rewrite (skipped_srt_vtt raw Hs) in Hkept. discriminate.
Qed.

Lemma vtt_lines_in_srt_witness :
  str "never gonna give you up" ∈ parseLines Srt rollingVtt.
Proof.
  apply (vtt_lines_in_srt rollingVtt). by_evaluation.
Defined.

End SubtitlesExtFacts.

(** ** Video ids *)

Module YoutubeFacts.
Import Js Regex Youtube Samples JsFacts.

Lemma matchAt_times_cls {A} (n : nat) (p : N → bool) (s : jsstring)
    (caps : list jsstring) (k : jsstring → list jsstring → option A) :
  matchAt (times n (Cls p)) s caps k =
  if bool_decide (n ≤ length s)%nat && forallb p (take n s)
  then k (drop n s) caps else None.
Proof.
  revert s. induction n as [|n IH]; intros s.
  - cbn. rewrite drop_0. reflexivity.
  - change (times (S n) (Cls p)) with (Seq (Cls p) (times n (Cls p))).
    cbn [matchAt]. destruct s as [|x s]; [reflexivity|].
    cbn [take forallb drop length]. destruct (p x); [|rewrite andb_false_r; reflexivity].
    rewrite IH. cbn [andb].
    destruct (bool_decide_reflect (n ≤ length s)%nat) as [Hle|Hgt].
    + rewrite bool_decide_eq_true_2 by lia. reflexivity.
    + rewrite bool_decide_eq_false_2 by lia. reflexivity.
Qed.

Lemma validId_spec (s : jsstring) :
  validId s = true ↔ length s = 11%nat ∧ forallb isIdChar s = true.
Proof.
  unfold validId, testStart, exec, reVideoId, seqs. cbn [foldr matchAt].
  rewrite matchAt_times_cls.
  destruct (bool_decide_reflect (11 ≤ length s)%nat) as [Hle|Hgt]; cbn [andb].
  - destruct (forallb isIdChar (take 11 s)) eqn:Hall.
    + destruct (drop 11 s) as [|x rest] eqn:Hdrop.
      * apply (f_equal length) in Hdrop. rewrite length_drop in Hdrop. simpl in Hdrop.
        assert (Hlen : length s = 11%nat) by lia.
        rewrite take_ge in Hall by lia. tauto.
      * split; [discriminate|]. intros [Hlen _].
        apply (f_equal length) in Hdrop. rewrite length_drop in Hdrop.
        simpl in Hdrop. lia.
    + split; [discriminate|]. intros [Hlen Hs].
      rewrite take_ge in Hall by lia. congruence.
  - split; [discriminate|]. intros [Hlen _]. lia.
Qed.

Lemma isIdChar_codes (c : N) :
  isIdChar c = true ↔
  (97 ≤ c ∧ c ≤ 122) ∨ (65 ≤ c ∧ c ≤ 90) ∨ (48 ≤ c ∧ c ≤ 57) ∨ c = 95 ∨ c = 45.
Proof.
  unfold isIdChar.
  change (ch "a") with 97. change (ch "z") with 122. change (ch "A") with 65.
  change (ch "Z") with 90. change (ch "0") with 48. change (ch "9") with 57.
  change (ch "_") with 95. change (ch "-") with 45.
  rewrite !orb_true_iff, !andb_true_iff, !N.leb_le, !N.eqb_eq. tauto.
Qed.

Lemma isIdChar_solid (c : N) : isIdChar c = true → isWhiteSpace c = false.
Proof.
  intros Hc. apply isIdChar_codes in Hc.
  destruct (isWhiteSpace c) eqn:Hw; [|reflexivity].
  unfold isWhiteSpace in Hw.
  rewrite !orb_true_iff, !andb_true_iff, !N.leb_le, !N.eqb_eq in Hw. lia.
Qed.

Lemma validId_tight (s : jsstring) : validId s = true → tight s.
Proof.
  intros Hs. apply validId_spec in Hs as [Hlen Hall].
  rewrite forallb_forall in Hall.
  assert (Hhead : ∀ t, t ≠ [] → (∀ c, In c t → isIdChar c = true) → headSolid t = true).
  { intros [|c t] Hne Ht; [congruence|]. simpl.
    rewrite (isIdChar_solid c) by (apply Ht; left; reflexivity). reflexivity. }
  split; apply Hhead.
  - destruct s; [discriminate|discriminate].
  - exact Hall.
  - intros Hnil. apply (f_equal reverse) in Hnil.
    rewrite reverse_involutive in Hnil. subst s. discriminate.
  - intros c Hc. apply Hall. apply list_elem_of_In.
    apply list_elem_of_In in Hc. rewrite elem_of_reverse in Hc. exact Hc.
Qed.

Lemma ifValid_some (x : option jsstring) (id : jsstring) :
  ifValid x = Some id → validId id = true.
Proof.
  destruct x as [s|]; simpl; [|discriminate].
  destruct (truthy s); simpl; [|discriminate].
  destruct (validId s) eqn:Hs; [|discriminate].
  intros [= <-]. exact Hs.
Qed.

Lemma extractVideoId_validId (parseUrl : jsstring → option Url) (input id : jsstring) :
  extractVideoId parseUrl input = Some id → validId id = true.
Proof.
  unfold extractVideoId. cbv zeta.
  destruct (truthy (trim input)); cbn [negb]; [|discriminate].
  destruct (validId (trim input)) eqn:Hraw; [intros [= <-]; exact Hraw|].
  destruct (parseUrl (trim input)) as [url|]; [|discriminate].
  destruct (bool_decide _); [apply ifValid_some|].
  destruct (endsWith _ _); [|discriminate].
  destruct (ifValid (searchParams url (str "v"))) as [v|] eqn:Hv.
  - intros [= <-]. exact (ifValid_some _ _ Hv).
  - destruct (findIndex _ _); [apply ifValid_some|discriminate].
Qed.

(** X20.  Whatever the URL parser makes of the input, an id that
    [extractVideoId] returns has exactly 11 characters, each a letter, a
    digit, [_] or [-]. *)
Theorem extractVideoId_valid (parseUrl : jsstring → option Url) (input id : jsstring) :
  extractVideoId parseUrl input = Some id →
  length id = 11%nat ∧ Forall (λ c, isIdChar c = true) id.
Proof.
  intros Hid. apply extractVideoId_validId, validId_spec in Hid as [Hlen Hall].
  split; [exact Hlen|].
  apply Forall_forall. intros c Hc. rewrite forallb_forall in Hall.
  apply Hall, list_elem_of_In, Hc.
Qed.

Lemma extractVideoId_valid_witness :
  length (str "dQw4w9WgXcQ") = 11%nat ∧
  Forall (λ c, isIdChar c = true) (str "dQw4w9WgXcQ").
Proof.
  exact (extractVideoId_valid (λ _, None) (str "  dQw4w9WgXcQ ") (str "dQw4w9WgXcQ")
           eq_refl).
Defined.

(** X21.  An input that is a valid id once trimmed is returned trimmed,
    without the URL parser being asked; so [extractVideoId] gives back any
    id it has returned, whatever the parser. *)
Theorem extractVideoId_raw (parseUrl parseUrl' : jsstring → option Url)
    (input : jsstring) :
  (validId (trim input) = true → extractVideoId parseUrl input = Some (trim input)) ∧
  (∀ id, extractVideoId parseUrl input = Some id →
         extractVideoId parseUrl' id = Some id).
Proof.
  assert (Hraw : ∀ parse s, validId (trim s) = true →
            extractVideoId parse s = Some (trim s)).
  { intros parse s Hvalid. unfold extractVideoId. cbv zeta.
    rewrite Hvalid.
    pose proof (tight_nonempty _ (validId_tight _ Hvalid)) as Hne.
    destruct (trim s); [congruence|reflexivity]. }
  split; [apply Hraw|].
  intros id Hid.
  pose proof (extractVideoId_validId parseUrl input id Hid) as Hvalid.
  pose proof (tight_trim _ (validId_tight _ Hvalid)) as Htrim.
  rewrite <- Htrim at 2. apply Hraw. rewrite Htrim. exact Hvalid.
Qed.

End YoutubeFacts.

(** ** The article formatter *)

Module ArticleFacts.
Import Js Regex Article ArticleExt Samples MoreSamples JsFacts.

(** *** wrapByWords *)

Lemma wrap_loop (targetWords : Target) (words : list jsstring) (st : Wrap)
    (groups : list (list jsstring)) :
  wrapped st = map (join (str " ")) groups →
  Forall (fullWrap targetWords) groups →
  roomLeft targetWords (pending st) →
  ∃ groups' rest,
    let final := foldl (wrapStep targetWords) st words in
    wrapped final = map (join (str " ")) groups' ∧
    pending final = rest ∧
    concat groups' ++ rest = concat groups ++ pending st ++ words ∧
    Forall (fullWrap targetWords) groups' ∧
    roomLeft targetWords rest.
Proof.
  revert st groups. induction words as [|word words IH]; intros st groups Hw Hfull Hroom.
  - exists groups, (pending st). cbn. rewrite app_nil_r. repeat split; assumption.
  - cbn [foldl].
    destruct (reached (length (pending st ++ [word])) targetWords) eqn:Hreached.
    + assert (Hstep : wrapStep targetWords st word =
                {| wrapped := wrapped st ++ [join (str " ") (pending st ++ [word])];
                   pending := [] |})
        by (unfold wrapStep; cbv zeta; rewrite Hreached; reflexivity).
      rewrite Hstep. clear Hstep.
      destruct (IH {| wrapped := wrapped st ++ [join (str " ") (pending st ++ [word])];
                      pending := [] |} (groups ++ [pending st ++ [word]]))
        as (groups' & rest & Hw' & Hp' & Hcat & Hfull' & Hroom').
      * cbn. rewrite Hw, map_app. reflexivity.
      * apply Forall_app. split; [exact Hfull|]. constructor; [|constructor].
        destruct targetWords as [k|]; [|discriminate]. cbn in *.
        apply Nat.leb_le in Hreached. rewrite length_app in *. cbn in *. lia.
      * destruct targetWords as [k|]; cbn; [lia|exact I].
      * exists groups', rest. cbn zeta in *.
        split; [exact Hw'|]. split; [exact Hp'|]. split; [|split; assumption].
        rewrite Hcat. cbn. rewrite concat_app. cbn.
        rewrite app_nil_r, <- !app_assoc. reflexivity.
    + assert (Hstep : wrapStep targetWords st word =
                {| wrapped := wrapped st; pending := pending st ++ [word] |})
        by (unfold wrapStep; cbv zeta; rewrite Hreached; reflexivity).
      rewrite Hstep. clear Hstep.
      destruct (IH {| wrapped := wrapped st; pending := pending st ++ [word] |} groups)
        as (groups' & rest & Hw' & Hp' & Hcat & Hfull' & Hroom').
      * exact Hw.
      * exact Hfull.
      * destruct targetWords as [k|]; cbn in *; [|exact I].
        apply Nat.leb_gt in Hreached. rewrite length_app in *. cbn in *. lia.
      * exists groups', rest. cbn zeta in *.
        split; [exact Hw'|]. split; [exact Hp'|]. split; [|split; assumption].
        rewrite Hcat. cbn. rewrite <- !app_assoc. reflexivity.
Qed.

(** X22.  [wrapByWords] cuts the words, in their order and without losing
    one, into paragraphs of exactly the target number of words (of one
    word when the target is below one), followed by a last, shorter
    paragraph with the words that are left, if any; a target that no count
    reaches gives a single paragraph. *)
Theorem wrapByWords_groups (words : list jsstring) (targetWords : Target) :
  ∃ groups rest,
    wrapByWords words targetWords =
      map (join (str " ")) (groups ++ lastGroup rest) ∧
    concat groups ++ rest = words ∧
    Forall (fullWrap targetWords) groups ∧
    roomLeft targetWords rest.
Proof.
  destruct (wrap_loop targetWords words {| wrapped := []; pending := [] |} [])
    as (groups & rest & Hw & Hp & Hcat & Hfull & Hroom).
  - reflexivity.
  - constructor.
  - destruct targetWords as [k|]; cbn; [lia|exact I].
  - exists groups, rest. cbn zeta in *. split; [|repeat split; assumption].
    unfold wrapByWords. cbv zeta.
    change (foldl _ _ words) with (foldl (wrapStep targetWords)
                                     {| wrapped := []; pending := [] |} words).
    rewrite Hw, Hp, map_app.
    destruct rest as [|word rest]; [|reflexivity].
    cbn [lastGroup map]. rewrite app_nil_r. reflexivity.
Qed.

(** *** The scanners on the patterns of the formatter *)

Lemma starGreedy_first {A : Type} (k : jsstring → option A) (s : jsstring) (a : A) :
  k (trimStart s) = Some a → starGreedy isWhiteSpace s k = Some a.
Proof.
  intros Hk. induction s as [|c s IH]; [exact Hk|].
  cbn [starGreedy trimStart] in *. destruct (isWhiteSpace c); [|exact Hk].
  rewrite (IH Hk). reflexivity.
Qed.

Lemma starGreedy_spaces {A : Type} (k : jsstring → option A) (s : jsstring) :
  (∀ c s', isWhiteSpace c = true → k (c :: s') = None) →
  starGreedy isWhiteSpace s k = k (trimStart s).
Proof.
  intros Hk. induction s as [|c s IH]; [reflexivity|].
  cbn [starGreedy trimStart]. destruct (isWhiteSpace c) eqn:Hc; [|reflexivity].
  rewrite IH. destruct (k (trimStart s)); [reflexivity|]. apply Hk, Hc.
Qed.

Lemma exec_reSpaces (c : N) (s : jsstring) :
  exec reSpaces (c :: s) = if isWhiteSpace c then Some (trimStart s, []) else None.
Proof.
  unfold exec, reSpaces. cbn [matchAt].
  destruct (isWhiteSpace c); [|reflexivity].
  apply starGreedy_first. reflexivity.
Qed.

Lemma trimStart_length (s : jsstring) :
  ∃ pre, s = pre ++ trimStart s ∧ (length s - length (trimStart s))%nat = length pre.
Proof.
  destruct (trimStart_suffix s) as [pre Hpre]. exists pre. split; [exact Hpre|].
  rewrite Hpre at 1. rewrite length_app. lia.
Qed.

Lemma matched_trimStart (c : N) (s : jsstring) :
  matched (c :: s) (trimStart s) = S (length s - length (trimStart s)).
Proof.
  destruct (trimStart_length s) as (pre & Hpre & Hlen). unfold matched.
  rewrite Hpre at 1. cbn [length]. rewrite length_app in *. lia.
Qed.

Lemma isPunct_codes (c : N) :
  isPunct c = true → c = 44 ∨ c = 46 ∨ c = 33 ∨ c = 63 ∨ c = 59 ∨ c = 58.
Proof.
  unfold isPunct.
  change (ch ",") with 44; change (ch ".") with 46; change (ch "!") with 33;
    change (ch "?") with 63; change (ch ";") with 59; change (ch ":") with 58.
  rewrite !orb_true_iff, !N.eqb_eq. tauto.
Qed.

Lemma isPunct_solid (c : N) : isPunct c = true → isWhiteSpace c = false.
Proof.
  intros Hc. apply isPunct_codes in Hc.
  destruct Hc as [-> | [-> | [-> | [-> | [-> | ->]]]]]; reflexivity.
Qed.

Lemma isEnd_punct (c : N) : isEnd c = true → isPunct c = true.
Proof.
  unfold isEnd, isPunct. rewrite !orb_true_iff. tauto.
Qed.

Lemma space_not_punct (c : N) : isWhiteSpace c = true → isPunct c = false.
Proof.
  intros Hc. destruct (isPunct c) eqn:Hp; [|reflexivity].
  apply isPunct_solid in Hp. congruence.
Qed.

Lemma space_not_end (c : N) : isWhiteSpace c = true → isEnd c = false.
Proof.
  intros Hc. destruct (isEnd c) eqn:He; [|reflexivity].
  apply isEnd_punct, isPunct_solid in He. congruence.
Qed.

Lemma exec_reSpacePunct (c : N) (s : jsstring) :
  exec reSpacePunct (c :: s) =
    if isWhiteSpace c then
      match trimStart s with
      | d :: rest => if isPunct d then Some (rest, [[d]]) else None
      | [] => None
      end
    else None.
Proof.
  unfold exec, reSpacePunct, seqs. cbn [foldr matchAt].
  destruct (isWhiteSpace c); [|reflexivity].
  rewrite starGreedy_spaces.
  - destruct (trimStart s) as [|d rest]; [reflexivity|].
    destruct (isPunct d); [|reflexivity].
    replace (length (d :: rest) - length rest)%nat with 1%nat by (cbn [length]; lia).
    reflexivity.
  - intros x s' Hx. rewrite (space_not_punct x Hx). reflexivity.
Qed.

Lemma replaceFrom_skip (r : regex) (rep pre s : jsstring) :
  replaceFrom r rep (length pre) (pre ++ s) = replaceFrom r rep 0 s.
Proof. induction pre as [|c pre IH]; [reflexivity|exact IH]. Qed.

Lemma replaceWithFrom_skip (r : regex) (rep : list jsstring → jsstring)
    (pre s : jsstring) :
  replaceWithFrom r rep (length pre) (pre ++ s) = replaceWithFrom r rep 0 s.
Proof. induction pre as [|c pre IH]; [reflexivity|exact IH]. Qed.

Lemma replace_spaces_cons (rep : jsstring) (c : N) (s : jsstring) :
  replaceAll reSpaces rep (c :: s) =
    if isWhiteSpace c then rep ++ replaceAll reSpaces rep (trimStart s)
    else c :: replaceAll reSpaces rep s.
Proof.
  unfold replaceAll. cbn [replaceFrom]. rewrite exec_reSpaces.
  destruct (isWhiteSpace c); [|reflexivity].
  rewrite matched_trimStart. f_equal.
  destruct (trimStart_length s) as (pre & Hpre & ->).
  rewrite Hpre at 1. apply replaceFrom_skip.
Qed.

Lemma replaceWith_cons (c : N) (s : jsstring) :
  replaceWithFrom reSpacePunct group1 0 (c :: s) =
    match trimStart s with
    | d :: rest =>
      if isWhiteSpace c && isPunct d
      then d :: replaceWithFrom reSpacePunct group1 0 rest
      else c :: replaceWithFrom reSpacePunct group1 0 s
    | [] => c :: replaceWithFrom reSpacePunct group1 0 s
    end.
Proof.
  cbn [replaceWithFrom]. rewrite exec_reSpacePunct.
  destruct (isWhiteSpace c); [|destruct (trimStart s); reflexivity].
  destruct (trimStart_length s) as (pre & Hpre & Hlen).
  destruct (trimStart s) as [|d rest]; [reflexivity|].
  cbn [andb]. destruct (isPunct d); [|reflexivity].
  assert (Hm : matched (c :: s) rest = S (length (pre ++ [d]))).
  { unfold matched. rewrite Hpre. cbn [length]. rewrite !length_app. cbn [length]. lia. }
  rewrite Hm. change (group1 [[d]]) with [d]. cbn [app]. f_equal.
  rewrite Hpre at 1.
  replace (pre ++ d :: rest) with ((pre ++ [d]) ++ rest) by (rewrite <- app_assoc; reflexivity).
  apply replaceWithFrom_skip.
Qed.

(** *** Adjacent characters *)

Lemma adjacent_free (ok : N → N → bool) (a : N) (s : jsstring) :
  (∀ b, ok a b = true) → adjacent ok (a :: s) = adjacent ok s.
Proof. intros Ha. cbn [adjacent]. destruct s as [|b s]; [reflexivity|]. rewrite Ha. reflexivity. Qed.

Lemma adjacent_cons (ok : N → N → bool) (a b : N) (s : jsstring) :
  adjacent ok (a :: b :: s) = ok a b && adjacent ok (b :: s).
Proof. reflexivity. Qed.

Lemma adjacent_tail (ok : N → N → bool) (a : N) (s : jsstring) :
  adjacent ok (a :: s) = true → adjacent ok s = true.
Proof. cbn [adjacent]. intros H. apply andb_true_iff in H as [_ H]. exact H. Qed.

Lemma adjacent_app (ok : N → N → bool) (a b : jsstring) :
  adjacent ok (a ++ b) = true → adjacent ok a = true ∧ adjacent ok b = true.
Proof.
  induction a as [|x a IH]; intros H; [split; [reflexivity|exact H]|].
  pose proof (adjacent_tail ok x (a ++ b) H) as Htail.
  destruct (IH Htail) as [Ha Hb]. split; [|exact Hb].
  cbn [adjacent]. rewrite Ha, andb_true_r.
  destruct a as [|y a]; [reflexivity|].
  cbn [app adjacent] in H. apply andb_true_iff in H as [H _]. exact H.
Qed.

Lemma trimEnd_prefix (s : jsstring) : ∃ post, s = trimEnd s ++ post.
Proof.
  unfold trimEnd. destruct (trimStart_suffix (reverse s)) as [pre Hpre].
  exists (reverse pre). rewrite <- reverse_app, <- Hpre, reverse_involutive. reflexivity.
Qed.

Lemma adjacent_trim (ok : N → N → bool) (s : jsstring) :
  adjacent ok s = true → adjacent ok (trim s) = true.
Proof.
  intros H. unfold trim.
  destruct (trimStart_suffix s) as [pre Hpre].
  destruct (trimEnd_prefix (trimStart s)) as [post Hpost].
  rewrite Hpre in H. apply adjacent_app in H as [_ H].
  rewrite Hpost in H. apply adjacent_app in H as [H _]. exact H.
Qed.

(** *** normalizeText *)

Lemma replace_spaces_head (s : jsstring) :
  headSolid s = true → headSolid (replaceAll reSpaces (str " ") s) = true.
Proof.
  destruct s as [|c s]; [discriminate|]. intros Hc.
  rewrite replace_spaces_cons. cbn [headSolid] in Hc.
  apply negb_true_iff in Hc. rewrite Hc. cbn [headSolid]. rewrite Hc. reflexivity.
Qed.

Lemma singleSpaced_space (s : jsstring) :
  s = [] ∨ headSolid s = true → singleSpaced s = true → singleSpaced (32 :: s) = true.
Proof.
  unfold singleSpaced. intros Hs Hsingle. cbn [adjacent]. rewrite Hsingle, andb_true_r.
  destruct s as [|d s]; [reflexivity|].
  destruct Hs as [Hs|Hs]; [discriminate|]. cbn [headSolid] in Hs.
  apply negb_true_iff in Hs. rewrite Hs. reflexivity.
Qed.

Lemma replace_spaces_single (s : jsstring) :
  singleSpaced (replaceAll reSpaces (str " ") s) = true.
Proof.
  remember (length s) as n eqn:Hn. revert s Hn.
  induction n as [n IH] using lt_wf_ind. intros s Hn.
  destruct s as [|c s]; [reflexivity|].
  rewrite replace_spaces_cons. destruct (isWhiteSpace c) eqn:Hc.
  - change (str " " ++ ?x) with (32 :: x).
    destruct (trimStart_length s) as (pre & Hpre & _).
    apply singleSpaced_space.
    + destruct (trimStart_head s) as [->|Hhead]; [left; reflexivity|].
      right. apply replace_spaces_head, Hhead.
    + apply (IH (length (trimStart s))); [|reflexivity].
      subst n. cbn [length]. rewrite Hpre at 2. rewrite length_app. lia.
  - unfold singleSpaced. rewrite adjacent_free by (intros b; rewrite Hc; reflexivity).
    apply (IH (length s)); [|reflexivity]. subst n. cbn [length]. lia.
Qed.

Lemma replaceWith_elem (skip : nat) (s : jsstring) (x : N) :
  x ∈ replaceWithFrom reSpacePunct group1 skip s → x ∈ s.
Proof.
  revert skip. induction s as [|c s IH]; intros skip Hx; [exact Hx|].
  cbn [replaceWithFrom] in Hx. destruct skip as [|n].
  - rewrite exec_reSpacePunct in Hx.
    assert (Hcopy : x ∈ c :: replaceWithFrom reSpacePunct group1 0 s → x ∈ c :: s).
    { intros H. apply elem_of_cons in H as [->|H]; [left|right; exact (IH _ H)]. }
    destruct (isWhiteSpace c); [|exact (Hcopy Hx)].
    destruct (trimStart_suffix s) as [pre Hpre].
    destruct (trimStart s) as [|d rest]; [exact (Hcopy Hx)|].
    destruct (isPunct d); [|exact (Hcopy Hx)].
    change (group1 [[d]]) with [d] in Hx.
    assert (Hd : x ∈ [d] → x ∈ c :: s).
    { intros H. apply list_elem_of_singleton in H as ->.
      right. rewrite Hpre. apply elem_of_app. right. left. }
    destruct (matched (c :: s) rest) as [|n];
      apply elem_of_app in Hx as [Hx|Hx];
      [exact (Hd Hx)|exact (Hcopy Hx)|exact (Hd Hx)|right; exact (IH _ Hx)].
  - right. exact (IH _ Hx).
Qed.

Lemma replaceWith_tidy (s : jsstring) :
  singleSpaced s = true → tidy (replaceWithFrom reSpacePunct group1 0 s) = true.
Proof.
  remember (length s) as n eqn:Hn. revert s Hn.
  induction n as [n IH] using lt_wf_ind. intros s Hn Hsingle.
  destruct s as [|c s]; [reflexivity|].
  assert (Htail : tidy (replaceWithFrom reSpacePunct group1 0 s) = true).
  { apply (IH (length s)); [subst n; cbn [length]; lia|reflexivity|].
    exact (adjacent_tail _ c s Hsingle). }
  rewrite replaceWith_cons.
  destruct (isWhiteSpace c) eqn:Hc.
  - destruct s as [|d s]; [reflexivity|].
    assert (Hd : isWhiteSpace d = false).
    { unfold singleSpaced in Hsingle. cbn [adjacent] in Hsingle.
      apply andb_true_iff in Hsingle as [Hcd _]. rewrite Hc in Hcd.
      apply negb_true_iff in Hcd. exact Hcd. }
    cbn [trimStart]. rewrite Hd. cbn [andb].
    destruct (isPunct d) eqn:Hp.
    + unfold tidy. rewrite adjacent_free by (intros b; rewrite Hd; reflexivity).
      apply (IH (length s)); [subst n; cbn [length]; lia|reflexivity|].
      exact (adjacent_tail _ d s (adjacent_tail _ c (d :: s) Hsingle)).
    + assert (Hcopy : replaceWithFrom reSpacePunct group1 0 (d :: s) =
                      d :: replaceWithFrom reSpacePunct group1 0 s).
      { rewrite replaceWith_cons, Hd. destruct (trimStart s); reflexivity. }
      rewrite Hcopy in *. unfold tidy in *.
      rewrite adjacent_cons, Htail, Hc, Hd, Hp. reflexivity.
  - assert (Hcopy : ∀ y, tidy y = true → tidy (c :: y) = true).
    { intros y Hy. unfold tidy. rewrite adjacent_free by (intros b; rewrite Hc; reflexivity).
      exact Hy. }
    destruct (trimStart s); apply Hcopy, Htail.
Qed.

Lemma normalizeText_trimmed (input : jsstring) :
  trim (normalizeText input) = normalizeText input.
Proof. apply ApiFacts.trim_trim. Qed.

Lemma normalizeText_plain (input : jsstring) :
  SubtitlesExt.plainSpaced (normalizeText input).
Proof.
  intros c Hc. apply SubtitlesExtFacts.trim_elem, replaceWith_elem in Hc.
  exact (SubtitlesExtFacts.replace_spaces_plain input 0 c Hc).
Qed.

Lemma normalizeText_tidy (input : jsstring) : tidy (normalizeText input) = true.
Proof. apply adjacent_trim, replaceWith_tidy, replace_spaces_single. Qed.

(** A text in the form [normalizeText] gives. *)

Lemma trimStart_free (s : jsstring) : s = [] ∨ headSolid s = true → trimStart s = s.
Proof. intros [->|Hs]; [reflexivity|apply trimStart_solid, Hs]. Qed.

Lemma single_next (ok : N → N → bool) (c : N) (s : jsstring) :
  isWhiteSpace c = true →
  (∀ b, ok c b = true → isWhiteSpace b = false) →
  adjacent ok (c :: s) = true → s = [] ∨ headSolid s = true.
Proof.
  intros Hc Hok H. destruct s as [|d s]; [left; reflexivity|right].
  cbn [adjacent] in H. apply andb_true_iff in H as [H _].
  cbn [headSolid]. rewrite (Hok d H). reflexivity.
Qed.

Lemma replace_spaces_fixed (s : jsstring) :
  SubtitlesExt.plainSpaced s → singleSpaced s = true →
  replaceAll reSpaces (str " ") s = s.
Proof.
  induction s as [|c s IH]; intros Hplain Hsingle; [reflexivity|].
  assert (Htail : replaceAll reSpaces (str " ") s = s).
  { apply IH; [|exact (adjacent_tail _ c s Hsingle)].
    intros x Hx. apply Hplain. right. exact Hx. }
  rewrite replace_spaces_cons. destruct (isWhiteSpace c) eqn:Hc.
  - rewrite (Hplain c) by (left || exact Hc). rewrite (Hplain c) in Hsingle, Hc by (left || exact Hc).
    rewrite trimStart_free, Htail; [reflexivity|].
    apply (single_next (λ a b, negb (isWhiteSpace a && isWhiteSpace b)) 32 s Hc);
      [|exact Hsingle].
    intros b Hb. rewrite Hc in Hb. apply negb_true_iff in Hb. exact Hb.
  - rewrite Htail. reflexivity.
Qed.

Lemma replaceWith_fixed (s : jsstring) :
  tidy s = true → replaceWithFrom reSpacePunct group1 0 s = s.
Proof.
  induction s as [|c s IH]; intros Htidy; [reflexivity|].
  pose proof (IH (adjacent_tail _ c s Htidy)) as Htail.
  rewrite replaceWith_cons, Htail.
  destruct (isWhiteSpace c) eqn:Hc; [|destruct (trimStart s); reflexivity].
  destruct s as [|d s]; [reflexivity|].
  unfold tidy in Htidy. rewrite adjacent_cons, Hc in Htidy.
  apply andb_true_iff in Htidy as [Hd _].
  apply negb_true_iff, orb_false_iff in Hd as [Hd Hp].
  cbn [trimStart]. rewrite Hd, Hp. reflexivity.
Qed.

Lemma tidy_single (s : jsstring) : tidy s = true → singleSpaced s = true.
Proof.
  unfold tidy, singleSpaced. induction s as [|c s IH]; [reflexivity|].
  destruct s as [|d s]; [reflexivity|].
  rewrite !adjacent_cons, !andb_true_iff. intros [Hcd Htail].
  split; [|exact (IH Htail)].
  destruct (isWhiteSpace c); [|reflexivity]. destruct (isWhiteSpace d); [discriminate|reflexivity].
Qed.

Lemma normalizeText_fixed (text : jsstring) :
  trim text = text → SubtitlesExt.plainSpaced text → tidy text = true →
  normalizeText text = text.
Proof.
  intros Htrim Hplain Htidy. unfold normalizeText.
  rewrite replace_spaces_fixed, replaceWith_fixed;
    [exact Htrim|exact Htidy|exact Hplain|exact (tidy_single text Htidy)].
Qed.

(** X23.  Whatever the input, the text [normalizeText] returns has no white
    space at either end, its only white space is the plain space, and no
    white space in it is followed by more white space or by one of the
    punctuation marks [, . ! ? ; :]. *)
Theorem normalizeText_shape (input : jsstring) :
  trim (normalizeText input) = normalizeText input ∧
  (∀ c, c ∈ normalizeText input → isWhiteSpace c = true → c = 32) ∧
  tidy (normalizeText input) = true.
Proof.
  split; [apply normalizeText_trimmed|].
  split; [|apply normalizeText_tidy].
  intros c Hc Hws. exact (normalizeText_plain input c Hc Hws).
Qed.

(** X24.  The texts [normalizeText] leaves as they are, are exactly the
    texts of that form: trimmed, with plain spaces only, none of them
    followed by white space or by a punctuation mark. *)
Theorem normalizeText_fixed_points (text : jsstring) :
  normalizeText text = text ↔
  trim text = text ∧
  (∀ c, c ∈ text → isWhiteSpace c = true → c = 32) ∧
  tidy text = true.
Proof.
  split.
  - intros Hfixed. rewrite <- Hfixed.
    split; [apply normalizeText_trimmed|].
    split; [|apply normalizeText_tidy].
    intros c Hc Hws. exact (normalizeText_plain text c Hc Hws).
  - intros (Htrim & Hplain & Htidy). apply normalizeText_fixed; assumption.
Qed.

(** X25.  [normalizeText] is idempotent: normalizing a normalized text
    changes nothing. *)
Theorem normalizeText_idempotent (input : jsstring) :
  normalizeText (normalizeText input) = normalizeText input.
Proof.
  apply normalizeText_fixed.
  - apply normalizeText_trimmed.
  - apply normalizeText_plain.
  - apply normalizeText_tidy.
Qed.

(** *** Sentences and words *)

Lemma splitFrom_behind (r : regex) (x : N) (s : jsstring) (skip : nat) (cur : jsstring) :
  splitFrom r skip cur s = splitBehindFrom (λ _, true) r (Some x) skip cur s.
Proof.
  revert x skip cur. induction s as [|c s IH]; intros x skip cur; [reflexivity|].
  cbn [splitFrom splitBehindFrom]. destruct skip as [|n]; [|apply IH].
  destruct (exec r (c :: s)) as [[rest caps]|]; [|apply IH].
  destruct (matched (c :: s) rest); [apply IH|f_equal; apply IH].
Qed.

Lemma trimStart_keeps_solid (s : jsstring) : Exists solid s → Exists solid (trimStart s).
Proof.
  induction s as [|c s IH]; intros H; [exact H|].
  cbn [trimStart]. destruct (isWhiteSpace c) eqn:Hc; [|exact H].
  apply IH. apply Exists_cons in H as [H|H]; [unfold solid in H; congruence|exact H].
Qed.

Lemma reverse_keeps_solid (s : jsstring) : Exists solid s → Exists solid (reverse s).
Proof.
  rewrite !Exists_exists. intros (c & Hin & Hc). exists c.
  split; [apply elem_of_reverse, Hin|exact Hc].
Qed.

Lemma drop_trimStart (s : jsstring) :
  drop (length s - length (trimStart s)) s = trimStart s.
Proof.
  destruct (trimStart_length s) as (pre & Hpre & ->).
  rewrite Hpre at 1. apply drop_app_length.
Qed.

Lemma splitBehind_solid (behind : N → bool) (s : jsstring) (prev : option N)
    (skip : nat) (cur : jsstring) :
  Exists solid cur ∨ Exists solid (drop skip s) →
  Exists (Exists solid) (splitBehindFrom behind reSpaces prev skip cur s).
Proof.
  revert prev skip cur. induction s as [|c s IH]; intros prev skip cur H.
  - cbn [splitBehindFrom]. apply Exists_cons. left.
    destruct H as [H|H]; [apply reverse_keeps_solid, H|].
    rewrite drop_nil in H. inversion H.
  - cbn [splitBehindFrom]. destruct skip as [|n]; [|apply IH, H].
    assert (Hpush : Exists (Exists solid)
                      (splitBehindFrom behind reSpaces (Some c) 0 (c :: cur) s)).
    { apply IH. destruct H as [H|H]; [left; apply Exists_cons; right; exact H|].
      cbn [drop] in H. apply Exists_cons in H as [H|H].
      - left. apply Exists_cons. left. exact H.
      - right. exact H. }
    rewrite exec_reSpaces.
    destruct (match prev with Some b => behind b | None => false end);
      [|exact Hpush].
    destruct (isWhiteSpace c) eqn:Hc; [|exact Hpush].
    rewrite matched_trimStart. apply Exists_cons.
    destruct H as [H|H]; [left; apply reverse_keeps_solid, H|right].
    apply IH. right. rewrite drop_trimStart. apply trimStart_keeps_solid.
    cbn [drop] in H. apply Exists_cons in H as [H|H]; [|exact H].
    unfold solid in H. congruence.
Qed.

Lemma trim_solid (s : jsstring) : Exists solid s → trim s ≠ [].
Proof.
  intros H. unfold trim, trimEnd.
  apply trimStart_keeps_solid, reverse_keeps_solid, trimStart_keeps_solid,
    reverse_keeps_solid in H.
  intros Hnil. rewrite Hnil in H. inversion H.
Qed.

Lemma headSolid_solid (s : jsstring) : headSolid s = true → Exists solid s.
Proof.
  destruct s as [|c s]; [discriminate|]. cbn [headSolid]. intros Hc.
  apply Exists_cons. left. apply negb_true_iff, Hc.
Qed.

Lemma solid_trim (s : jsstring) : trim s ≠ [] → Exists solid s.
Proof.
  intros Hne. apply ApiFacts.truthy_nonempty, trim_tight in Hne as [Hhead _].
  apply headSolid_solid in Hhead. rewrite Exists_exists in *.
  destruct Hhead as (c & Hin & Hc). exists c.
  split; [apply SubtitlesExtFacts.trim_elem, Hin|exact Hc].
Qed.

Lemma filter_truthy_solid (pieces : list jsstring) :
  Exists (λ piece, piece ≠ []) pieces →
  filter (λ s, truthy s = true) pieces ≠ [].
Proof.
  rewrite Exists_exists. intros (piece & Hin & Hne) Hnil.
  assert (Hfil : piece ∈ filter (λ s, truthy s = true) pieces).
  { apply list_elem_of_filter. split; [apply ApiFacts.truthy_nonempty, Hne|exact Hin]. }
  rewrite Hnil in Hfil. inversion Hfil.
Qed.

Lemma splitSentences_solid (text : jsstring) :
  trim text ≠ [] → splitSentences text ≠ [].
Proof.
  intros Hne. apply solid_trim in Hne.
  unfold splitSentences. cbv zeta. apply filter_truthy_solid.
  pose proof (splitBehind_solid isEnd text None 0 [] (or_intror Hne)) as Hpieces.
  rewrite Exists_exists in *. destruct Hpieces as (piece & Hin & Hsolid).
  exists (trim piece). split; [|apply trim_solid, Hsolid].
  apply list_elem_of_In, in_map, list_elem_of_In, Hin.
Qed.

Lemma splitSentences_tight (text sentence : jsstring) :
  sentence ∈ splitSentences text → tight sentence.
Proof.
  unfold splitSentences. cbv zeta. intros Hin.
  apply list_elem_of_filter in Hin as [Htruthy Hin].
  apply list_elem_of_In, in_map_iff in Hin as (piece & <- & _).
  apply trim_tight, Htruthy.
Qed.

Lemma wordsOf_tight (sentence : jsstring) : tight sentence → wordsOf sentence ≠ [].
Proof.
  intros [Hhead _]. unfold wordsOf, split. apply filter_truthy_solid.
  rewrite (splitFrom_behind reSpaces 0).
  pose proof (splitBehind_solid (λ _, true) sentence (Some 0) 0 []
                (or_intror (headSolid_solid sentence Hhead))) as Hpieces.
  rewrite Exists_exists in *. destruct Hpieces as (piece & Hin & Hsolid).
  exists piece. split; [exact Hin|].
  intros ->. inversion Hsolid.
Qed.

(** *** toParagraphs *)

Lemma countWords_snoc (group : list jsstring) (sentence : jsstring) :
  countWords (group ++ [sentence]) = (countWords group + length (wordsOf sentence))%nat.
Proof. unfold countWords. rewrite map_app, sum_list_with_app. cbn [map sum_list_with]. unfold id. lia. Qed.

Lemma addSentence_step (targetWords : Target) (st : Flow) (sentence : jsstring) :
  tight sentence →
  addSentence targetWords st sentence =
    if reached (wordCount st) targetWords && (0 <? length (current st))%nat
    then {| paragraphs := paragraphs st ++ [join (str " ") (current st)];
            current := [sentence];
            wordCount := length (wordsOf sentence) |}
    else {| paragraphs := paragraphs st;
            current := current st ++ [sentence];
            wordCount := wordCount st + length (wordsOf sentence) |}.
Proof.
  intros Htight. apply wordsOf_tight in Htight.
  unfold addSentence. cbv zeta.
  destruct (wordsOf sentence) as [|word words]; [congruence|].
  cbn [length Nat.eqb].
  destruct (reached (wordCount st) targetWords && (0 <? length (current st))%nat);
    reflexivity.
Qed.

Lemma flow_loop (targetWords : Target) (sentences : list jsstring) (st : Flow)
    (groups : list (list jsstring)) :
  Forall tight sentences →
  paragraphs st = map (join (str " ")) groups →
  Forall (closedGroup targetWords) groups →
  wordCount st = countWords (current st) →
  minimal targetWords (current st) →
  ∃ groups',
    let final := foldl (addSentence targetWords) st sentences in
    paragraphs final = map (join (str " ")) groups' ∧
    concat groups' ++ current final = concat groups ++ current st ++ sentences ∧
    Forall (closedGroup targetWords) groups' ∧
    minimal targetWords (current final) ∧
    (current st ≠ [] ∨ sentences ≠ [] → current final ≠ []).
Proof.
  revert st groups.
  induction sentences as [|sentence sentences IH];
    intros st groups Htight Hpar Hclosed Hcount Hmin.
  - exists groups. cbn. rewrite app_nil_r.
    repeat split; try assumption. intros [H|H]; [exact H|congruence].
  - apply Forall_cons in Htight as [Hsentence Htight].
    cbn [foldl]. rewrite (addSentence_step targetWords st sentence Hsentence).
    destruct (reached (wordCount st) targetWords && (0 <? length (current st))%nat)
      eqn:Hcond.
    + apply andb_true_iff in Hcond as [Hreached Hsome].
      destruct (IH {| paragraphs := paragraphs st ++ [join (str " ") (current st)];
                      current := [sentence];
                      wordCount := length (wordsOf sentence) |}
                   (groups ++ [current st]) Htight)
        as (groups' & Hpar' & Hcat & Hclosed' & Hmin' & Hlast).
      * cbn [paragraphs]. rewrite Hpar, map_app. reflexivity.
      * apply Forall_app. split; [exact Hclosed|].
        constructor; [|constructor]. split; [|split].
        -- intros Hnil. rewrite Hnil in Hsome. discriminate.
        -- rewrite <- Hcount. exact Hreached.
        -- exact Hmin.
      * cbn [current wordCount]. unfold countWords. cbn [map sum_list_with]. unfold id. lia.
      * left. reflexivity.
      * exists groups'. cbv zeta in *. cbn [current] in *.
        split; [exact Hpar'|]. split; [|split; [exact Hclosed'|split; [exact Hmin'|]]].
        -- rewrite Hcat, concat_app. cbn [concat]. rewrite app_nil_r, <- !app_assoc.
           reflexivity.
        -- intros _. apply Hlast. left. discriminate.
    + destruct (IH {| paragraphs := paragraphs st;
                      current := current st ++ [sentence];
                      wordCount := wordCount st + length (wordsOf sentence) |}
                   groups Htight)
        as (groups' & Hpar' & Hcat & Hclosed' & Hmin' & Hlast).
      * exact Hpar.
      * exact Hclosed.
      * cbn [current wordCount]. rewrite countWords_snoc, Hcount. reflexivity.
      * cbn [current]. unfold minimal. rewrite removelast_last.
        apply andb_false_iff in Hcond as [Hreached|Hnone].
        -- right. rewrite <- Hcount. exact Hreached.
        -- left. destruct (current st); [reflexivity|discriminate].
      * exists groups'. cbv zeta in *. cbn [current] in *.
        split; [exact Hpar'|]. split; [|split; [exact Hclosed'|split; [exact Hmin'|]]].
        -- rewrite Hcat, <- !app_assoc. reflexivity.
        -- intros _. apply Hlast. left. destruct (current st); discriminate.
Qed.

(** X26.  For a text that is not blank, [toParagraphs] returns the
    sentences of the text, all of them and in their order, in groups
    joined by single spaces: every group but the last has reached the
    target number of words, and reached it only with its last sentence;
    the last group is not empty. *)
Theorem toParagraphs_groups (text : jsstring) (targetWords : Target) :
  trim text ≠ [] →
  ∃ groups last,
    toParagraphs text targetWords = map (join (str " ")) (groups ++ [last]) ∧
    concat groups ++ last = splitSentences text ∧
    Forall (closedGroup targetWords) groups ∧
    last ≠ [] ∧ minimal targetWords last.
Proof.
  intros Hne. pose proof (splitSentences_solid text Hne) as Hsome.
  destruct (flow_loop targetWords (splitSentences text)
              {| paragraphs := []; current := []; wordCount := 0 |} [])
    as (groups & Hpar & Hcat & Hclosed & Hmin & Hlast).
  - apply Forall_forall. intros sentence. apply splitSentences_tight.
  - reflexivity.
  - constructor.
  - reflexivity.
  - left. reflexivity.
  - cbv zeta in *. cbn [current concat app] in *.
    specialize (Hlast (or_intror Hsome)).
    exists groups, (current (foldl (addSentence targetWords)
                       {| paragraphs := []; current := []; wordCount := 0 |}
                       (splitSentences text))).
    split; [|repeat split; assumption].
    unfold toParagraphs. destruct text as [|c text]; [contradiction Hne; reflexivity|].
    cbn [truthy negb]. cbv zeta.
    destruct (splitSentences (c :: text)) as [|sentence sentences] eqn:Hs;
      [congruence|].
    cbn [length Nat.eqb]. rewrite Hpar, map_app.
    destruct (current _) as [|x l]; [congruence|reflexivity].
Qed.

Lemma toParagraphs_groups_witness :
  ∃ groups last,
    toParagraphs threeSentences (AtLeast 3) =
      map (join (str " ")) (groups ++ [last]) ∧
    concat groups ++ last = splitSentences threeSentences ∧
    Forall (closedGroup (AtLeast 3)) groups ∧
    last ≠ [] ∧ minimal (AtLeast 3) last.
Proof.
  apply (toParagraphs_groups threeSentences (AtLeast 3)). by_evaluation.
Defined.

(** *** Blank texts *)

Lemma blank_spaces (s : jsstring) :
  trim s = [] → Forall (λ c, isWhiteSpace c = true) s.
Proof.
  intros Hblank. apply Forall_forall. intros c Hin.
  destruct (isWhiteSpace c) eqn:Hc; [reflexivity|].
  exfalso. apply (trim_solid s); [|exact Hblank].
  apply Exists_exists. exists c. split; [exact Hin|exact Hc].
Qed.

Lemma trimStart_spaces (s : jsstring) :
  Forall (λ c, isWhiteSpace c = true) s → trimStart s = [].
Proof.
  induction 1 as [|c s Hc _ IH]; [reflexivity|].
  cbn [trimStart]. rewrite Hc. exact IH.
Qed.

Lemma splitFrom_skip_all (r : regex) (s cur : jsstring) :
  splitFrom r (length s) cur s = [reverse cur].
Proof. induction s as [|c s IH]; [reflexivity|exact IH]. Qed.

Lemma split_spaces (c : N) (s : jsstring) :
  Forall (λ c, isWhiteSpace c = true) (c :: s) → split reSpaces (c :: s) = [[]; []].
Proof.
  intros Hall. apply Forall_cons in Hall as [Hc Hs].
  unfold split. cbn [splitFrom]. rewrite exec_reSpaces, Hc, matched_trimStart.
  rewrite (trimStart_spaces s Hs). cbn [length]. rewrite Nat.sub_0_r.
  rewrite splitFrom_skip_all. reflexivity.
Qed.

Lemma splitBehind_spaces (s : jsstring) (prev : option N) (cur : jsstring) :
  Forall (λ c, isWhiteSpace c = true) s →
  match prev with Some b => isEnd b = false | None => True end →
  splitBehindFrom isEnd reSpaces prev 0 cur s = [reverse cur ++ s].
Proof.
  intros Hall. revert prev cur. induction Hall as [|c s Hc _ IH]; intros prev cur Hprev.
  - cbn [splitBehindFrom]. rewrite app_nil_r. reflexivity.
  - cbn [splitBehindFrom].
    assert (Hlook : match prev with Some b => isEnd b | None => false end = false).
    { destruct prev; [exact Hprev|reflexivity]. }
    rewrite Hlook, IH by (apply space_not_end, Hc).
    rewrite reverse_cons, <- app_assoc. reflexivity.
Qed.

Lemma splitSentences_blank (text : jsstring) : trim text = [] → splitSentences text = [].
Proof.
  intros Hblank. unfold splitSentences. cbv zeta.
  rewrite splitBehind_spaces by (apply blank_spaces, Hblank || exact I).
  cbn [map reverse app]. change (reverse [] ++ text) with text. rewrite Hblank. reflexivity.
Qed.

(** X27.  For a text that is not empty but blank, [toParagraphs] does not
    return an empty list: the text splits into two empty words, which
    [wrapByWords] returns as two empty paragraphs when the target is one
    word or less, and as one paragraph made of a single space otherwise. *)
Theorem toParagraphs_blank (text : jsstring) (targetWords : Target) :
  text ≠ [] → trim text = [] →
  toParagraphs text targetWords =
    if reached 1 targetWords then [[]; []] else [str " "].
Proof.
  intros Hne Hblank. unfold toParagraphs.
  destruct text as [|c text]; [congruence|]. cbn [truthy negb]. cbv zeta.
  rewrite (splitSentences_blank _ Hblank). cbn [length Nat.eqb].
  rewrite (split_spaces c text (blank_spaces _ Hblank)).
  destruct targetWords as [[|[|[|k]]]|]; reflexivity.
Qed.

Lemma toParagraphs_blank_witness : toParagraphs (str "  ") (AtLeast 90) = [str " "].
Proof.
  apply (toParagraphs_blank (str "  ") (AtLeast 90)); [by_evaluation|reflexivity].
Defined.

(** *** buildArticle *)

Lemma trimStart_app_solid (x y : jsstring) :
  headSolid y = true → trimStart (x ++ y) = trimStart x ++ y.
Proof.
  intros Hy. induction x as [|c x IH]; [apply trimStart_solid, Hy|].
  cbn [app trimStart]. destruct (isWhiteSpace c); [exact IH|reflexivity].
Qed.

Lemma trimEnd_app_tight (a b : jsstring) :
  headSolid (reverse a) = true → trimEnd (a ++ b) = a ++ trimEnd b.
Proof.
  intros Ha. unfold trimEnd.
  rewrite reverse_app, (trimStart_app_solid _ _ Ha), reverse_app, reverse_involutive.
  reflexivity.
Qed.

Lemma trim_app_tight (a b : jsstring) : tight a → trim (a ++ b) = a ++ trimEnd b.
Proof.
  intros [Hhead Hlast]. unfold trim. rewrite trimStart_solid.
  - apply trimEnd_app_tight, Hlast.
  - rewrite headSolid_app by (apply headSolid_nonempty, Hhead). exact Hhead.
Qed.

Lemma trimEnd_cases (s : jsstring) :
  trimEnd s = [] ∨ headSolid (reverse (trimEnd s)) = true.
Proof.
  unfold trimEnd. rewrite reverse_involutive.
  destruct (trimStart_head (reverse s)) as [->|H]; [left; reflexivity|right; exact H].
Qed.

Lemma trimStart_snoc_space (x : jsstring) (c : N) :
  isWhiteSpace c = true →
  trimStart (x ++ [c]) = if truthy (trimStart x) then trimStart x ++ [c] else [].
Proof.
  intros Hc. induction x as [|d x IH]; cbn [app trimStart].
  - rewrite Hc. reflexivity.
  - destruct (isWhiteSpace d); [exact IH|reflexivity].
Qed.

Lemma truthy_reverse (s : jsstring) : truthy (reverse s) = truthy s.
Proof.
  destruct s as [|c s]; [reflexivity|].
  rewrite reverse_cons. destruct (reverse s); reflexivity.
Qed.

Lemma trimEnd_space (c : N) (s : jsstring) :
  isWhiteSpace c = true →
  trimEnd (c :: s) = if truthy (trimEnd s) then c :: trimEnd s else [].
Proof.
  intros Hc. unfold trimEnd.
  rewrite reverse_cons, (trimStart_snoc_space _ c Hc), truthy_reverse.
  destruct (truthy (trimStart (reverse s))); [|reflexivity].
  rewrite reverse_app. reflexivity.
Qed.

Lemma heading_tight (options : ArticleOptions) : tight (heading options).
Proof.
  assert (Htitle : tight (orElse (trim <$> opt_title options) (str "Transcript"))).
  { destruct (ApiFacts.orElse_trim (opt_title options) (str "Transcript"))
      as [[_ ->]|(s & _ & Hne & ->)].
    - split; reflexivity.
    - apply trim_tight, ApiFacts.truthy_nonempty, Hne. }
  unfold heading. destruct Htitle as [_ Hlast]. split; [reflexivity|].
  rewrite reverse_app, headSolid_app by (apply headSolid_nonempty, Hlast).
  exact Hlast.
Qed.

Lemma buildArticle_lines (text : jsstring) (options : ArticleOptions) :
  ∃ rest, buildArticle text options = trim (heading options ++ nl ++ rest) ++ nl.
Proof.
  unfold buildArticle, heading. cbv zeta.
  destruct (opt_sourceUrl options) as [sourceUrl|]; [destruct (truthy sourceUrl)|];
    eexists; reflexivity.
Qed.

Lemma normalizeText_blank (text : jsstring) : trim text = [] → normalizeText text = [].
Proof.
  intros Hblank. destruct text as [|c text]; [reflexivity|].
  apply blank_spaces, Forall_cons in Hblank as [Hc Htext].
  unfold normalizeText. rewrite replace_spaces_cons, Hc, (trimStart_spaces _ Htext).
  reflexivity.
Qed.

(** X28.  The article starts with the line [# title], the title being the
    trimmed title of the options, or [Transcript] when that is missing or
    blank.  After this line comes nothing, or a body that ends with a
    character that is not white space, followed by exactly one line feed. *)
Theorem buildArticle_layout (text : jsstring) (options : ArticleOptions) :
  ∃ more,
    buildArticle text options = heading options ++ nl ++ more ∧
    (more = [] ∨ ∃ body, more = body ++ nl ∧ headSolid (reverse body) = true).
Proof.
  destruct (buildArticle_lines text options) as [rest ->].
  rewrite (trim_app_tight _ _ (heading_tight options)).
  change (nl ++ rest) with (10 :: rest). rewrite trimEnd_space by reflexivity.
  destruct (trimEnd_cases rest) as [Hnil|Hlast].
  - exists []. rewrite Hnil. cbn [truthy]. rewrite !app_nil_r.
    split; [reflexivity|left; reflexivity].
  - exists (trimEnd rest ++ nl).
    assert (Hne : truthy (trimEnd rest) = true).
    { destruct (trimEnd rest); [discriminate|reflexivity]. }
    rewrite Hne. split.
    + rewrite <- app_assoc. reflexivity.
    + right. exists (trimEnd rest). split; [reflexivity|exact Hlast].
Qed.

(** X29.  For a blank text and no source URL, the article is the heading
    line alone. *)
Theorem buildArticle_blank (text : jsstring) (options : ArticleOptions) :
  trim text = [] →
  opt_sourceUrl options = None ∨ opt_sourceUrl options = Some [] →
  buildArticle text options = heading options ++ nl.
Proof.
  intros Hblank Hsource.
  assert (Hlines : buildArticle text options = trim (heading options ++ nl) ++ nl).
  { unfold buildArticle, heading. cbv zeta. rewrite (normalizeText_blank text Hblank).
    destruct Hsource as [->| ->]; reflexivity. }
  rewrite Hlines, (trim_app_tight _ _ (heading_tight options)).
  change (trimEnd nl) with (@nil N). rewrite app_nil_r. reflexivity.
Qed.

Lemma buildArticle_blank_witness :
  buildArticle (str "  ") noOptions = str "# Transcript" ++ nl.
Proof.
  apply (buildArticle_blank (str "  ") noOptions); [reflexivity|left; reflexivity].
Defined.

End ArticleFacts.
